(** * Waitlist form validation (src/scripts/main.js, [initFormValidation])

    A shallow embedding of the form-validation component of the landing
    page script, and the properties of it that the specification states.

    - JavaScript strings are sequences of UTF-16 code units ([jsstr]).
    - The document is the list of its elements in document order, each
      with its nesting depth; an element reference is a position in it.
    - The script's effects (DOM writes, console output, focus, scrolling,
      [preventDefault], thrown [TypeError]s) are threaded through a small
      state-and-exception monad [M].

    The other functions of the script (external links, scroll animations,
    the mobile menu toggle, the hiding header) follow the form component,
    on the same document model. *)

From Stdlib Require Import ZArith NArith Ascii String DecimalString QArith Lqa.
From stdpp Require Import base option list gmap.

Local Open Scope N_scope.

(** ** JavaScript strings *)

(** A string is its sequence of UTF-16 code units (numbers below 65536;
    nothing below depends on the bound). *)
Abbreviation jsstr := (list N).

(** A string literal of the script (all of them are ASCII). *)
Fixpoint lit (s : string) : jsstr :=
  match s with
  | EmptyString => []
  | String a s' => N_of_ascii a :: lit s'
  end.
Arguments lit s%_string : simpl never.

(** [ToBoolean] on a string: only the empty string is falsy. *)
Definition truthy (s : jsstr) : bool :=
  match s with [] => false | _ :: _ => true end.

(** [a || b] on a possibly-undefined string. *)
Definition or_default (a : option jsstr) (b : jsstr) : jsstr :=
  match a with
  | Some s => if truthy s then s else b
  | None => b
  end.

(** ECMAScript WhiteSpace and LineTerminator code points: what
    [String.prototype.trim] strips and what the class escape [\s] matches. *)
Definition is_space (c : N) : bool :=
  (c =? 9) || (c =? 10) || (c =? 11) || (c =? 12) || (c =? 13) ||
  (c =? 32) || (c =? 160) || (c =? 5760) ||
  ((8192 <=? c) && (c <=? 8202)) ||
  (c =? 8232) || (c =? 8233) || (c =? 8239) || (c =? 8287) ||
  (c =? 12288) || (c =? 65279).

Fixpoint trimStart (s : jsstr) : jsstr :=
  match s with
  | [] => []
  | c :: s' => if is_space c then trimStart s' else s
  end.

Definition trimEnd (s : jsstr) : jsstr := rev (trimStart (rev s)).

Definition trim (s : jsstr) : jsstr := trimEnd (trimStart s).

(** *** Numbers to strings

    [String(n)] for a number whose value is an integer (Number::toString,
    radix 10).  A number is a double: an integer below 2^53 in magnitude
    is one exactly and prints as its decimal digits; a larger integer
    stands for the double nearest to it and prints as the fewest digits
    that still denote that double, padded with zeros up to 21 digits and
    in exponent notation from 10^21 on. *)

Definition decimal (n : Z) : jsstr :=
  lit (NilZero.string_of_int (Z.to_int n)).

(** The double nearest to a positive integer, ties to the even
    significand. *)
Definition nearest_double (v : Z) : Z :=
  let b := Z.log2 v in
  if (b <=? 52)%Z then v
  else
    let e := (b - 52)%Z in
    let q := Z.shiftr v e in
    let r := (v - Z.shiftl q e)%Z in
    let half := Z.shiftl 1 (e - 1) in
    Z.shiftl (if (r <? half)%Z then q
              else if (half <? r)%Z then (q + 1)%Z
              else if Z.even q then q else (q + 1)%Z) e.

(** How many decimal digits a positive integer has. *)
Definition digits (v : Z) : Z := Z.of_nat (length (decimal v)).

(** The integers with at most [k] significant digits on either side of
    the double [x] that denote [x], the closest to [x] first (of two
    equally close, the one with the even last digit). *)
Definition denoting (x k : Z) : list Z :=
  let p := (10 ^ Z.max 0 (digits x - k))%Z in
  let lo := (x / p * p)%Z in
  let hi := (lo + p)%Z in
  let ordered :=
    if (x - lo <? hi - x)%Z then [lo; hi]
    else if (hi - x <? x - lo)%Z then [hi; lo]
    else if Z.even (x / p) then [lo; hi] else [hi; lo] in
  List.filter (fun c => (nearest_double c =? x)%Z) ordered.

(** The decimal with the fewest significant digits that denotes the
    double [x]; seventeen digits always suffice. *)
Definition shortest (x : Z) : Z :=
  match List.concat (map (fun k => denoting x (Z.of_nat k)) (seq 1 17)) with
  | c :: _ => c
  | [] => x
  end.

Fixpoint drop_zeros (s : jsstr) : jsstr :=
  match s with
  | [] => []
  | c :: s' => if (c =? 48) then drop_zeros s' else s
  end.

(** The digits of a positive integer without its final zeros. *)
Definition significand (c : Z) : jsstr := rev (drop_zeros (rev (decimal c))).

(** [d.ddde+x]: the exponent notation of a positive integer. *)
Definition exponent_notation (c : Z) : jsstr :=
  match significand c with
  | [] => []
  | d :: ds =>
      d :: (match ds with [] => [] | _ :: _ => 46%N :: ds end) ++
      lit "e+" ++ decimal (digits c - 1)
  end.

Definition number_to_string (n : Z) : jsstr :=
  if (Z.abs n <? 2 ^ 53)%Z then decimal n
  else
    (if (n <? 0)%Z then lit "-" else []) ++
    let x := nearest_double (Z.abs n) in
    if (2 ^ 1024 <=? x)%Z then lit "Infinity"
    else
      let c := shortest x in
      if (c <? 10 ^ 21)%Z then decimal c else exponent_notation c.

(** ** Regular expressions *)

Inductive regex : Type :=
| RNone                          (* matches nothing *)
| REps                           (* the empty string *)
| RClass (p : N -> bool)         (* one code unit of a class *)
| RSeq (r1 r2 : regex)
| RAlt (r1 r2 : regex)
| RStar (r : regex).

Definition RChar (c : N) : regex := RClass (N.eqb c).
Definition RPlus (r : regex) : regex := RSeq r (RStar r).

Fixpoint nullable (r : regex) : bool :=
  match r with
  | RNone => false
  | REps => true
  | RClass _ => false
  | RSeq r1 r2 => nullable r1 && nullable r2
  | RAlt r1 r2 => nullable r1 || nullable r2
  | RStar _ => true
  end.

Fixpoint deriv (c : N) (r : regex) : regex :=
  match r with
  | RNone => RNone
  | REps => RNone
  | RClass p => if p c then REps else RNone
  | RSeq r1 r2 =>
      if nullable r1 then RAlt (RSeq (deriv c r1) r2) (deriv c r2)
      else RSeq (deriv c r1) r2
  | RAlt r1 r2 => RAlt (deriv c r1) (deriv c r2)
  | RStar r1 => RSeq (deriv c r1) (RStar r1)
  end.

(** [r.test(s)] for a pattern anchored at both ends ([^...$], no flags):
    the whole of [s] must match. *)
Fixpoint regex_test (r : regex) (s : jsstr) : bool :=
  match s with
  | [] => nullable r
  | c :: s' => regex_test (deriv c r) s'
  end.

(** The strings a pattern denotes. *)
Inductive Matches : regex -> jsstr -> Prop :=
| MEps : Matches REps []
| MClass p c : p c = true -> Matches (RClass p) [c]
| MSeq r1 r2 s1 s2 :
    Matches r1 s1 -> Matches r2 s2 -> Matches (RSeq r1 r2) (s1 ++ s2)
| MAltL r1 r2 s : Matches r1 s -> Matches (RAlt r1 r2) s
| MAltR r1 r2 s : Matches r2 s -> Matches (RAlt r1 r2) s
| MStarNil r : Matches (RStar r) []
| MStarApp r s1 s2 :
    Matches r s1 -> Matches (RStar r) s2 -> Matches (RStar r) (s1 ++ s2).

(** ** [validateEmail] *)

Definition code_at : N := 64.    (* '@' *)
Definition code_dot : N := 46.   (* '.' *)

(** The class [[^\s@]]. *)
Definition not_space_at (c : N) : bool :=
  negb (is_space c || (c =? code_at)).

(** [/^[^\s@]+@[^\s@]+\.[^\s@]+$/] *)
Definition emailRegex : regex :=
  RSeq (RPlus (RClass not_space_at))
    (RSeq (RChar code_at)
      (RSeq (RPlus (RClass not_space_at))
        (RSeq (RChar code_dot)
          (RPlus (RClass not_space_at))))).

Definition validateEmail (email : jsstr) : bool :=
  regex_test emailRegex email.

(** ** The email format check *)

(** A non-empty run of code units that are neither white space nor '@'. *)
Definition plain_run (s : jsstr) : Prop :=
  s <> [] /\ Forall (fun c => is_space c = false /\ c <> code_at) s.

(** run, '@', run, '.', run. *)
Definition email_shape (s : jsstr) : Prop :=
  exists a b c,
    s = a ++ code_at :: b ++ code_dot :: c /\
    plain_run a /\ plain_run b /\ plain_run c.


(** ** The document *)

(** An element, with the parts of its state the script reads or writes.
    The script writes [textContent] only to error elements, which are
    taken to hold text only, so that the write changes nothing else. *)
Record element := Element {
  el_depth : nat;                   (* nesting depth in the tree *)
  el_id : option jsstr;             (* the id attribute *)
  el_classes : gset jsstr;          (* classList *)
  el_attrs : gmap jsstr jsstr;      (* the other attributes *)
  el_value : jsstr;                 (* .value of a form control *)
  el_text : jsstr;                  (* .textContent *)
  el_display : jsstr                (* .style.display *)
}.

(** An element reference: the position of the element in the document;
    [None] is [null].  The script creates and removes no element, so the
    references it obtains from [getElementById] and [querySelector] stay
    in range; one out of range is treated like [null]. *)
Abbreviation ref := (option nat).

Inductive selector :=
| SelClass (c : jsstr)              (* .c *)
| SelAttrEq (a v : jsstr).          (* [a="v"] *)

Definition sel_matches (sel : selector) (e : element) : bool :=
  match sel with
  | SelClass c => bool_decide (c ∈ el_classes e)
  | SelAttrEq a v => bool_decide (el_attrs e !! a = Some v)
  end.

(** The positions of the descendants of an element of depth [dn], read
    off the elements [l] that follow it (the first of them at [i]). *)
Fixpoint subtree (dn : nat) (l : list element) (i : nat) : list nat :=
  match l with
  | [] => []
  | e :: l' => if (dn <? el_depth e)%nat then i :: subtree dn l' (S i) else []
  end.

Definition descendants (d : list element) (n : nat) : list nat :=
  match d !! n with
  | Some root => subtree (el_depth root) (drop (S n) d) (S n)
  | None => []
  end.

Definition matches_at (d : list element) (sel : selector) (i : nat) : bool :=
  match d !! i with
  | Some e => sel_matches sel e
  | None => false
  end.

Definition select_all (d : list element) (n : nat) (sel : selector) : list nat :=
  List.filter (matches_at d sel) (descendants d n).

Definition by_id (d : list element) (id : jsstr) : ref :=
  fst <$> list_find (fun e => el_id e = Some id) d.

(** ** The rule table's types *)

Record Rules := {
  required : bool;
  minLength : option Z;
  email : bool;
  requiredMessage : option jsstr;
  minLengthMessage : option jsstr;
  emailMessage : option jsstr
}.

Record binding := { field : ref; error : ref; rules : Rules }.

(** The element references [initFormValidation] holds in its closure. *)
Record env := {
  form : ref;
  emailField : ref; nameField : ref; roleField : ref;
  experienceField : ref; goalField : ref;
  successMessage : ref;
  emailError : ref; nameError : ref; roleError : ref;
  experienceError : ref; goalError : ref
}.

(** ** Effects *)

Inductive evtype := Blur | Input | Submit.

Inductive effect :=
| Warn (msg : jsstr)                               (* console.warn *)
| Log (msg : jsstr) (data : list (jsstr * jsstr))  (* console.log *)
| PreventDefault
| Focus (n : nat)
| ScrollIntoView (n : nat).

(** The listeners the script registers, as closures over their captured
    variables. *)
Inductive handler :=
| OnBlur (b : binding)
| OnInput (b : binding)
| OnSubmit (e : env).

Record world := World {
  w_doc : list element;
  w_effects : list effect;
  (* the fields [validateField] was entered with, oldest first; written
     by nothing but that entry, read by nothing in the script *)
  w_calls : list ref;
  w_listeners : list (nat * evtype * handler)
}.

Definition with_doc (d : list element) (w : world) : world :=
  World d (w_effects w) (w_calls w) (w_listeners w).

Inductive outcome (A : Type) :=
| Ret (a : A)
| Throw.                            (* a TypeError *)
Arguments Ret {A} a.
Arguments Throw {A}.

Definition M (A : Type) : Type := world -> outcome A * world.

#[export] Instance M_ret : MRet M := fun A a w => (Ret a, w).
#[export] Instance M_bind : MBind M := fun A B f m w =>
  match m w with
  | (Ret a, w') => f a w'
  | (Throw, w') => (Throw, w')
  end.

Definition throw {A} : M A := fun w => (Throw, w).

Fixpoint forEach {A} (l : list A) (f : A -> M unit) : M unit :=
  match l with
  | [] => mret ()
  | x :: l' => f x;; forEach l' f
  end.

(** A [forEach] whose callback assigns to one captured local. *)
Fixpoint forEach_with {A S} (l : list A) (f : S -> A -> M S) (s : S) : M S :=
  match l with
  | [] => mret s
  | x :: l' => s' ← f s x; forEach_with l' f s'
  end.

(** *** DOM primitives *)

Definition getElementById (id : jsstr) : M ref :=
  fun w => (Ret (by_id (w_doc w) id), w).

(** Reading a property of [r]; of [null], a TypeError. *)
Definition deref (r : ref) : M element := fun w =>
  match r with
  | Some n =>
      match w_doc w !! n with
      | Some e => (Ret e, w)
      | None => (Throw, w)
      end
  | None => (Throw, w)
  end.

(** Writing to [r]; to [null], a TypeError. *)
Definition update (r : ref) (f : element -> element) : M unit := fun w =>
  match r with
  | Some n =>
      match w_doc w !! n with
      | Some _ => (Ret (), with_doc (alter f n (w_doc w)) w)
      | None => (Throw, w)
      end
  | None => (Throw, w)
  end.

Definition set_attr (a v : jsstr) (e : element) : element :=
  Element (el_depth e) (el_id e) (el_classes e) (<[a := v]> (el_attrs e))
    (el_value e) (el_text e) (el_display e).
Definition set_classes (cs : gset jsstr) (e : element) : element :=
  Element (el_depth e) (el_id e) cs (el_attrs e)
    (el_value e) (el_text e) (el_display e).
Definition set_value (v : jsstr) (e : element) : element :=
  Element (el_depth e) (el_id e) (el_classes e) (el_attrs e)
    v (el_text e) (el_display e).
Definition set_text (s : jsstr) (e : element) : element :=
  Element (el_depth e) (el_id e) (el_classes e) (el_attrs e)
    (el_value e) s (el_display e).
Definition set_display (s : jsstr) (e : element) : element :=
  Element (el_depth e) (el_id e) (el_classes e) (el_attrs e)
    (el_value e) (el_text e) s.

Definition get_value (r : ref) : M jsstr :=
  e ← deref r; mret (el_value e).
Definition getAttribute (r : ref) (a : jsstr) : M (option jsstr) :=
  e ← deref r; mret (el_attrs e !! a).
Definition setAttribute (r : ref) (a v : jsstr) : M unit :=
  update r (set_attr a v).
Definition classList_add (r : ref) (c : jsstr) : M unit :=
  update r (fun e => set_classes (el_classes e ∪ {[c]}) e).
Definition classList_remove (r : ref) (c : jsstr) : M unit :=
  update r (fun e => set_classes (el_classes e ∖ {[c]}) e).
Definition set_textContent (r : ref) (s : jsstr) : M unit :=
  update r (set_text s).
Definition set_style_display (r : ref) (s : jsstr) : M unit :=
  update r (set_display s).

Definition querySelectorAll (r : ref) (sel : selector) : M (list nat) :=
  match r with
  | Some n => fun w => (Ret (select_all (w_doc w) n sel), w)
  | None => throw
  end.
Definition querySelector (r : ref) (sel : selector) : M ref :=
  l ← querySelectorAll r sel; mret (head l).

Definition emit (x : effect) : M unit := fun w =>
  (Ret (), World (w_doc w) (w_effects w ++ [x]) (w_calls w) (w_listeners w)).
Definition console_warn (msg : jsstr) : M unit := emit (Warn msg).
Definition console_log (msg : jsstr) (data : list (jsstr * jsstr)) : M unit :=
  emit (Log msg data).
Definition preventDefault : M unit := emit PreventDefault.
Definition focus (r : ref) : M unit :=
  match r with Some n => emit (Focus n) | None => throw end.
Definition scrollIntoView (r : ref) : M unit :=
  match r with Some n => emit (ScrollIntoView n) | None => throw end.

Definition addEventListener (r : ref) (ev : evtype) (h : handler) : M unit :=
  match r with
  | Some n => fun w =>
      (Ret (), World (w_doc w) (w_effects w) (w_calls w)
                 (w_listeners w ++ [(n, ev, h)]))
  | None => throw
  end.

(** Notes the entry into [validateField] for control [r] in [w_calls]. *)
Definition entered (r : ref) : M unit := fun w =>
  (Ret (), World (w_doc w) (w_effects w) (w_calls w ++ [r]) (w_listeners w)).

(** ** The validation engine *)

Definition aria_invalid : jsstr := lit "aria-invalid".
Definition input_error : jsstr := lit "form__input--error".

(** [n && ...] on a possibly-undefined number. *)
Definition number_truthy (n : option Z) : bool :=
  match n with Some k => negb (k =? 0)%Z | None => false end.

(** The [if]/[else if] chain of [validateField] that picks the message. *)
Definition errorMessage_of (validationRules : Rules) (value : jsstr) : jsstr :=
  if required validationRules && negb (truthy value) then
    or_default (requiredMessage validationRules) (lit "This field is required")
  else if number_truthy (minLength validationRules) &&
          (Z.of_nat (length value) <? default 0%Z (minLength validationRules))%Z then
    or_default (minLengthMessage validationRules)
      (lit "Minimum " ++
       number_to_string (default 0%Z (minLength validationRules)) ++
       lit " characters required")
  else if email validationRules && negb (validateEmail value) then
    or_default (emailMessage validationRules)
      (lit "Please enter a valid email address")
  else [].

Definition validateField (field errorElement : ref) (validationRules : Rules)
  : M bool :=
  entered field;;
  v ← get_value field;
  let value := trim v in
  let errorMessage := errorMessage_of validationRules value in
  if truthy errorMessage then
    setAttribute field aria_invalid (lit "true");;
    classList_add field input_error;;
    set_textContent errorElement errorMessage;;
    mret false
  else
    setAttribute field aria_invalid (lit "false");;
    classList_remove field input_error;;
    set_textContent errorElement [];;
    mret true.

Definition fieldValidations (e : env) : list (jsstr * binding) :=
  [ (lit "email",
     {| field := emailField e; error := emailError e;
        rules := {| required := true; minLength := None; email := true;
                    requiredMessage := Some (lit "Email address is required");
                    minLengthMessage := None;
                    emailMessage :=
                      Some (lit "Please enter a valid email address") |} |});
    (lit "name",
     {| field := nameField e; error := nameError e;
        rules := {| required := true; minLength := Some 2%Z; email := false;
                    requiredMessage := Some (lit "Full name is required");
                    minLengthMessage :=
                      Some (lit "Name must be at least 2 characters");
                    emailMessage := None |} |});
    (lit "role",
     {| field := roleField e; error := roleError e;
        rules := {| required := true; minLength := None; email := false;
                    requiredMessage := Some (lit "Current role is required");
                    minLengthMessage := None; emailMessage := None |} |});
    (lit "experience",
     {| field := experienceField e; error := experienceError e;
        rules := {| required := true; minLength := None; email := false;
                    requiredMessage :=
                      Some (lit "Please select your years of experience");
                    minLengthMessage := None; emailMessage := None |} |});
    (lit "goal",
     {| field := goalField e; error := goalError e;
        rules := {| required := true; minLength := None; email := false;
                    requiredMessage :=
                      Some (lit "Please select your primary goal");
                    minLengthMessage := None; emailMessage := None |} |}) ].

(** [Object.values]: the values in insertion order. *)
Definition Object_values {A} (o : list (jsstr * A)) : list A := snd <$> o.

Definition setupRealTimeValidation (e : env) : M unit :=
  forEach (Object_values (fieldValidations e)) (fun b =>
    addEventListener (field b) Blur (OnBlur b);;
    addEventListener (field b) Input (OnInput b)).

Definition validateForm (e : env) : M bool :=
  forEach_with (Object_values (fieldValidations e)) (fun isValid b =>
    fieldValid ← validateField (field b) (error b) (rules b);
    mret (if negb fieldValid then false else isValid)) true.

Definition showSuccessMessage (e : env) : M unit :=
  fields ← querySelectorAll (form e) (SelClass (lit "form__field"));
  forEach fields (fun f => set_style_display (Some f) (lit "none"));;
  submit ← querySelector (form e) (SelClass (lit "form__submit"));
  set_style_display submit (lit "none");;
  classList_add (successMessage e) (lit "visible");;
  scrollIntoView (successMessage e).

Definition handleFormSubmit (e : env) : M unit :=
  preventDefault;;
  isValid ← validateForm e;
  if negb isValid then
    firstInvalidField ← querySelector (form e)
                          (SelAttrEq aria_invalid (lit "true"));
    match firstInvalidField with
    | Some n => focus (Some n)
    | None => mret ()
    end
  else
    showSuccessMessage e;;
    vemail ← get_value (emailField e);
    vname ← get_value (nameField e);
    vrole ← get_value (roleField e);
    vexperience ← get_value (experienceField e);
    vgoal ← get_value (goalField e);
    console_log (lit "Form submitted successfully:")
      [ (lit "email", trim vemail); (lit "name", trim vname);
        (lit "role", trim vrole); (lit "experience", vexperience);
        (lit "goal", vgoal) ].

(** The blur listener of a field. *)
Definition onFieldBlur (b : binding) : M unit :=
  validateField (field b) (error b) (rules b);; mret ().

(** The input listener of a field. *)
Definition onFieldInput (b : binding) : M unit :=
  a ← getAttribute (field b) aria_invalid;
  if bool_decide (a = Some (lit "true")) then
    validateField (field b) (error b) (rules b);; mret ()
  else mret ().

Definition run_handler (h : handler) : M unit :=
  match h with
  | OnBlur b => onFieldBlur b
  | OnInput b => onFieldInput b
  | OnSubmit e => handleFormSubmit e
  end.

Definition initFormValidation : M unit :=
  form ← getElementById (lit "waitlist-form");
  match form with
  | None => console_warn (lit "Waitlist form not found")
  | Some _ =>
      emailField ← getElementById (lit "email");
      nameField ← getElementById (lit "name");
      roleField ← getElementById (lit "role");
      experienceField ← getElementById (lit "experience");
      goalField ← getElementById (lit "goal");
      successMessage ← getElementById (lit "form-success");
      emailError ← getElementById (lit "email-error");
      nameError ← getElementById (lit "name-error");
      roleError ← getElementById (lit "role-error");
      experienceError ← getElementById (lit "experience-error");
      goalError ← getElementById (lit "goal-error");
      let e := {| form := form;
                  emailField := emailField; nameField := nameField;
                  roleField := roleField;
                  experienceField := experienceField; goalField := goalField;
                  successMessage := successMessage;
                  emailError := emailError; nameError := nameError;
                  roleError := roleError;
                  experienceError := experienceError;
                  goalError := goalError |} in
      setupRealTimeValidation e;;
      addEventListener form Submit (OnSubmit e);;
      console_log (lit "Form validation initialized") []
  end.

(** ** The event loop *)

#[export] Instance evtype_eq_dec : EqDecision evtype.
Proof. solve_decision. Defined.

Definition handlers_at (ls : list (nat * evtype * handler))
    (n : nat) (ev : evtype) : list handler :=
  map snd
    (List.filter (fun l => bool_decide (l.1.1 = n) && bool_decide (l.1.2 = ev)) ls).

(** An exception a listener throws is reported and goes no further. *)
Definition attempt (m : M unit) : M unit := fun w => (Ret (), (m w).2).

(** The listeners registered on [n] for [ev] run in registration order. *)
Definition dispatch (n : nat) (ev : evtype) : M unit := fun w =>
  forEach (handlers_at (w_listeners w) n ev)
    (fun h => attempt (run_handler h)) w.

(** What the user does to the page. *)
Inductive action :=
| UserTypes (n : nat) (v : jsstr)   (* edits control [n]: new value, input event *)
| UserLeaves (n : nat)              (* control [n] loses focus: blur event *)
| UserSubmits (n : nat).            (* submits form [n]: submit event *)

Definition perform (a : action) : M unit :=
  match a with
  | UserTypes n v => update (Some n) (set_value v);; dispatch n Input
  | UserLeaves n => dispatch n Blur
  | UserSubmits n => dispatch n Submit
  end.

Fixpoint run (acts : list action) (w : world) : world :=
  match acts with
  | [] => w
  | a :: acts' => run acts' (perform a w).2
  end.

(** The references the script resolves on [d]. *)
Definition env_of (d : list element) : env :=
  {| form := by_id d (lit "waitlist-form");
     emailField := by_id d (lit "email");
     nameField := by_id d (lit "name");
     roleField := by_id d (lit "role");
     experienceField := by_id d (lit "experience");
     goalField := by_id d (lit "goal");
     successMessage := by_id d (lit "form-success");
     emailError := by_id d (lit "email-error");
     nameError := by_id d (lit "name-error");
     roleError := by_id d (lit "role-error");
     experienceError := by_id d (lit "experience-error");
     goalError := by_id d (lit "goal-error") |}.

Definition bindings (d : list element) : list binding :=
  Object_values (fieldValidations (env_of d)).

(** A listener of a control: the blur or the input listener of one of
    the bindings [bs], registered on its control. *)
Definition field_listener (bs : list binding)
    (l : nat * evtype * handler) : Prop :=
  match l with
  | (n, Blur, OnBlur b) | (n, Input, OnInput b) => b ∈ bs /\ field b = Some n
  | _ => False
  end.

(** The listeners the script can have registered on document [d]:
    listeners of controls and, if it ran to its end, the submit listener
    of the form. *)
Definition installed (d : list element)
    (registered : list (nat * evtype * handler)) : Prop :=
  exists ls,
    Forall (field_listener (bindings d)) ls /\
    (registered = ls \/
     exists f, by_id d (lit "waitlist-form") = Some f /\
       registered = ls ++ [(f, Submit, OnSubmit (env_of d))]).

(** The page once the script has run on document [d]. *)
Definition fresh (d : list element) : world := World d [] [] [].
Definition page_loaded (d : list element) : world :=
  (initFormValidation (fresh d)).2.

Definition visible : jsstr := lit "visible".

(** ** The form's phase *)

Inductive phase := Editing | Submitted.

(** The phase is not stored: the form is submitted once the success
    element is revealed (carries the class [visible]). *)
Definition revealed (d : list element) (r : ref) : bool :=
  match r with
  | Some n =>
      match d !! n with
      | Some e => bool_decide (visible ∈ el_classes e)
      | None => false
      end
  | None => false
  end.

Definition phase_of (w : world) : phase :=
  if revealed (w_doc w) (successMessage (env_of (w_doc w)))
  then Submitted else Editing.

(** ** What a validation shows *)

(** The result of validating a field: its validity and its message. *)
Record ValidationResult := { valid : bool; message : jsstr }.

(** What the page shows for a field: the invalid flag and the error
    style of the control, and the text of its error element. *)
Record ui_state := {
  ui_flag : option jsstr;
  ui_error_style : bool;
  ui_text : option jsstr
}.

Definition ui_of (d : list element) (b : binding) : ui_state :=
  {| ui_flag := e ← (n ← field b; d !! n); el_attrs e !! aria_invalid;
     ui_error_style :=
       match n ← field b; d !! n with
       | Some e => bool_decide (input_error ∈ el_classes e)
       | None => false
       end;
     ui_text := el_text <$> (n ← error b; d !! n) |}.

(** The value a control holds. *)
Definition value_of (d : list element) (r : ref) : jsstr :=
  match n ← r; d !! n with
  | Some e => el_value e
  | None => []
  end.

Definition marked_invalid (d : list element) (r : ref) : bool :=
  bool_decide ((e ← (n ← r; d !! n); el_attrs e !! aria_invalid)
               = Some (lit "true")).

(** The control as [validateField] leaves it. *)
Definition mark (invalid : bool) (e : element) : element :=
  if invalid
  then set_classes (el_classes e ∪ {[input_error]})
         (set_attr aria_invalid (lit "true") e)
  else set_classes (el_classes e ∖ {[input_error]})
         (set_attr aria_invalid (lit "false") e).

(** The document as [validateField] leaves it, for message [msg]. *)
Definition shown (msg : jsstr) (f e : nat) (d : list element) : list element :=
  alter (set_text msg) e (alter (mark (truthy msg)) f d).

(** What [shown] does to the element at position [n]. *)
Definition shown_at (msg : jsstr) (f e n : nat) (x : element) : element :=
  (if decide (e = n) then set_text msg else id)
    ((if decide (f = n) then mark (truthy msg) else id) x).

(** *** The rules in the words of the specification *)

Inductive rule_kind := RequiredRule | MinLengthRule | EmailRule.

(** The fixed priority order. *)
Definition rule_order : list rule_kind :=
  [RequiredRule; MinLengthRule; EmailRule].

(** Whether a rule applies to the field and the trimmed value fails it. *)
Definition fails (r : Rules) (v : jsstr) (k : rule_kind) : bool :=
  match k with
  | RequiredRule => required r && bool_decide (v = [])
  | MinLengthRule =>
      match minLength r with
      | Some m => negb (m =? 0)%Z && (Z.of_nat (length v) <? m)%Z
      | None => false
      end
  | EmailRule => email r && negb (validateEmail v)
  end.

(** The message configured for a rule. *)
Definition configured (r : Rules) (k : rule_kind) : option jsstr :=
  match k with
  | RequiredRule => requiredMessage r
  | MinLengthRule => minLengthMessage r
  | EmailRule => emailMessage r
  end.

(** The first rule, in priority order, that the value fails. *)
Definition first_failing (r : Rules) (v : jsstr) : option rule_kind :=
  List.find (fails r v) rule_order.

(** Every rule the field uses has a non-empty configured message. *)
Definition is_configured (m : option jsstr) : bool :=
  match m with Some s => truthy s | None => false end.

Definition messages_configured (r : Rules) : bool :=
  implb (required r) (is_configured (requiredMessage r)) &&
  implb (number_truthy (minLength r)) (is_configured (minLengthMessage r)) &&
  implb (email r) (is_configured (emailMessage r)).

(** Both elements of the binding exist in the document. *)
Definition resolved (d : list element) (b : binding) : bool :=
  bool_decide (is_Some (n ← field b; d !! n)) &&
  bool_decide (is_Some (n ← error b; d !! n)).

(** The message [validateField] computes for the value the control holds. *)
Definition message_now (d : list element) (b : binding) : jsstr :=
  errorMessage_of (rules b) (trim (value_of d (field b))).

(** What the page shows for a field validated with message [msg]. *)
Definition ui_for (msg : jsstr) : ui_state :=
  {| ui_flag := Some (if truthy msg then lit "true" else lit "false");
     ui_error_style := truthy msg;
     ui_text := Some msg |}.

(** The result of [validateField] on a binding: the boolean it returns
    and the message it leaves in the error element. *)
Definition validation_result (b : binding) (w : world)
  : option ValidationResult :=
  match validateField (field b) (error b) (rules b) w with
  | (Ret ok, w') =>
      msg ← ui_text (ui_of (w_doc w') b);
      Some {| valid := ok; message := msg |}
  | (Throw, _) => None
  end.

(** The document as [validateField] leaves it for binding [b]. *)
Definition shown_b (b : binding) (d : list element) : list element :=
  match field b, error b with
  | Some f, Some e => shown (message_now d b) f e d
  | _, _ => d
  end.

(** The callback of [validateForm]'s loop. *)
Definition validate_step (isValid : bool) (b : binding) : M bool :=
  fieldValid ← validateField (field b) (error b) (rules b);
  mret (if negb fieldValid then false else isValid).

(** What a validation may change of an element [x], giving [y]: of a
    control only the invalid flag and the error style, of an error
    element only the text, of any other element nothing. *)
Definition framed (is_field is_error : Prop) (x y : element) : Prop :=
  el_depth y = el_depth x /\ el_id y = el_id x /\
  el_value y = el_value x /\ el_display y = el_display x /\
  (forall a, a <> aria_invalid -> el_attrs y !! a = el_attrs x !! a) /\
  (forall c, c <> input_error -> c ∈ el_classes y <-> c ∈ el_classes x) /\
  (~ is_field -> el_attrs y = el_attrs x /\ el_classes y = el_classes x) /\
  (~ is_error -> el_text y = el_text x).

(** The document as [validateForm] leaves it. *)
Definition validated (d : list element) : list element :=
  foldl (fun d b => shown_b b d) d (bindings d).

(** How [showSuccessMessage] leaves an element it hides or reveals. *)
Definition hide (x : element) : element := set_display (lit "none") x.
Definition reveal (x : element) : element :=
  set_classes (el_classes x ∪ {[visible]}) x.

(** The document as a successful submission leaves it: the field
    containers [fs] and the submit control [s] hidden, the success
    element [m] revealed. *)
Definition submitted_doc (d : list element) (fs : list nat) (s m : nat)
  : list element :=
  alter reveal m (alter hide s (foldl (fun d i => alter hide i d) d fs)).

Definition display_of (d : list element) (i : nat) : option jsstr :=
  el_display <$> d !! i.

(** ** Relating the page before and after a computation *)

(** The documents agree in length and, position by position, are related
    by [Re]. *)
Definition doc_rel (Re : nat -> element -> element -> Prop)
    (d d' : list element) : Prop :=
  length d' = length d /\
  forall n x y, d !! n = Some x -> d' !! n = Some y -> Re n x y.

(** The later world has the same listeners, more console output and
    other effects, and a document related by [Re]. *)
Definition evolves (Re : nat -> element -> element -> Prop)
    (w w' : world) : Prop :=
  doc_rel Re (w_doc w) (w_doc w') /\
  w_listeners w' = w_listeners w /\
  exists rest, w_effects w' = w_effects w ++ rest.

(** Whatever the computation returns or throws, it takes a world to a
    related one. *)
Definition stable {A} (R : world -> world -> Prop) (m : M A) : Prop :=
  forall w, R w (m w).2.

(** Nesting and identifiers stay. *)
Definition same_skeleton (x y : element) : Prop :=
  el_depth y = el_depth x /\ el_id y = el_id x.

(** ... and so do all classes but the error style. *)
Definition keeps_classes (n : nat) (x y : element) : Prop :=
  same_skeleton x y /\
  (forall c, c <> input_error -> c ∈ el_classes y <-> c ∈ el_classes x).

(** ... and so do all classes but the error style and [visible], and a
    revealed element stays revealed. *)
Definition keeps_visible (n : nat) (x y : element) : Prop :=
  same_skeleton x y /\
  (forall c, c <> input_error -> c <> visible ->
     c ∈ el_classes y <-> c ∈ el_classes x) /\
  (visible ∈ el_classes x -> visible ∈ el_classes y).

(** A step of the page: as [keeps_visible], and the attributes of an
    element that is not one of the controls [fp] stay. *)
Definition page_step (fp : list nat) (n : nat) (x y : element) : Prop :=
  keeps_visible n x y /\ (n ∉ fp -> el_attrs y = el_attrs x).

(** The stored values stay. *)
Definition same_value (n : nat) (x y : element) : Prop :=
  el_value y = el_value x.

(** Everything stays but [style.display]. *)
Definition only_display (n : nat) (x y : element) : Prop :=
  el_depth y = el_depth x /\ el_id y = el_id x /\
  el_classes y = el_classes x /\ el_attrs y = el_attrs x /\
  el_value y = el_value x /\ el_text y = el_text x.

(** The record of the five values a successful submission logs. *)
Definition submitted_data (d : list element) : list (jsstr * jsstr) :=
  [ (lit "email", trim (value_of d (emailField (env_of d))));
    (lit "name", trim (value_of d (nameField (env_of d))));
    (lit "role", trim (value_of d (roleField (env_of d))));
    (lit "experience", value_of d (experienceField (env_of d)));
    (lit "goal", value_of d (goalField (env_of d))) ].

(** ** The markup the script is loaded on *)

Definition field_refs (d : list element) : list ref := field <$> bindings d.
Definition error_refs (d : list element) : list ref := error <$> bindings d.

(** The positions of the five controls, in declaration order. *)
Definition field_positions (d : list element) : list nat :=
  omap id (field_refs d).

Definition invalid_sel : selector := SelAttrEq aria_invalid (lit "true").

(** Modelled from the spec: the page markup (the HTML document) is not
    part of the sources.  Section 6 has the engine consume a document with
    a form container, per field a control and an error-text element, each
    reachable by its identifier, a success-message container and a
    submit control; section 4.1 speaks of the fields in declaration
    order.  [markup_ok d] says that [d] is such a document: the form, the
    five controls, the five error elements and the success element are
    found; the controls lie inside the form, in declaration order, and
    nothing else inside the form carries the invalid flag; the form
    contains a submit control. *)
Definition markup_ok (d : list element) : bool :=
  match form (env_of d) with
  | Some f =>
      forallb (fun r : ref => bool_decide (is_Some r)) (field_refs d) &&
      forallb (fun r : ref => bool_decide (is_Some r)) (error_refs d) &&
      bool_decide (is_Some (successMessage (env_of d))) &&
      bool_decide (List.filter (fun i => bool_decide (i ∈ field_positions d))
                     (descendants d f) = field_positions d) &&
      forallb (fun i => implb (matches_at d invalid_sel i)
                          (bool_decide (i ∈ field_positions d)))
        (descendants d f) &&
      bool_decide (is_Some (head (select_all d f (SelClass (lit "form__submit")))))
  | None => false
  end.

(** Modelled from the spec: the elements section 6 names exist in [d]
    (the form, per field a control and an error-text element reachable
    by its identifier, the success-message container, a submit control
    in the form), with no condition on where in the document the
    controls lie. *)
Definition elements_present (d : list element) : bool :=
  match form (env_of d) with
  | Some f =>
      forallb (fun r : ref => bool_decide (is_Some r)) (field_refs d) &&
      forallb (fun r : ref => bool_decide (is_Some r)) (error_refs d) &&
      bool_decide (is_Some (successMessage (env_of d))) &&
      bool_decide (is_Some (head (select_all d f (SelClass (lit "form__submit")))))
  | None => false
  end.

(** The identifier of the element a reference points to. *)
Definition id_of (d : list element) (r : ref) : option jsstr :=
  n ← r; e ← d !! n; el_id e.

(** The first control marked invalid, in declaration order. *)
Definition first_invalid_field (d : list element) : ref :=
  head (List.filter (matches_at d invalid_sel) (field_positions d)).

(** The focus rule in the words of the specification: when
    [validateForm] returns false, the handler moves the focus to the first
    field marked invalid, in field declaration order. *)
Definition focus_law_as_stated : Prop :=
  forall w,
    elements_present (w_doc w) = true ->
    let e := env_of (w_doc w) in
    let v := validateForm e (preventDefault w).2 in
    v.1 = Ret false ->
    exists n,
      first_invalid_field (w_doc v.2) = Some n /\
      w_effects (handleFormSubmit e w).2 =
        w_effects w ++ [PreventDefault; Focus n].

(** ** Typing into a field *)

(** An action that neither blurs control [n] nor submits a form. *)
Definition leaves_alone (n : nat) (a : action) : bool :=
  match a with
  | UserTypes _ _ => true
  | UserLeaves k => negb (k =? n)%nat
  | UserSubmits _ => false
  end.

(** The page still has the script's listeners and as many elements as
    [d], it shows for [b] what [d] showed, and [validateField] was never
    entered for [b]. *)
Definition untouched (d : list element) (b : binding) (w : world) : Prop :=
  installed d (w_listeners w) /\ length (w_doc w) = length d /\
  ui_of (w_doc w) b = ui_of d b /\ field b ∉ w_calls w.

(** The suppression law in the words of the specification: once a field
    has been marked invalid, every later keystroke in it re-validates it
    (enters [validateField] for it). *)
Definition suppression_law_as_stated : Prop :=
  forall d acts1 acts2 b n v,
    markup_ok d = true -> b ∈ bindings d -> field b = Some n ->
    marked_invalid (w_doc (run acts1 (page_loaded d))) (field b) = true ->
    let w := run (acts1 ++ acts2) (page_loaded d) in
    w_calls (perform (UserTypes n v) w).2 = w_calls w ++ [field b].

(** ** A sample page *)

Definition node (depth : nat) (id : option jsstr) (classes : list jsstr)
    (v : jsstr) : element :=
  Element depth id (list_to_set classes) ∅ v [] [].

Definition field_group (name : string) (v : jsstr) : list element :=
  [ node 1 None [lit "form__field"] [];
    node 2 (Some (lit name)) [lit "form__input"] v;
    node 2 (Some (lit name ++ lit "-error")) [lit "form__error"] [] ].

(** A waitlist form holding the given five values. *)
Definition sample_page (vemail vname vrole vexperience vgoal : jsstr)
  : list element :=
  [ node 0 (Some (lit "waitlist-form")) [lit "form"] [] ] ++
  field_group "email" vemail ++
  field_group "name" vname ++
  field_group "role" vrole ++
  field_group "experience" vexperience ++
  field_group "goal" vgoal ++
  [ node 1 None [lit "form__submit"] [];
    node 1 (Some (lit "form-success")) [lit "form__success"] [] ].

Definition blank_page : list element := sample_page [] [] [] [] [].

(** The blank form with the name field laid out before the email field. *)
Definition swapped_page : list element :=
  [ node 0 (Some (lit "waitlist-form")) [lit "form"] [] ] ++
  field_group "name" [] ++
  field_group "email" [] ++
  field_group "role" [] ++
  field_group "experience" [] ++
  field_group "goal" [] ++
  [ node 1 None [lit "form__submit"] [];
    node 1 (Some (lit "form-success")) [lit "form__success"] [] ].

Definition filled_page : list element :=
  sample_page (lit "a@b.co") (lit "Ada Lovelace") (lit "Engineer")
    (lit "3-5") (lit "growth").

(** The sample page without its email control. *)
Definition page_without_email : list element :=
  List.filter (fun e => negb (bool_decide (el_id e = Some (lit "email"))))
    blank_page.

(** The sample page without its email error element. *)
Definition page_without_email_error : list element :=
  List.filter
    (fun e => negb (bool_decide (el_id e = Some (lit "email-error"))))
    blank_page.

(** ** More of the validation engine *)

(** The text [validateField] falls back on when the rule table gives no
    message (or an empty one) for a rule: the right operands of its
    three [||]. *)
Definition default_message (r : Rules) (k : rule_kind) : jsstr :=
  match k with
  | RequiredRule => lit "This field is required"
  | MinLengthRule =>
      lit "Minimum " ++ number_to_string (default 0%Z (minLength r)) ++
      lit " characters required"
  | EmailRule => lit "Please enter a valid email address"
  end.

(** The listeners [setupRealTimeValidation] registers for the bindings
    [bs], in registration order. *)
Definition wired (bs : list binding) : list (nat * evtype * handler) :=
  flat_map (fun b =>
    match field b with
    | Some n => [(n, Blur, OnBlur b); (n, Input, OnInput b)]
    | None => []
    end) bs.

(** White space only. *)
Definition blank (s : jsstr) : Prop := Forall (fun c => is_space c = true) s.

(** ** What the script leaves alone *)

(** The positions of the five error elements, in declaration order. *)
Definition error_positions (d : list element) : list nat :=
  omap id (error_refs d).

(** The controls the user typed into. *)
Definition typed_positions (acts : list action) : list nat :=
  omap (fun a => match a with UserTypes n _ => Some n | _ => None end) acts.

(** What the page may have changed of the element [x] at position [n] of
    document [d], giving [y], while the user typed into the controls
    [typed]: never the nesting or the identifier; of the classes only
    the error style (of a control) and [visible] (added to the success
    element); of the attributes only the invalid flag of a control; the
    text only of an error element; the value only of a control the user
    typed into; [style.display] only by setting it to "none". *)
Definition script_step (d : list element) (typed : list nat)
    (n : nat) (x y : element) : Prop :=
  same_skeleton x y /\
  (forall c, c <> input_error -> c <> visible ->
     c ∈ el_classes y <-> c ∈ el_classes x) /\
  (visible ∈ el_classes x -> visible ∈ el_classes y) /\
  (Some n <> successMessage (env_of d) ->
     visible ∈ el_classes y <-> visible ∈ el_classes x) /\
  (forall a, a <> aria_invalid -> el_attrs y !! a = el_attrs x !! a) /\
  (n ∉ field_positions d ->
     el_attrs y = el_attrs x /\
     (input_error ∈ el_classes y <-> input_error ∈ el_classes x)) /\
  (n ∉ error_positions d -> el_text y = el_text x) /\
  (n ∉ typed -> el_value y = el_value x) /\
  (el_display y = el_display x \/ el_display y = lit "none").

(** The field has been validated at least once: [validateField] was
    entered for its control. *)
Definition validated_once (w : world) (b : binding) : Prop :=
  field b ∈ w_calls w.

(** * The rest of the page script (src/scripts/main.js)

    The other self-running functions of the script: external links,
    scroll animations, the mobile menu toggle with its Escape key, and
    the header that hides on scrolling down. *)

(** [ToBoolean] on what [getAttribute] returns: [null] and the empty
    string are falsy. *)
Definition attr_truthy (a : option jsstr) : bool :=
  match a with Some s => truthy s | None => false end.

(** ASCII lower case. *)
Definition ascii_lower (c : N) : N :=
  if (65 <=? c) && (c <=? 90) then c + 32 else c.

(** An attribute selector [[a="v"]] on an attribute whose values an HTML
    document compares without regard to ASCII case; [target] is one of
    them ([aria-invalid], which [sel_matches] compares exactly, is not). *)
Definition attr_matches_ci (a v : jsstr) (e : element) : bool :=
  match el_attrs e !! a with
  | Some x => bool_decide (ascii_lower <$> x = ascii_lower <$> v)
  | None => false
  end.

(** [document.querySelectorAll] for a type selector with an optional
    attribute selector of that kind ([a[target="_blank"]], [section]):
    the matching elements in document order.  The element record does
    not hold tag names; [tagName i] is the local name of the element at
    position [i]. *)
Definition select_tag (tagName : nat -> jsstr) (d : list element)
    (tag : jsstr) (attr : option (jsstr * jsstr)) : list nat :=
  List.filter
    (fun i => bool_decide (tagName i = tag) &&
              match attr, d !! i with
              | Some (a, v), Some e => attr_matches_ci a v e
              | Some _, None => false
              | None, _ => true
              end)
    (seq 0 (length d)).

Definition document_querySelectorAll (tagName : nat -> jsstr)
    (tag : jsstr) (attr : option (jsstr * jsstr)) : M (list nat) :=
  fun w => (Ret (select_tag tagName (w_doc w) tag attr), w).

(** ** External links *)

Definition initExternalLinks (tagName : nat -> jsstr) : M unit :=
  externalLinks ← document_querySelectorAll tagName (lit "a")
                    (Some (lit "target", lit "_blank"));
  forEach externalLinks (fun link =>
    r ← getAttribute (Some link) (lit "rel");
    if negb (attr_truthy r)
    then setAttribute (Some link) (lit "rel") (lit "noopener noreferrer")
    else mret ());;
  console_log
    (lit "External link handling initialized for " ++
     number_to_string (Z.of_nat (length externalLinks)) ++ lit " links") [].

(** The links [initExternalLinks] looks at. *)
Definition external_links (tagName : nat -> jsstr) (d : list element)
  : list nat :=
  select_tag tagName d (lit "a") (Some (lit "target", lit "_blank")).

(** A link as [initExternalLinks] leaves it. *)
Definition secured (e : element) : element :=
  if attr_truthy (el_attrs e !! lit "rel") then e
  else set_attr (lit "rel") (lit "noopener noreferrer") e.

(** ** Scroll animations *)

(** The callback of the intersection observer; an entry is its target
    and its [isIntersecting]. *)
Definition onIntersect (entries : list (nat * bool)) : M unit :=
  forEach entries (fun entry =>
    if entry.2
    then classList_add (Some entry.1) (lit "section--visible")
    else mret ()).

(** [supported] is ['IntersectionObserver' in window].  The function
    returns the targets it has the observer observe. *)
Definition initScrollAnimations (tagName : nat -> jsstr) (supported : bool)
  : M (list nat) :=
  if negb supported then
    console_warn (lit "Intersection Observer not supported");; mret []
  else
    sections ← document_querySelectorAll tagName (lit "section") None;
    console_log
      (lit "Scroll animations initialized for " ++
       number_to_string (Z.of_nat (length sections)) ++ lit " sections") [];;
    mret sections.

(** The observer calls back any number of times, each time with a batch
    of entries. *)
Definition deliver (batches : list (list (nat * bool))) (w : world) : world :=
  foldl (fun w entries => (attempt (onIntersect entries) w).2) w batches.

(** The targets of the entries that report an intersection. *)
Definition hits (entries : list (nat * bool)) : list nat :=
  fst <$> List.filter snd entries.

(** A section once it has been seen. *)
Definition seen (e : element) : element :=
  set_classes (el_classes e ∪ {[lit "section--visible"]}) e.

(** ** The mobile menu toggle and the Escape key *)

(** The click listener of the toggle; [this] is the toggle. *)
Definition onMenuToggleClick (this : ref) : M unit :=
  a ← getAttribute this (lit "aria-expanded");
  let isExpanded := bool_decide (a = Some (lit "true")) in
  setAttribute this (lit "aria-expanded")
    (if negb isExpanded then lit "true" else lit "false");;
  console_log (lit "Mobile menu toggle clicked") [].

(** Returns the element it registered the click listener on, if any. *)
Definition initMobileMenu : M ref :=
  menuToggle ← getElementById (lit "mobile-menu-toggle");
  match menuToggle with
  | None => mret None
  | Some n =>
      console_log (lit "Mobile menu toggle initialized") [];;
      mret (Some n)
  end.

(** The keydown listener of the document; [key] is [e.key]. *)
Definition onKeydown (key : jsstr) : M unit :=
  if bool_decide (key = lit "Escape") then
    menuToggle ← getElementById (lit "mobile-menu-toggle");
    match menuToggle with
    | Some n =>
        a ← getAttribute (Some n) (lit "aria-expanded");
        if bool_decide (a = Some (lit "true")) then
          setAttribute (Some n) (lit "aria-expanded") (lit "false");;
          focus (Some n)
        else mret ()
    | None => mret ()
    end
  else mret ().

Definition initKeyboardNavigation : M unit :=
  console_log (lit "Keyboard navigation initialized") [].

(** What the user does to the menu. *)
Inductive menu_action :=
| ClickToggle               (* clicks the toggle *)
| PressKey (key : jsstr).   (* presses a key anywhere in the document *)

(** [toggle] is what [initMobileMenu] returned: without a toggle there
    is no click listener (and nothing to click). *)
Definition menu_perform (toggle : ref) (a : menu_action) : M unit :=
  match a with
  | ClickToggle =>
      match toggle with
      | Some n => attempt (onMenuToggleClick (Some n))
      | None => mret ()
      end
  | PressKey key => attempt (onKeydown key)
  end.

Fixpoint menu_run (toggle : ref) (acts : list menu_action) (w : world)
  : world :=
  match acts with
  | [] => w
  | a :: acts' => menu_run toggle acts' (menu_perform toggle a w).2
  end.

(** The page with the menu scripts run on document [d]. *)
Definition menu_loaded (d : list element) : ref * world :=
  match initMobileMenu (fresh d) with
  | (Ret toggle, w) => (toggle, (initKeyboardNavigation w).2)
  | (Throw, w) => (None, (initKeyboardNavigation w).2)
  end.

(** Whether the toggle says the menu is expanded. *)
Definition expanded (d : list element) : bool :=
  bool_decide
    ((n ← by_id d (lit "mobile-menu-toggle"); e ← d !! n;
      el_attrs e !! lit "aria-expanded") = Some (lit "true")).

(** The menu as a machine with one bit of state: what an action does to
    the bit, and what it emits (on toggle [n]). *)
Definition menu_next (s : bool) (a : menu_action) : bool :=
  match a with
  | ClickToggle => negb s
  | PressKey key => if bool_decide (key = lit "Escape") then false else s
  end.

Definition menu_output (n : nat) (s : bool) (a : menu_action) : list effect :=
  match a with
  | ClickToggle => [Log (lit "Mobile menu toggle clicked") []]
  | PressKey key =>
      if bool_decide (key = lit "Escape") && s then [Focus n] else []
  end.

Fixpoint menu_trace (n : nat) (s : bool) (acts : list menu_action)
  : list effect :=
  match acts with
  | [] => []
  | a :: acts' => menu_output n s a ++ menu_trace n (menu_next s a) acts'
  end.

(** What the menu scripts may have changed of the element [x] at
    position [k], giving [y]: of the toggle [n] the attribute
    [aria-expanded], set to "true" or "false"; of any other element
    nothing. *)
Definition menu_step (n k : nat) (x y : element) : Prop :=
  (k <> n -> y = x) /\
  (y = x \/ y = set_attr (lit "aria-expanded") (lit "true") x \/
   y = set_attr (lit "aria-expanded") (lit "false") x).

(** ** The header that hides on scrolling down *)

(** A scroll position is a number that need not be an integer; the
    function only compares positions, with one another and with 100 and
    200, and the rationals have every finite such number. *)
Definition Qgtb (x y : Q) : bool := negb (Qle_bool x y).   (* x > y *)
Definition Qltb (x y : Q) : bool := negb (Qle_bool y x).   (* x < y *)

(** The part of [window] the function uses: the scroll position, and how
    many calls of [updateHeaderVisibility] [requestAnimationFrame] has
    queued for the next frame. *)
Record window := { scrollY : Q; frames : nat }.

(** The variables of [initHeaderScrollBehavior] its two functions close
    over. *)
Record scroller := { header : ref; lastScrollY : Q; ticking : bool }.

Definition updateHeaderVisibility (win : window) (s : scroller) : M scroller :=
  let currentScrollY := scrollY win in
  (if Qle_bool currentScrollY 100 then
     classList_remove (header s) (lit "header--hidden")
   else if Qgtb currentScrollY (lastScrollY s) && Qgtb currentScrollY 200 then
     classList_add (header s) (lit "header--hidden")
   else if Qltb currentScrollY (lastScrollY s) then
     classList_remove (header s) (lit "header--hidden")
   else mret ());;
  mret {| header := header s; lastScrollY := currentScrollY;
          ticking := false |}.

Definition onScroll (win : window) (s : scroller) : window * scroller :=
  if negb (ticking s) then
    ({| scrollY := scrollY win; frames := S (frames win) |},
     {| header := header s; lastScrollY := lastScrollY s; ticking := true |})
  else (win, s).

(** Returns the closure of the scroll listener it registered, if any. *)
Definition initHeaderScrollBehavior (win : window) : M (option scroller) :=
  header ← getElementById (lit "header");
  match header with
  | None => console_warn (lit "Header element not found");; mret None
  | Some n =>
      console_log (lit "Header scroll behavior initialized") [];;
      mret (Some {| header := Some n; lastScrollY := scrollY win;
                    ticking := false |})
  end.

(** The page as far as the header is concerned. *)
Record scroll_page := {
  sp_world : world;
  sp_window : window;
  sp_scroller : option scroller
}.

Inductive scroll_action :=
| ScrollTo (y : Q)   (* the page is scrolled to [y]: a scroll event *)
| Frame.             (* the browser runs the queued frame callbacks *)

(** One queued call of [updateHeaderVisibility]; had it thrown, its
    assignments to the closure variables would not have happened. *)
Definition update_once (win : window) (p : world * scroller)
  : world * scroller :=
  match updateHeaderVisibility win p.2 p.1 with
  | (Ret s', w') => (w', s')
  | (Throw, w') => (w', p.2)
  end.

Definition scroll_perform (a : scroll_action) (p : scroll_page) : scroll_page :=
  match a with
  | ScrollTo y =>
      let win := {| scrollY := y; frames := frames (sp_window p) |} in
      match sp_scroller p with
      | Some s =>
          let r := onScroll win s in
          {| sp_world := sp_world p; sp_window := r.1;
             sp_scroller := Some r.2 |}
      | None =>
          {| sp_world := sp_world p; sp_window := win; sp_scroller := None |}
      end
  | Frame =>
      (* the callbacks are taken off the queue, then run *)
      let win := {| scrollY := scrollY (sp_window p); frames := 0 |} in
      match sp_scroller p with
      | Some s =>
          let r := Nat.iter (frames (sp_window p)) (update_once win)
                     (sp_world p, s) in
          {| sp_world := r.1; sp_window := win; sp_scroller := Some r.2 |}
      | None =>
          {| sp_world := sp_world p; sp_window := win; sp_scroller := None |}
      end
  end.

Definition scroll_run (acts : list scroll_action) (p : scroll_page)
  : scroll_page :=
  foldl (fun p a => scroll_perform a p) p acts.

(** The page once the function has run on document [d] scrolled to [y]. *)
Definition scroll_loaded (d : list element) (y : Q) : scroll_page :=
  let win := {| scrollY := y; frames := 0 |} in
  match initHeaderScrollBehavior win (fresh d) with
  | (Ret s, w) => {| sp_world := w; sp_window := win; sp_scroller := s |}
  | (Throw, w) => {| sp_world := w; sp_window := win; sp_scroller := None |}
  end.

(** Whether the header is hidden. *)
Definition header_hidden (d : list element) : bool :=
  match n ← by_id d (lit "header"); d !! n with
  | Some e => bool_decide (lit "header--hidden" ∈ el_classes e)
  | None => false
  end.

(** What scrolling may have changed of the element [x] at position [k],
    giving [y]: of the header [n] the class "header--hidden"; of any
    other element nothing. *)
Definition scroll_step (n k : nat) (x y : element) : Prop :=
  (k <> n -> y = x) /\
  exists cs, y = set_classes cs x /\
    forall c, c <> lit "header--hidden" -> c ∈ cs <-> c ∈ el_classes x.

(** Whether the header is hidden after [updateHeaderVisibility] has run
    at position [current], the last processed position being [last]. *)
Definition hidden_after (current last : Q) (hidden : bool) : bool :=
  if Qle_bool current 100 then false
  else if Qgtb current last && Qgtb current 200 then true
  else if Qltb current last then false
  else hidden.

(** The header as [updateHeaderVisibility] leaves it. *)
Definition restyled (current last : Q) (e : element) : element :=
  if Qle_bool current 100 then
    set_classes (el_classes e ∖ {[lit "header--hidden"]}) e
  else if Qgtb current last && Qgtb current 200 then
    set_classes (el_classes e ∪ {[lit "header--hidden"]}) e
  else if Qltb current last then
    set_classes (el_classes e ∖ {[lit "header--hidden"]}) e
  else e.

(** What holds of the page at any time: the header is where it was, the
    closure holds it, at most one update is queued and one is queued
    exactly while [ticking], and when none is queued the last processed
    position is the current one. *)
Definition scroll_inv (n : nat) (d : list element) (p : scroll_page) : Prop :=
  exists s,
    sp_scroller p = Some s /\ header s = Some n /\
    by_id (w_doc (sp_world p)) (lit "header") = Some n /\
    frames (sp_window p) = (if ticking s then 1 else 0)%nat /\
    (ticking s = false -> lastScrollY s = scrollY (sp_window p)) /\
    doc_rel (scroll_step n) d (w_doc (sp_world p)).
(** * Properties *)

Section Regex.

Lemma Matches_seq_inv r1 r2 s :
  Matches (RSeq r1 r2) s ->
  exists s1 s2, s = s1 ++ s2 /\ Matches r1 s1 /\ Matches r2 s2.
Proof. inversion 1; subst; eauto. Qed.

Lemma Matches_alt_inv r1 r2 s :
  Matches (RAlt r1 r2) s -> Matches r1 s \/ Matches r2 s.
Proof. inversion 1; subst; auto. Qed.

Lemma Matches_class_inv p s :
  Matches (RClass p) s -> exists c, s = [c] /\ p c = true.
Proof. inversion 1; subst; eauto. Qed.

Lemma Matches_eps_inv s : Matches REps s -> s = [].
Proof. by inversion 1. Qed.

Lemma nullable_spec r : nullable r = true <-> Matches r [].
Proof.
  induction r as [| |p|r1 IH1 r2 IH2|r1 IH1 r2 IH2|r IH]; simpl.
  - split; [discriminate | inversion 1].
  - split; [constructor | reflexivity].
  - split; [discriminate | inversion 1].
  - rewrite andb_true_iff, IH1, IH2. split.
    + intros [H1 H2]. by apply (MSeq _ _ [] []).
    + intros (s1 & s2 & E & H1 & H2)%Matches_seq_inv.
      symmetry in E. apply app_eq_nil in E as [-> ->]. done.
  - rewrite orb_true_iff, IH1, IH2. split.
    + intros [H|H]; [by apply MAltL | by apply MAltR].
    + apply Matches_alt_inv.
  - split; [constructor | reflexivity].
Qed.

(** A non-empty match of a starred pattern starts with a non-empty
    match of its body. *)
Lemma star_cons_inv r c s :
  Matches (RStar r) (c :: s) ->
  exists s1 s2, s = s1 ++ s2 /\ Matches r (c :: s1) /\ Matches (RStar r) s2.
Proof.
  intros H. remember (RStar r) as r' eqn:Er. remember (c :: s) as t eqn:Et.
  revert c s Et. induction H as [| | | | | |r0 s1 s2 H1 _ H2 IH2];
    intros a u Et; try discriminate.
  injection Er as ->. destruct s1 as [|c1 s1]; simpl in Et.
  - by apply IH2.
  - injection Et as <- <-. by exists s1, s2.
Qed.

Lemma deriv_seq_sound c r1 r2 s :
  (forall t, Matches (deriv c r1) t -> Matches r1 (c :: t)) ->
  Matches (RSeq (deriv c r1) r2) s -> Matches (RSeq r1 r2) (c :: s).
Proof.
  intros IH (s1 & s2 & -> & H1 & H2)%Matches_seq_inv.
  by apply (MSeq _ _ (c :: s1) s2); [apply IH |].
Qed.

Lemma seq_cons_inv c r1 r2 s :
  Matches (RSeq r1 r2) (c :: s) ->
  (exists s1 s2, s = s1 ++ s2 /\ Matches r1 (c :: s1) /\ Matches r2 s2) \/
  (Matches r1 [] /\ Matches r2 (c :: s)).
Proof.
  intros (s1 & s2 & E & H1 & H2)%Matches_seq_inv.
  destruct s1 as [|c1 s1]; simpl in E.
  - right. by subst s2.
  - injection E as -> ->. left. by exists s1, s2.
Qed.

Lemma deriv_spec c r s : Matches (deriv c r) s <-> Matches r (c :: s).
Proof.
  revert s. induction r as [| |p|r1 IH1 r2 IH2|r1 IH1 r2 IH2|r IH];
    intros s; simpl.
  - split; inversion 1.
  - split; inversion 1.
  - destruct (p c) eqn:Hp; split.
    + intros ->%Matches_eps_inv. by constructor.
    + intros (c' & [= -> ->] & _)%Matches_class_inv. constructor.
    + inversion 1.
    + intros (c' & [= -> ->] & Hc)%Matches_class_inv. congruence.
  - assert (Hseq := deriv_seq_sound c r1 r2 s (fun t => proj1 (IH1 t))).
    assert (Hinv : Matches (RSeq r1 r2) (c :: s) ->
                   Matches (RSeq (deriv c r1) r2) s \/
                   (Matches r1 [] /\ Matches (deriv c r2) s)).
    { intros [(s1 & s2 & -> & H1 & H2)|[H1 H2]]%seq_cons_inv.
      - left. constructor; [by apply IH1 | done].
      - right. split; [done | by apply IH2]. }
    destruct (nullable r1) eqn:Hn; split.
    + intros [H|H]%Matches_alt_inv; [by apply Hseq |].
      apply nullable_spec in Hn. apply (MSeq _ _ [] (c :: s)); [done |].
      by apply IH2.
    + intros H. destruct (Hinv H) as [H'|[_ H']];
        [by apply MAltL | by apply MAltR].
    + apply Hseq.
    + intros H. destruct (Hinv H) as [H'|[H' _]]; [done |].
      apply nullable_spec in H'. congruence.
  - split.
    + intros [H|H]%Matches_alt_inv;
        [apply MAltL; by apply IH1 | apply MAltR; by apply IH2].
    + intros [H|H]%Matches_alt_inv;
        [apply MAltL; by apply IH1 | apply MAltR; by apply IH2].
  - split.
    + intros (s1 & s2 & -> & H1 & H2)%Matches_seq_inv.
      apply IH in H1. by apply (MStarApp _ (c :: s1) s2).
    + intros H. apply star_cons_inv in H as (s1 & s2 & -> & H1 & H2).
      constructor; [by apply IH | done].
Qed.

Lemma regex_test_spec r s : regex_test r s = true <-> Matches r s.
Proof.
  revert r. induction s as [|c s IH]; intros r; simpl.
  - apply nullable_spec.
  - rewrite IH. apply deriv_spec.
Qed.

End Regex.

Section EmailFormat.

Lemma Matches_star_class p s :
  Matches (RStar (RClass p)) s <-> Forall (fun c => p c = true) s.
Proof.
  split.
  - intros H. remember (RStar (RClass p)) as r eqn:Er.
    induction H as [| | | | | |r0 s1 s2 H1 _ H2 IH2]; try discriminate.
    + constructor.
    + injection Er as ->.
      apply Matches_class_inv in H1 as (c & -> & Hc).
      constructor; [done | by apply IH2].
  - induction 1 as [|c s Hc _ IH]; [constructor |].
    apply (MStarApp _ [c] s); [by constructor | done].
Qed.

Lemma Matches_plus_class p s :
  Matches (RPlus (RClass p)) s <->
  s <> [] /\ Forall (fun c => p c = true) s.
Proof.
  unfold RPlus. split.
  - intros (s1 & s2 & -> & H1 & H2)%Matches_seq_inv.
    apply Matches_class_inv in H1 as (c & -> & Hc).
    apply Matches_star_class in H2. split; [done | by constructor].
  - intros [Hne H]. destruct H as [|c s Hc H]; [done |].
    apply (MSeq _ _ [c] s); [by constructor | by apply Matches_star_class].
Qed.

Lemma Matches_char c s : Matches (RChar c) s <-> s = [c].
Proof.
  unfold RChar. split.
  - intros (c' & -> & Hc)%Matches_class_inv.
    apply N.eqb_eq in Hc. by subst.
  - intros ->. constructor. apply N.eqb_refl.
Qed.

Lemma not_space_at_spec c :
  not_space_at c = true <-> is_space c = false /\ c <> code_at.
Proof.
  unfold not_space_at. rewrite negb_true_iff, orb_false_iff.
  rewrite N.eqb_neq. tauto.
Qed.

Lemma plain_run_spec s :
  Matches (RPlus (RClass not_space_at)) s <-> plain_run s.
Proof.
  rewrite Matches_plus_class. unfold plain_run.
  split; intros [Hne H]; (split; [done |]);
    eapply Forall_impl; eauto; intros c Hc; by apply not_space_at_spec.
Qed.

Lemma emailRegex_spec s : Matches emailRegex s <-> email_shape s.
Proof.
  unfold emailRegex, email_shape. split.
  - intros (a & s1 & -> & Ha & H1)%Matches_seq_inv.
    apply Matches_seq_inv in H1 as (x & s2 & -> & Hx & H2).
    apply Matches_seq_inv in H2 as (b & s3 & -> & Hb & H3).
    apply Matches_seq_inv in H3 as (y & c & -> & Hy & Hc).
    apply Matches_char in Hx as ->. apply Matches_char in Hy as ->.
    exists a, b, c. by rewrite <- !plain_run_spec.
  - intros (a & b & c & -> & Ha & Hb & Hc).
    apply plain_run_spec in Ha, Hb, Hc.
    constructor; [done |].
    apply (MSeq _ _ [code_at]); [by apply Matches_char |].
    constructor; [done |].
    apply (MSeq _ _ [code_dot]); [by apply Matches_char | done].
Qed.

End EmailFormat.

(** ** Running the monad *)

Ltac munfold :=
  unfold mbind, M_bind, mret, M_ret, throw in *.

Lemma bind_run {A B} (m : M A) (k : A -> M B) (w : world) :
  (m ≫= k) w =
    match m w with
    | (Ret a, w') => k a w'
    | (Throw, w') => (Throw, w')
    end.
Proof. reflexivity. Qed.

Section Strings.

Lemma truthy_false s : truthy s = false <-> s = [].
Proof. destruct s; simpl; split; congruence. Qed.

Lemma truthy_true s : truthy s = true <-> s <> [].
Proof. destruct s; simpl; split; congruence. Qed.

Lemma or_default_configured m : m <> [] -> forall b, or_default (Some m) b = m.
Proof. intros Hm b. simpl. by apply truthy_true in Hm as ->. Qed.

Lemma trimStart_spaces s :
  Forall (fun c => is_space c = true) s -> trimStart s = [].
Proof. induction 1 as [|c s Hc _ IH]; simpl; [done | by rewrite Hc]. Qed.

Lemma trim_spaces s : Forall (fun c => is_space c = true) s -> trim s = [].
Proof. intros H. unfold trim, trimEnd. by rewrite (trimStart_spaces s H). Qed.

End Strings.

(** ** One validation *)

Section ValidateField.

Lemma mark_twice b e : mark b (mark b e) = mark b e.
Proof.
  destruct e as [dp i cs at_ v t ds].
  destruct b; unfold mark, set_classes, set_attr; simpl; f_equal;
    try apply insert_insert_eq; clear; set_solver.
Qed.

Lemma validateField_run f e r w ef :
  w_doc w !! f = Some ef -> (e < length (w_doc w))%nat ->
  validateField (Some f) (Some e) r w =
    (Ret (negb (truthy (errorMessage_of r (trim (el_value ef))))),
     World (shown (errorMessage_of r (trim (el_value ef))) f e (w_doc w))
       (w_effects w) (w_calls w ++ [Some f]) (w_listeners w)).
Proof.
  intros Hf He. unfold validateField, shown.
  set (msg := errorMessage_of r (trim (el_value ef))).
  unfold entered, get_value, deref, setAttribute, classList_add,
    classList_remove, set_textContent, update. munfold. simpl.
  rewrite Hf. simpl. fold msg.
  assert (Hlen : forall g h,
    is_Some (alter g f (alter h f (w_doc w)) !! e)).
  { intros g h. apply lookup_lt_is_Some. by rewrite !length_alter. }
  destruct (truthy msg) eqn:Ht; simpl; rewrite Hf; simpl;
    rewrite list_lookup_alter_eq, Hf; simpl;
    destruct (Hlen (fun e0 => set_classes (el_classes e0 ∪ {[input_error]}) e0)
                (set_attr aria_invalid (lit "true"))) as [x1 Hx1];
    destruct (Hlen (fun e0 => set_classes (el_classes e0 ∖ {[input_error]}) e0)
                (set_attr aria_invalid (lit "false"))) as [x2 Hx2].
  - rewrite Hx1. unfold with_doc. simpl. do 3 f_equal.
    by rewrite list_alter_alter_eq.
  - rewrite Hx2. unfold with_doc. simpl.
    apply truthy_false in Ht. rewrite Ht. do 3 f_equal.
    by rewrite list_alter_alter_eq.
Qed.

End ValidateField.

Section ValidationResult.

Lemma resolved_inv d b :
  resolved d b = true ->
  exists f e ef ee,
    field b = Some f /\ error b = Some e /\
    d !! f = Some ef /\ d !! e = Some ee.
Proof.
  unfold resolved. rewrite andb_true_iff, !bool_decide_eq_true.
  intros [[ef Hf] [ee He]].
  destruct (field b) as [f|]; [|done]. destruct (error b) as [e|]; [|done].
  simpl in Hf, He. by exists f, e, ef, ee.
Qed.

Lemma validateField_resolved w b :
  resolved (w_doc w) b = true ->
  exists f e,
    field b = Some f /\ error b = Some e /\
    (f < length (w_doc w))%nat /\ (e < length (w_doc w))%nat /\
    validateField (field b) (error b) (rules b) w =
      (Ret (negb (truthy (message_now (w_doc w) b))),
       World (shown (message_now (w_doc w) b) f e (w_doc w))
         (w_effects w) (w_calls w ++ [field b]) (w_listeners w)).
Proof.
  intros (f & e & ef & ee & Hf & He & Hef & Hee)%resolved_inv.
  exists f, e. split_and!; [done | done | | |].
  - by eapply lookup_lt_Some.
  - by eapply lookup_lt_Some.
  - rewrite Hf, He.
    rewrite (validateField_run f e (rules b) w ef Hef);
      [| by eapply lookup_lt_Some].
    unfold message_now, value_of. rewrite Hf. simpl. by rewrite Hef.
Qed.

Lemma el_attrs_mark t x :
  el_attrs (mark t x) !! aria_invalid =
    Some (if t then lit "true" else lit "false").
Proof. destruct t; simpl; apply lookup_insert_eq. Qed.

Lemma el_classes_mark t x :
  bool_decide (input_error ∈ el_classes (mark t x)) = t.
Proof.
  destruct t; simpl.
  - apply bool_decide_eq_true. set_solver.
  - apply bool_decide_eq_false. set_solver.
Qed.

(** After a validation the page shows exactly its message. *)
Lemma ui_of_shown d b f e msg :
  field b = Some f -> error b = Some e ->
  (f < length d)%nat -> (e < length d)%nat ->
  ui_of (shown msg f e d) b = ui_for msg.
Proof.
  intros Hf He Hlf Hle.
  apply lookup_lt_is_Some in Hlf as [ef Hef].
  apply lookup_lt_is_Some in Hle as [ee Hee].
  unfold ui_of, ui_for, shown. rewrite Hf, He. simpl.
  destruct (decide (e = f)) as [->|Hne].
  - rewrite !list_lookup_alter_eq, Hef. simpl.
    change (el_attrs (set_text msg (mark (truthy msg) ef)))
      with (el_attrs (mark (truthy msg) ef)).
    change (el_classes (set_text msg (mark (truthy msg) ef)))
      with (el_classes (mark (truthy msg) ef)).
    by rewrite el_attrs_mark, el_classes_mark.
  - rewrite list_lookup_alter_ne by done.
    rewrite !list_lookup_alter_eq.
    rewrite list_lookup_alter_ne by done.
    rewrite Hef, Hee. simpl.
    by rewrite el_attrs_mark, el_classes_mark.
Qed.

Lemma validation_result_resolved w b :
  resolved (w_doc w) b = true ->
  validation_result b w =
    Some {| valid := negb (truthy (message_now (w_doc w) b));
            message := message_now (w_doc w) b |}.
Proof.
  intros Hr.
  destruct (validateField_resolved w b Hr) as (f & e & Hf & He & Hlf & Hle & Hrun).
  unfold validation_result. rewrite Hrun. cbn [w_doc].
  by rewrite (ui_of_shown _ b f e _ Hf He Hlf Hle).
Qed.

Lemma fails_required r v :
  fails r v RequiredRule = required r && negb (truthy v).
Proof. simpl. f_equal. by destruct v. Qed.

Lemma is_configured_inv o :
  is_configured o = true ->
  exists m, o = Some m /\ m <> [] /\ forall dflt, or_default o dflt = m.
Proof.
  destruct o as [m|]; simpl; [|done]. intros Hm. exists m.
  split_and!; [done | by apply truthy_true |]. intros dflt. by rewrite Hm.
Qed.

(** The [if]/[else if] chain picks the message of the first failing rule
    of the priority list. *)
Lemma errorMessage_first_failing r v :
  messages_configured r = true ->
  match first_failing r v with
  | Some k =>
      exists m, configured r k = Some m /\ m <> [] /\ errorMessage_of r v = m
  | None => errorMessage_of r v = []
  end.
Proof.
  unfold messages_configured. rewrite !andb_true_iff.
  intros [[Hreq Hmin] Hem].
  unfold first_failing, rule_order, errorMessage_of. cbn [List.find].
  rewrite fails_required.
  destruct (required r && negb (truthy v)) eqn:E1.
  { apply andb_true_iff in E1 as [E1 _]. rewrite E1 in Hreq.
    apply is_configured_inv in Hreq as (m & Hm & Hne & Hd).
    exists m. split_and!; [done | done | apply Hd]. }
  assert (E2 : fails r v MinLengthRule =
               number_truthy (minLength r) &&
               (Z.of_nat (length v) <? default 0%Z (minLength r))%Z).
  { simpl. by destruct (minLength r). }
  rewrite E2.
  destruct (number_truthy (minLength r) &&
            (Z.of_nat (length v) <? default 0%Z (minLength r))%Z) eqn:E3.
  { apply andb_true_iff in E3 as [E3 _]. rewrite E3 in Hmin.
    apply is_configured_inv in Hmin as (m & Hm & Hne & Hd).
    exists m. split_and!; [done | done | apply Hd]. }
  cbn [fails].
  destruct (email r && negb (validateEmail v)) eqn:E4; [|done].
  apply andb_true_iff in E4 as [E4 _]. rewrite E4 in Hem.
  apply is_configured_inv in Hem as (m & Hm & Hne & Hd).
  exists m. split_and!; [done | done | apply Hd].
Qed.

End ValidationResult.

Section Shown.

Lemma lookup_shown d msg f e n :
  shown msg f e d !! n = shown_at msg f e n <$> d !! n.
Proof.
  unfold shown, shown_at. rewrite !list_lookup_alter.
  destruct (decide (e = n)) as [->|], (decide (f = n)) as [->|];
    destruct (d !! n); simpl; try done.
  all: rewrite ?list_lookup_alter_eq, ?list_lookup_alter_ne by done.
  all: by destruct (d !! _).
Qed.

Lemma length_shown d msg f e : length (shown msg f e d) = length d.
Proof. unfold shown. by rewrite !length_alter. Qed.

Lemma set_text_mark_twice msg t x :
  set_text msg (mark t (set_text msg (mark t x))) = set_text msg (mark t x).
Proof.
  transitivity (set_text msg (mark t (mark t x))).
  - by destruct t, x.
  - by rewrite mark_twice.
Qed.

Lemma shown_at_twice msg f e n x :
  shown_at msg f e n (shown_at msg f e n x) = shown_at msg f e n x.
Proof.
  unfold shown_at.
  destruct (decide (e = n)), (decide (f = n)); simpl.
  - apply set_text_mark_twice.
  - done.
  - apply mark_twice.
  - done.
Qed.

Lemma shown_twice d msg f e :
  shown msg f e (shown msg f e d) = shown msg f e d.
Proof.
  apply list_eq. intros n. rewrite !lookup_shown.
  destruct (d !! n); simpl; [|done]. by rewrite shown_at_twice.
Qed.

Lemma el_value_shown_at msg f e n x :
  el_value (shown_at msg f e n x) = el_value x.
Proof.
  unfold shown_at. destruct (decide (e = n)), (decide (f = n)); simpl;
    try done; by destruct (truthy msg).
Qed.

Lemma value_of_shown d msg f e r :
  value_of (shown msg f e d) r = value_of d r.
Proof.
  unfold value_of. destruct r as [n|]; simpl; [|done].
  rewrite lookup_shown. destruct (d !! n); simpl; [|done].
  apply el_value_shown_at.
Qed.

Lemma message_now_shown d msg f e b :
  message_now (shown msg f e d) b = message_now d b.
Proof. unfold message_now. by rewrite value_of_shown. Qed.

Lemma resolved_shown d msg f e b :
  resolved (shown msg f e d) b = resolved d b.
Proof.
  unfold resolved.
  assert (H : forall r : ref,
    bool_decide (is_Some (n ← r; shown msg f e d !! n)) =
    bool_decide (is_Some (n ← r; d !! n))).
  { intros [n|]; simpl; [|done]. rewrite lookup_shown.
    by destruct (d !! n). }
  by rewrite !H.
Qed.

End Shown.

(** ** The whole form *)

Section ValidateForm.

Lemma validateForm_unfold e :
  validateForm e =
    forEach_with (Object_values (fieldValidations e)) validate_step true.
Proof. reflexivity. Qed.

Lemma shown_b_resolved d b :
  resolved d b = true ->
  exists f e, field b = Some f /\ error b = Some e /\
    (f < length d)%nat /\ (e < length d)%nat /\
    shown_b b d = shown (message_now d b) f e d.
Proof.
  intros (f & e & ef & ee & Hf & He & Hef & Hee)%resolved_inv.
  exists f, e. unfold shown_b. rewrite Hf, He.
  split_and!; try done; by eapply lookup_lt_Some.
Qed.

Lemma resolved_shown_b d b b' :
  resolved (shown_b b d) b' = resolved d b'.
Proof.
  unfold shown_b. destruct (field b), (error b); try done.
  apply resolved_shown.
Qed.

Lemma message_now_shown_b d b b' :
  message_now (shown_b b d) b' = message_now d b'.
Proof.
  unfold shown_b. destruct (field b), (error b); try done.
  apply message_now_shown.
Qed.

Lemma validate_step_run w acc b :
  resolved (w_doc w) b = true ->
  validate_step acc b w =
    (Ret (acc && negb (truthy (message_now (w_doc w) b))),
     World (shown_b b (w_doc w))
       (w_effects w) (w_calls w ++ [field b]) (w_listeners w)).
Proof.
  intros Hb.
  destruct (validateField_resolved w b Hb)
    as (f & e & Hf & He & Hlf & Hle & Hrun).
  unfold validate_step. munfold. rewrite Hrun.
  unfold shown_b. rewrite Hf, He. f_equal. f_equal.
  by destruct (truthy (message_now (w_doc w) b)), acc.
Qed.

Lemma forallb_message_now_shown_b b d bs :
  forallb (fun b0 => negb (truthy (message_now (shown_b b d) b0))) bs =
  forallb (fun b0 => negb (truthy (message_now d b0))) bs.
Proof.
  induction bs as [|b' bs IH]; [done |].
  cbn [forallb]. by rewrite IH, message_now_shown_b.
Qed.

(** The loop validates every binding, whatever the earlier ones gave. *)
Lemma forEach_with_validate bs : forall w acc,
  Forall (fun b => resolved (w_doc w) b = true) bs ->
  forEach_with bs validate_step acc w =
    (Ret (acc && forallb (fun b => negb (truthy (message_now (w_doc w) b))) bs),
     World (foldl (fun d b => shown_b b d) (w_doc w) bs)
       (w_effects w) (w_calls w ++ (field <$> bs)) (w_listeners w)).
Proof.
  induction bs as [|b bs IH]; intros w acc Hall.
  - simpl. munfold. rewrite andb_true_r, app_nil_r. by destruct w.
  - apply Forall_cons in Hall as [Hb Hbs].
    cbn [forEach_with]. unfold mbind, M_bind.
    rewrite (validate_step_run w acc b Hb).
    rewrite IH.
    2:{ cbn [w_doc]. eapply Forall_impl; [exact Hbs |].
        intros b' Hb'. by rewrite resolved_shown_b. }
    cbn [w_doc w_effects w_calls w_listeners foldl forallb].
    rewrite forallb_message_now_shown_b, fmap_cons, <- app_assoc.
    by rewrite andb_assoc.
Qed.

Lemma ui_of_shown_other d b msg f e :
  field b <> Some f -> error b <> Some e ->
  ui_of (shown msg f e d) b = ui_of d b.
Proof.
  intros Hf He. unfold ui_of.
  assert (Hfld : forall n, field b = Some n ->
    (shown msg f e d !! n) = (fun x => if decide (e = n) then set_text msg x else x) <$> d !! n).
  { intros n Hn. rewrite lookup_shown. unfold shown_at.
    destruct (decide (f = n)) as [->|]; [congruence |].
    by destruct (decide (e = n)). }
  assert (Herr : forall n, error b = Some n ->
    (shown msg f e d !! n) =
      (fun x => if decide (f = n) then mark (truthy msg) x else x) <$> d !! n).
  { intros n Hn. rewrite lookup_shown. unfold shown_at.
    destruct (decide (e = n)) as [->|]; [congruence |].
    by destruct (decide (f = n)). }
  f_equal.
  - destruct (field b) as [n|]; simpl; [|done].
    rewrite (Hfld n eq_refl). destruct (d !! n); simpl; [|done].
    by destruct (decide (e = n)).
  - destruct (field b) as [n|]; simpl; [|done].
    rewrite (Hfld n eq_refl). destruct (d !! n); simpl; [|done].
    by destruct (decide (e = n)).
  - destruct (error b) as [n|]; simpl; [|done].
    rewrite (Herr n eq_refl). destruct (d !! n); simpl; [|done].
    destruct (decide (f = n)); [|done]. by destruct (truthy msg).
Qed.

Lemma ui_of_shown_b_other d b b' :
  field b <> field b' -> error b <> error b' ->
  resolved d b' = true ->
  ui_of (shown_b b' d) b = ui_of d b.
Proof.
  intros Hf He Hr.
  destruct (shown_b_resolved d b' Hr) as (f & e & Hf' & He' & _ & _ & ->).
  apply ui_of_shown_other; congruence.
Qed.

Lemma ui_of_foldl_other bs : forall d b,
  Forall (fun b' => resolved d b' = true) bs ->
  Forall (fun b' => field b <> field b' /\ error b <> error b') bs ->
  ui_of (foldl (fun d b => shown_b b d) d bs) b = ui_of d b.
Proof.
  induction bs as [|b' bs IH]; intros d b Hres Hsep; [done |].
  apply Forall_cons in Hres as [Hr Hres].
  apply Forall_cons in Hsep as [[Hf He] Hsep].
  cbn [foldl]. rewrite IH; [by apply ui_of_shown_b_other | | done].
  eapply Forall_impl; [exact Hres |]. intros x Hx.
  by rewrite resolved_shown_b.
Qed.

Lemma ui_of_shown_b d b :
  resolved d b = true -> ui_of (shown_b b d) b = ui_for (message_now d b).
Proof.
  intros Hr.
  destruct (shown_b_resolved d b Hr) as (f & e & Hf & He & Hlf & Hle & ->).
  by apply ui_of_shown.
Qed.

(** After the loop every field shows its own validity. *)
Lemma ui_of_foldl bs : forall d b,
  Forall (fun b' => resolved d b' = true) bs ->
  NoDup (field <$> bs) -> NoDup (error <$> bs) ->
  b ∈ bs ->
  ui_of (foldl (fun d b => shown_b b d) d bs) b = ui_for (message_now d b).
Proof.
  induction bs as [|b' bs IH]; intros d b Hres Hnf Hne Hin.
  - by apply elem_of_nil in Hin.
  - apply Forall_cons in Hres as [Hr Hres].
    rewrite fmap_cons in Hnf, Hne.
    apply NoDup_cons in Hnf as [Hf Hnf]. apply NoDup_cons in Hne as [He Hne].
    assert (Hres' : Forall (fun x => resolved (shown_b b' d) x = true) bs).
    { eapply Forall_impl; [exact Hres |]. intros x Hx.
      by rewrite resolved_shown_b. }
    cbn [foldl]. apply elem_of_cons in Hin as [->|Hin].
    + rewrite ui_of_foldl_other; [by apply ui_of_shown_b | done |].
      apply Forall_forall. intros x Hx. split; intros Heq.
      * apply Hf. rewrite Heq. by apply list_elem_of_fmap_2.
      * apply He. rewrite Heq. by apply list_elem_of_fmap_2.
    + rewrite IH by done. by rewrite message_now_shown_b.
Qed.

End ValidateForm.

(** ** The markup contract *)

Section Markup.

Lemma by_id_Some d id n :
  by_id d id = Some n -> exists e, d !! n = Some e /\ el_id e = Some id.
Proof.
  unfold by_id. intros H. apply fmap_Some in H as ([i e] & H & ->).
  apply list_find_Some in H as (H1 & H2 & _). by exists e.
Qed.

Lemma by_id_lt d id n : by_id d id = Some n -> (n < length d)%nat.
Proof. intros (e & He & _)%by_id_Some. by eapply lookup_lt_Some. Qed.

Lemma id_of_by_id d id : is_Some (by_id d id) -> id_of d (by_id d id) = Some id.
Proof.
  intros [n Hn]. rewrite Hn. apply by_id_Some in Hn as (e & He & Hid).
  unfold id_of. simpl. by rewrite He.
Qed.

Lemma resolved_by_id d id1 id2 r :
  is_Some (by_id d id1) -> is_Some (by_id d id2) ->
  resolved d {| field := by_id d id1; error := by_id d id2; rules := r |} = true.
Proof.
  intros [n Hn] [k Hk]. unfold resolved. cbn [field error].
  rewrite Hn, Hk. simpl.
  apply by_id_Some in Hn as (e1 & -> & _). apply by_id_Some in Hk as (e2 & -> & _).
  apply andb_true_iff. split; apply bool_decide_eq_true; eauto.
Qed.

Ltac open_markup H :=
  unfold markup_ok, field_refs, error_refs, bindings, Object_values,
    fieldValidations in H;
  cbn [fmap list_fmap snd field error forallb env_of form emailField
       nameField roleField experienceField goalField successMessage
       emailError nameError roleError experienceError goalError] in H;
  destruct (by_id _ (lit "waitlist-form")) as [?f|] eqn:?Hform;
    [| discriminate H];
  repeat match goal with
         | H' : _ && _ = true |- _ => apply andb_true_iff in H' as [? ?]
         end;
  repeat match goal with
         | H' : bool_decide _ = true |- _ => apply bool_decide_eq_true in H'
         end.

Lemma markup_resolved d :
  markup_ok d = true -> Forall (fun b => resolved d b = true) (bindings d).
Proof.
  intros H. open_markup H.
  unfold bindings, Object_values, fieldValidations.
  cbn [fmap list_fmap snd env_of emailField nameField roleField
       experienceField goalField emailError nameError roleError
       experienceError goalError].
  repeat (apply Forall_cons; split; [by apply resolved_by_id |]).
  constructor.
Qed.

Lemma markup_ids d :
  markup_ok d = true ->
  id_of d <$> (field_refs d ++ error_refs d ++
               [form (env_of d); successMessage (env_of d)]) =
    Some <$> [lit "email"; lit "name"; lit "role"; lit "experience";
              lit "goal"; lit "email-error"; lit "name-error";
              lit "role-error"; lit "experience-error"; lit "goal-error";
              lit "waitlist-form"; lit "form-success"].
Proof.
  intros H. open_markup H.
  unfold field_refs, error_refs, bindings, Object_values, fieldValidations.
  cbn [fmap list_fmap snd field error app env_of form emailField nameField
       roleField experienceField goalField successMessage emailError
       nameError roleError experienceError goalError].
  rewrite !id_of_by_id by (done || by rewrite Hform). done.
Qed.

(** The twelve elements the script holds are pairwise distinct. *)
Lemma markup_NoDup d :
  markup_ok d = true ->
  NoDup (field_refs d ++ error_refs d ++
         [form (env_of d); successMessage (env_of d)]).
Proof.
  intros H. apply (NoDup_fmap_1 (id_of d)). rewrite (markup_ids d H).
  apply NoDup_fmap; [apply _ |].
  apply (bool_decide_unpack _). by vm_compute.
Qed.

Lemma markup_NoDup_fields d : markup_ok d = true -> NoDup (field_refs d).
Proof. intros H. by apply markup_NoDup, NoDup_app in H as (? & _ & _). Qed.

Lemma markup_NoDup_errors d : markup_ok d = true -> NoDup (error_refs d).
Proof.
  intros H. apply markup_NoDup, NoDup_app in H as (_ & _ & H).
  by apply NoDup_app in H as (? & _ & _).
Qed.

(** Every rule of the rule table comes with its message. *)
Lemma bindings_configured d :
  Forall (fun b => messages_configured (rules b) = true) (bindings d).
Proof. unfold bindings, Object_values, fieldValidations. by repeat constructor. Qed.

End Markup.

Section FormResult.

Lemma forallb_true_iff {A} (p : A -> bool) l :
  forallb p l = true <-> forall x, x ∈ l -> p x = true.
Proof.
  rewrite forallb_forall. split; intros H x Hx; apply H;
    by apply list_elem_of_In.
Qed.

Lemma forallb_false_iff {A} (p : A -> bool) l :
  forallb p l = false <-> exists x, x ∈ l /\ p x = false.
Proof.
  induction l as [|a l IH]; simpl.
  - split; [done |]. intros (x & Hx & _). by apply elem_of_nil in Hx.
  - rewrite andb_false_iff, IH. split.
    + intros [Ha|(x & Hx & Hp)].
      * exists a. split; [apply elem_of_cons; by left | done].
      * exists x. split; [apply elem_of_cons; by right | done].
    + intros (x & Hx & Hp). apply elem_of_cons in Hx as [->|Hx]; [by left |].
      right. by exists x.
Qed.

Lemma validateField_alone w b :
  resolved (w_doc w) b = true ->
  (validateField (field b) (error b) (rules b) w).1 =
    Ret (negb (truthy (message_now (w_doc w) b))) /\
  ui_of (w_doc (validateField (field b) (error b) (rules b) w).2) b =
    ui_for (message_now (w_doc w) b).
Proof.
  intros Hr.
  destruct (validateField_resolved w b Hr)
    as (f & e & Hf & He & Hlf & Hle & ->).
  split; [done |]. cbn [snd w_doc]. by apply ui_of_shown.
Qed.

Lemma validateForm_run w :
  markup_ok (w_doc w) = true ->
  validateForm (env_of (w_doc w)) w =
    (Ret (forallb (fun b => negb (truthy (message_now (w_doc w) b)))
            (bindings (w_doc w))),
     World (foldl (fun d b => shown_b b d) (w_doc w) (bindings (w_doc w)))
       (w_effects w) (w_calls w ++ field_refs (w_doc w)) (w_listeners w)).
Proof.
  intros H. rewrite validateForm_unfold.
  fold (bindings (w_doc w)).
  by rewrite forEach_with_validate by by apply markup_resolved.
Qed.

End FormResult.

(** ** What a validation leaves alone *)

Section Frame.

Lemma framed_refl x : framed False False x x.
Proof. unfold framed. naive_solver. Qed.

Lemma framed_weaken (P Q P' Q' : Prop) x y :
  (P -> P') -> (Q -> Q') -> framed P Q x y -> framed P' Q' x y.
Proof. unfold framed. naive_solver. Qed.

Lemma framed_trans (P Q P' Q' : Prop) x y z :
  framed P Q x y -> framed P' Q' y z -> framed (P \/ P') (Q \/ Q') x z.
Proof.
  unfold framed.
  intros (H1 & H2 & H3 & H4 & H5 & H6 & H7 & H8)
         (G1 & G2 & G3 & G4 & G5 & G6 & G7 & G8).
  split_and!.
  - congruence.
  - congruence.
  - congruence.
  - congruence.
  - intros a Ha. by rewrite G5, H5.
  - intros c Hc. by rewrite G6, H6.
  - intros Hn. destruct H7 as [<- <-]; [tauto |]. apply G7. tauto.
  - intros Hn. rewrite G8, H8; tauto.
Qed.

Lemma framed_mark t x : framed True False x (mark t x).
Proof.
  unfold framed. destruct t; simpl; split_and!; try done; try tauto.
  - intros a Ha. by rewrite lookup_insert_ne.
  - intros c Hc. set_solver.
  - intros a Ha. by rewrite lookup_insert_ne.
  - intros c Hc. set_solver.
Qed.

Lemma framed_set_text msg x : framed False True x (set_text msg x).
Proof. unfold framed. simpl. split_and!; try done; tauto. Qed.

Lemma framed_shown_at msg f e n x :
  framed (f = n) (e = n) x (shown_at msg f e n x).
Proof.
  unfold shown_at.
  destruct (decide (e = n)) as [He|He], (decide (f = n)) as [Hf|Hf];
    cbn [id].
  - eapply framed_weaken;
      [| | exact (framed_trans _ _ _ _ _ _ _ (framed_mark _ x)
                    (framed_set_text msg _))]; tauto.
  - eapply framed_weaken; [| | apply framed_set_text]; tauto.
  - eapply framed_weaken; [| | apply framed_mark]; tauto.
  - eapply framed_weaken; [| | apply framed_refl]; tauto.
Qed.

Lemma shown_b_framed d b n x :
  d !! n = Some x ->
  exists y, shown_b b d !! n = Some y /\
    framed (field b = Some n) (error b = Some n) x y.
Proof.
  intros Hx. unfold shown_b.
  destruct (field b) as [f|] eqn:Hf, (error b) as [e|] eqn:He.
  2-4: exists x; split; [done |];
       eapply framed_weaken; [| | apply framed_refl]; tauto.
  exists (shown_at (message_now d b) f e n x).
  rewrite lookup_shown, Hx. split; [done |].
  eapply framed_weaken; [| | apply framed_shown_at]; congruence.
Qed.

Lemma foldl_framed bs : forall d n x,
  d !! n = Some x ->
  exists y, foldl (fun d b => shown_b b d) d bs !! n = Some y /\
    framed (Some n ∈ field <$> bs) (Some n ∈ error <$> bs) x y.
Proof.
  induction bs as [|b bs IH]; intros d n x Hx.
  - exists x. split; [done |].
    eapply framed_weaken; [| | apply framed_refl]; tauto.
  - destruct (shown_b_framed d b n x Hx) as (y1 & Hy1 & F1).
    destruct (IH _ n y1 Hy1) as (y & Hy & F2).
    exists y. split; [done |]. rewrite !fmap_cons.
    eapply framed_weaken; [| | exact (framed_trans _ _ _ _ _ _ _ F1 F2)];
      intros [->|?]; apply elem_of_cons; auto.
Qed.

Lemma length_shown_b b d : length (shown_b b d) = length d.
Proof.
  unfold shown_b. destruct (field b), (error b); try done.
  apply length_shown.
Qed.

Lemma length_foldl_shown bs : forall d,
  length (foldl (fun d b => shown_b b d) d bs) = length d.
Proof.
  induction bs as [|b bs IH]; intros d; [done |].
  cbn [foldl]. by rewrite IH, length_shown_b.
Qed.

Lemma NoDup_fmap_eq {A B} (g : A -> B) (l : list A) x y :
  NoDup (g <$> l) -> x ∈ l -> y ∈ l -> g x = g y -> x = y.
Proof.
  induction l as [|a l IH]; intros Hnd Hx Hy Heq.
  - by apply elem_of_nil in Hx.
  - rewrite fmap_cons in Hnd. apply NoDup_cons in Hnd as [Ha Hnd].
    apply elem_of_cons in Hx as [->|Hx], Hy as [->|Hy]; try done.
    + destruct Ha. rewrite Heq. by apply list_elem_of_fmap_2.
    + destruct Ha. rewrite <- Heq. by apply list_elem_of_fmap_2.
    + by apply IH.
Qed.

End Frame.

(** ** Invariants of computations *)

Section Stable.

Context (Re : nat -> element -> element -> Prop).
Context (Re_refl : forall n x, Re n x x).
Context (Re_trans : forall n x y z, Re n x y -> Re n y z -> Re n x z).

Lemma doc_rel_refl d : doc_rel Re d d.
Proof. split; [done |]. intros n x y Hx Hy. by simplify_eq. Qed.

Lemma doc_rel_trans d1 d2 d3 :
  doc_rel Re d1 d2 -> doc_rel Re d2 d3 -> doc_rel Re d1 d3.
Proof.
  intros [L1 H1] [L2 H2]. split; [congruence |].
  intros n x z Hx Hz.
  destruct (lookup_lt_is_Some_2 d2 n) as [y Hy].
  { rewrite L1. by eapply lookup_lt_Some. }
  eauto.
Qed.

Lemma doc_rel_alter d n f :
  (forall x, d !! n = Some x -> Re n x (f x)) -> doc_rel Re d (alter f n d).
Proof.
  intros Hf. split; [apply length_alter |].
  intros k x y Hx Hy. rewrite list_lookup_alter in Hy.
  destruct (decide (n = k)) as [->|].
  - rewrite Hx in Hy. simpl in Hy. simplify_eq. by apply Hf.
  - by simplify_eq.
Qed.

Lemma evolves_refl w : evolves Re w w.
Proof.
  split_and!; [apply doc_rel_refl | done |].
  exists []. by rewrite app_nil_r.
Qed.

Lemma evolves_trans w1 w2 w3 :
  evolves Re w1 w2 -> evolves Re w2 w3 -> evolves Re w1 w3.
Proof.
  intros (D1 & L1 & r1 & E1) (D2 & L2 & r2 & E2). split_and!.
  - by eapply doc_rel_trans.
  - congruence.
  - exists (r1 ++ r2). by rewrite E2, E1, app_assoc.
Qed.

Lemma stable_ret {A} (a : A) : stable (evolves Re) (mret a).
Proof. intros w. apply evolves_refl. Qed.

Lemma stable_throw {A} : stable (evolves Re) (@throw A).
Proof. intros w. apply evolves_refl. Qed.

Lemma stable_bind {A B} (m : M A) (k : A -> M B) :
  stable (evolves Re) m -> (forall a, stable (evolves Re) (k a)) ->
  stable (evolves Re) (m ≫= k).
Proof.
  intros Hm Hk w. munfold. specialize (Hm w).
  destruct (m w) as [[a|] w1]; simpl in *; [|done].
  eapply evolves_trans; [exact Hm | apply Hk].
Qed.

Lemma stable_forEach {A} (l : list A) (k : A -> M unit) :
  (forall a, stable (evolves Re) (k a)) -> stable (evolves Re) (forEach l k).
Proof.
  intros Hk. induction l as [|a l IH]; cbn [forEach].
  - apply stable_ret.
  - apply stable_bind; [apply Hk | by intros _].
Qed.

Lemma stable_forEach_with {A S} (l : list A) (k : S -> A -> M S) :
  (forall s a, stable (evolves Re) (k s a)) ->
  forall s, stable (evolves Re) (forEach_with l k s).
Proof.
  intros Hk. induction l as [|a l IH]; intros s; cbn [forEach_with].
  - apply stable_ret.
  - apply stable_bind; [apply Hk | apply IH].
Qed.

Lemma stable_attempt (m : M unit) :
  stable (evolves Re) m -> stable (evolves Re) (attempt m).
Proof. intros Hm w. apply Hm. Qed.

Lemma stable_getElementById id : stable (evolves Re) (getElementById id).
Proof. intros w. apply evolves_refl. Qed.

Lemma stable_deref r : stable (evolves Re) (deref r).
Proof.
  intros w. unfold deref. destruct r as [n|]; [|apply evolves_refl].
  destruct (w_doc w !! n); apply evolves_refl.
Qed.

Lemma stable_get_value r : stable (evolves Re) (get_value r).
Proof. apply stable_bind; [apply stable_deref | intros; apply stable_ret]. Qed.

Lemma stable_getAttribute r a : stable (evolves Re) (getAttribute r a).
Proof. apply stable_bind; [apply stable_deref | intros; apply stable_ret]. Qed.

Lemma stable_querySelectorAll r sel :
  stable (evolves Re) (querySelectorAll r sel).
Proof. intros w. destruct r; apply evolves_refl. Qed.

Lemma stable_querySelector r sel : stable (evolves Re) (querySelector r sel).
Proof.
  apply stable_bind; [apply stable_querySelectorAll | intros; apply stable_ret].
Qed.

Lemma stable_entered r : stable (evolves Re) (entered r).
Proof.
  intros w. split_and!; [apply doc_rel_refl | done |].
  exists []. by rewrite app_nil_r.
Qed.

Lemma stable_emit x : stable (evolves Re) (emit x).
Proof.
  intros w. split_and!; [apply doc_rel_refl | done |]. by exists [x].
Qed.

Lemma stable_focus r : stable (evolves Re) (focus r).
Proof. destruct r; [apply stable_emit | apply stable_throw]. Qed.

Lemma stable_scrollIntoView r : stable (evolves Re) (scrollIntoView r).
Proof. destruct r; [apply stable_emit | apply stable_throw]. Qed.

Lemma stable_update r f :
  (forall n x, r = Some n -> Re n x (f x)) -> stable (evolves Re) (update r f).
Proof.
  intros Hf w. unfold update. destruct r as [n|]; [|apply evolves_refl].
  destruct (w_doc w !! n) eqn:Hn; [|apply evolves_refl].
  split_and!; cbn [snd w_doc w_listeners w_effects with_doc].
  - apply doc_rel_alter. intros x _. by apply Hf.
  - done.
  - exists []. by rewrite app_nil_r.
Qed.

End Stable.

Lemma stable_mono {A} (Re Re' : nat -> element -> element -> Prop) (m : M A) :
  (forall n x y, Re n x y -> Re' n x y) ->
  stable (evolves Re) m -> stable (evolves Re') m.
Proof.
  intros Hsub Hm w. destruct (Hm w) as ([L H] & HL & HE).
  split_and!; [| done | done]. split; [done |]. eauto.
Qed.

Ltac stable_steps R T :=
  repeat match goal with
    | |- stable _ (mret _) => apply (stable_ret _ R)
    | |- stable _ throw => apply (stable_throw _ R)
    | |- stable _ (emit _) => apply (stable_emit _ R)
    | |- stable _ (entered _) => apply (stable_entered _ R)
    | |- stable _ (focus _) => apply (stable_focus _ R)
    | |- stable _ (scrollIntoView _) => apply (stable_scrollIntoView _ R)
    | |- stable _ (getElementById _) => apply (stable_getElementById _ R)
    | |- stable _ (get_value _) => apply (stable_get_value _ R T)
    | |- stable _ (getAttribute _ _) => apply (stable_getAttribute _ R T)
    | |- stable _ (querySelector _ _) => apply (stable_querySelector _ R T)
    | |- stable _ (querySelectorAll _ _) => apply (stable_querySelectorAll _ R)
    | |- stable _ (mbind _ _) => apply (stable_bind _ R T); [| intros ?]
    | |- stable _ (forEach _ _) => apply (stable_forEach _ R T); intros ?
    | |- stable _ (if ?c then _ else _) => destruct c
    | |- stable _ (match ?c with _ => _ end) => destruct c
    end.

Section Visibility.

Lemma same_skeleton_trans x y z :
  same_skeleton x y -> same_skeleton y z -> same_skeleton x z.
Proof. unfold same_skeleton. intros [] []. split; congruence. Qed.

Lemma keeps_classes_refl n x : keeps_classes n x x.
Proof. done. Qed.

Lemma keeps_classes_trans n x y z :
  keeps_classes n x y -> keeps_classes n y z -> keeps_classes n x z.
Proof.
  intros [S1 V1] [S2 V2]. split; [by eapply same_skeleton_trans |].
  intros c Hc. by rewrite V2, V1.
Qed.

Lemma keeps_visible_refl n x : keeps_visible n x x.
Proof. done. Qed.

Lemma keeps_visible_trans n x y z :
  keeps_visible n x y -> keeps_visible n y z -> keeps_visible n x z.
Proof.
  intros (S1 & C1 & V1) (S2 & C2 & V2).
  split_and!; [by eapply same_skeleton_trans | | auto].
  intros c Hc Hv. by rewrite C2, C1.
Qed.

Lemma visible_ne_input_error : visible <> input_error.
Proof. discriminate. Qed.

Lemma classes_keeps_visible n x y : keeps_classes n x y -> keeps_visible n x y.
Proof.
  intros [S V]. split_and!; [done | by auto |].
  rewrite V; [done | apply visible_ne_input_error].
Qed.

(** A validation reveals nothing and hides nothing. *)
Lemma stable_validateField f e r :
  stable (evolves keeps_classes) (validateField f e r).
Proof.
  unfold validateField, setAttribute, classList_add, classList_remove,
    set_textContent.
  stable_steps keeps_classes_refl keeps_classes_trans;
    apply (stable_update _ keeps_classes_refl); intros n x _;
    (split; [done |]); simpl; try done;
    intros c Hc; set_solver.
Qed.

Lemma stable_onFieldBlur b : stable (evolves keeps_classes) (onFieldBlur b).
Proof.
  unfold onFieldBlur.
  apply (stable_bind _ keeps_classes_refl keeps_classes_trans);
    [apply stable_validateField | intros; by apply stable_ret].
Qed.

Lemma stable_onFieldInput b : stable (evolves keeps_classes) (onFieldInput b).
Proof.
  unfold onFieldInput.
  apply (stable_bind _ keeps_classes_refl keeps_classes_trans);
    [apply (stable_getAttribute _ keeps_classes_refl keeps_classes_trans) |].
  intros a. destruct (bool_decide _); [| by apply stable_ret].
  apply (stable_bind _ keeps_classes_refl keeps_classes_trans);
    [apply stable_validateField | intros; by apply stable_ret].
Qed.

Lemma stable_validateForm e : stable (evolves keeps_classes) (validateForm e).
Proof.
  unfold validateForm.
  apply (stable_forEach_with _ keeps_classes_refl keeps_classes_trans).
  intros s b.
  apply (stable_bind _ keeps_classes_refl keeps_classes_trans);
    [apply stable_validateField | intros; by apply stable_ret].
Qed.

Lemma stable_showSuccessMessage e :
  stable (evolves keeps_visible) (showSuccessMessage e).
Proof.
  unfold showSuccessMessage, set_style_display, classList_add, console_log.
  stable_steps keeps_visible_refl keeps_visible_trans;
    apply (stable_update _ keeps_visible_refl); intros n x _;
    (split; [done |]); simpl; try done.
  split; [| set_solver]. intros c Hc Hv. set_solver.
Qed.

(** Submitting reveals at most. *)
Lemma stable_handleFormSubmit e :
  stable (evolves keeps_visible) (handleFormSubmit e).
Proof.
  unfold handleFormSubmit, preventDefault, console_log.
  apply (stable_bind _ keeps_visible_refl keeps_visible_trans);
    [by apply stable_emit |]. intros _.
  apply (stable_bind _ keeps_visible_refl keeps_visible_trans).
  { eapply stable_mono; [apply classes_keeps_visible | apply stable_validateForm]. }
  intros isValid. destruct (negb isValid).
  - stable_steps keeps_visible_refl keeps_visible_trans.
  - apply (stable_bind _ keeps_visible_refl keeps_visible_trans);
      [apply stable_showSuccessMessage |]. intros _.
    stable_steps keeps_visible_refl keeps_visible_trans.
Qed.

Lemma stable_run_handler h : stable (evolves keeps_visible) (run_handler h).
Proof.
  destruct h as [b|b|e]; cbn [run_handler].
  - eapply stable_mono; [apply classes_keeps_visible | apply stable_onFieldBlur].
  - eapply stable_mono; [apply classes_keeps_visible | apply stable_onFieldInput].
  - apply stable_handleFormSubmit.
Qed.

Lemma stable_dispatch n ev : stable (evolves keeps_visible) (dispatch n ev).
Proof.
  intros w. unfold dispatch.
  apply (stable_forEach _ keeps_visible_refl keeps_visible_trans).
  intros h. apply stable_attempt, stable_run_handler.
Qed.

Lemma stable_perform a : stable (evolves keeps_visible) (perform a).
Proof.
  destruct a as [n v|n|n]; cbn [perform]; try apply stable_dispatch.
  apply (stable_bind _ keeps_visible_refl keeps_visible_trans);
    [| intros; apply stable_dispatch].
  by apply (stable_update _ keeps_visible_refl).
Qed.

Lemma evolves_run acts : forall w, evolves keeps_visible w (run acts w).
Proof.
  induction acts as [|a acts IH]; intros w; cbn [run].
  - by apply evolves_refl.
  - eapply (evolves_trans _ keeps_visible_refl keeps_visible_trans);
      [apply stable_perform | apply IH].
Qed.

End Visibility.

(** ** What depends on the skeleton of the document only *)

Section Skeleton.

Lemma doc_rel_lookup Re d d' n x :
  doc_rel Re d d' -> d !! n = Some x ->
  exists y, d' !! n = Some y /\ Re n x y.
Proof.
  intros [L H] Hx. destruct (lookup_lt_is_Some_2 d' n) as [y Hy].
  { rewrite L. by eapply lookup_lt_Some. }
  exists y. split; [done |]. by eapply H.
Qed.

Lemma doc_rel_fmap {B} Re (g : element -> B) d d' :
  (forall n x y, Re n x y -> g y = g x) ->
  doc_rel Re d d' -> g <$> d' = g <$> d.
Proof.
  intros Hg Hrel. apply list_eq. intros n. rewrite !list_lookup_fmap.
  destruct (d !! n) as [x|] eqn:Hx.
  - destruct (doc_rel_lookup Re d d' n x Hrel Hx) as (y & -> & Hy).
    simpl. f_equal. by eapply Hg.
  - destruct Hrel as [L _]. rewrite (lookup_ge_None_2 d' n); [done |].
    rewrite L. by apply lookup_ge_None.
Qed.

Lemma by_id_fmap d id :
  by_id d id = fst <$> list_find (fun o => o = Some id) (el_id <$> d).
Proof.
  unfold by_id. rewrite list_find_fmap.
  by destruct (list_find _ d) as [[]|].
Qed.

Lemma by_id_ids d d' id :
  el_id <$> d' = el_id <$> d -> by_id d' id = by_id d id.
Proof. intros H. by rewrite !by_id_fmap, H. Qed.

Lemma env_of_ids d d' : el_id <$> d' = el_id <$> d -> env_of d' = env_of d.
Proof. intros H. unfold env_of. by rewrite !(by_id_ids d d' _ H). Qed.

Lemma subtree_depths dn : forall l l' i,
  el_depth <$> l' = el_depth <$> l -> subtree dn l' i = subtree dn l i.
Proof.
  induction l as [|x l IH]; intros [|y l'] i H; try done.
  rewrite !fmap_cons in H. injection H as Hd Hl.
  cbn [subtree]. rewrite Hd. by rewrite (IH l' (S i) Hl).
Qed.

Lemma descendants_depths d d' n :
  el_depth <$> d' = el_depth <$> d -> descendants d' n = descendants d n.
Proof.
  intros H. unfold descendants.
  assert (Hn : el_depth <$> d' !! n = el_depth <$> d !! n).
  { by rewrite <- !list_lookup_fmap, H. }
  destruct (d' !! n) as [y|], (d !! n) as [x|]; simpl in Hn; try done.
  injection Hn as ->. apply subtree_depths. by rewrite !fmap_drop, H.
Qed.

Lemma subtree_lt dn : forall l i k,
  k ∈ subtree dn l i -> (i <= k < i + length l)%nat.
Proof.
  induction l as [|x l IH]; intros i k Hk; cbn [subtree] in Hk.
  - by apply elem_of_nil in Hk.
  - destruct (dn <? el_depth x)%nat; [| by apply elem_of_nil in Hk].
    apply elem_of_cons in Hk as [->|Hk]; simpl; [lia |].
    apply IH in Hk. lia.
Qed.

Lemma descendants_lt d n k : k ∈ descendants d n -> (k < length d)%nat.
Proof.
  unfold descendants. destruct (d !! n) as [x|] eqn:Hx;
    [| intros H; by apply elem_of_nil in H].
  intros Hk%subtree_lt. rewrite length_drop in Hk.
  apply lookup_lt_Some in Hx. lia.
Qed.

Lemma select_all_lt d n sel k : k ∈ select_all d n sel -> (k < length d)%nat.
Proof.
  unfold select_all. intros Hk. apply list_elem_of_In, filter_In in Hk as [Hk _].
  apply (descendants_lt d n). by apply list_elem_of_In.
Qed.

(** The script resolves the same elements on the later document. *)
Lemma env_of_evolves w w' :
  evolves keeps_visible w w' -> env_of (w_doc w') = env_of (w_doc w).
Proof.
  intros [Hd _]. apply env_of_ids.
  apply (doc_rel_fmap keeps_visible); [| done].
  by intros n x y [[_ ?] _].
Qed.

Lemma revealed_evolves w w' r :
  evolves keeps_visible w w' ->
  revealed (w_doc w) r = true -> revealed (w_doc w') r = true.
Proof.
  intros [Hd _]. unfold revealed. destruct r as [n|]; [|done].
  destruct (w_doc w !! n) as [x|] eqn:Hx; [|done].
  destruct (doc_rel_lookup _ _ _ n x Hd Hx) as (y & -> & _ & _ & Hv).
  rewrite !bool_decide_eq_true. apply Hv.
Qed.

Lemma phase_evolves w w' :
  evolves keeps_visible w w' ->
  phase_of w = Submitted -> phase_of w' = Submitted.
Proof.
  intros Hev. unfold phase_of. rewrite (env_of_evolves w w' Hev).
  destruct (revealed (w_doc w) _) eqn:Hr; [|done].
  by rewrite (revealed_evolves w w' _ Hev Hr).
Qed.

Lemma revealed_same w w' r :
  evolves keeps_classes w w' ->
  revealed (w_doc w') r = revealed (w_doc w) r.
Proof.
  intros [Hd _]. unfold revealed. destruct r as [n|]; [|done].
  destruct (w_doc w !! n) as [x|] eqn:Hx.
  - destruct (doc_rel_lookup _ _ _ n x Hd Hx) as (y & -> & _ & Hv).
    apply bool_decide_ext, Hv, visible_ne_input_error.
  - destruct Hd as [L _]. rewrite (lookup_ge_None_2 (w_doc w') n); [done |].
    rewrite L. by apply lookup_ge_None.
Qed.

Lemma phase_same w w' :
  evolves keeps_classes w w' -> phase_of w' = phase_of w.
Proof.
  intros Hev. unfold phase_of.
  rewrite (env_of_evolves w w'), (revealed_same w w' _ Hev); [done |].
  destruct Hev as (Hd & HL & HE). split_and!; [| done | done].
  destruct Hd as [L H]. split; [done |].
  intros n x y Hx Hy. by apply classes_keeps_visible, (H n).
Qed.

End Skeleton.

(** The phase never leaves [Submitted], whatever the user does. *)
Lemma submitted_forever w acts :
  phase_of w = Submitted -> phase_of (run acts w) = Submitted.
Proof. apply phase_evolves, evolves_run. Qed.

(** ** Submitting the form *)

Section Submit.

Lemma filter_filter_implies {A} (P Q : A -> bool) l :
  (forall x, x ∈ l -> P x = true -> Q x = true) ->
  List.filter P l = List.filter P (List.filter Q l).
Proof.
  induction l as [|a l IH]; intros H; [done |]. cbn [List.filter].
  assert (IH' : List.filter P l = List.filter P (List.filter Q l)).
  { apply IH. intros x Hx. apply H. apply elem_of_cons. by right. }
  destruct (P a) eqn:Pa.
  - rewrite (H a) by (done || apply elem_of_cons; by left).
    cbn [List.filter]. by rewrite Pa, IH'.
  - destruct (Q a); [| done]. cbn [List.filter]. by rewrite Pa.
Qed.

Lemma elem_of_field_positions d i :
  i ∈ field_positions d <-> Some i ∈ field_refs d.
Proof.
  unfold field_positions. rewrite list_elem_of_omap. split.
  - intros (r & Hr & <-). done.
  - intros H. by exists (Some i).
Qed.

Lemma validated_evolves w :
  markup_ok (w_doc w) = true ->
  doc_rel keeps_classes (w_doc w) (validated (w_doc w)).
Proof.
  intros H. pose proof (stable_validateForm (env_of (w_doc w)) w) as [Hd _].
  by rewrite (validateForm_run w H) in Hd.
Qed.

Lemma validated_ids d :
  markup_ok d = true -> el_id <$> validated d = el_id <$> d.
Proof.
  intros H. apply (doc_rel_fmap keeps_classes).
  - by intros n x y [[_ ?] _].
  - exact (validated_evolves (fresh d) H).
Qed.

Lemma validated_depths d :
  markup_ok d = true -> el_depth <$> validated d = el_depth <$> d.
Proof.
  intros H. apply (doc_rel_fmap keeps_classes).
  - by intros n x y [[? _] _].
  - exact (validated_evolves (fresh d) H).
Qed.

Lemma validated_env d : markup_ok d = true -> env_of (validated d) = env_of d.
Proof. intros H. by apply env_of_ids, validated_ids. Qed.

Lemma validated_field_positions d :
  markup_ok d = true -> field_positions (validated d) = field_positions d.
Proof.
  intros H. unfold field_positions, field_refs, bindings.
  by rewrite validated_env.
Qed.

Lemma matches_at_validated d i :
  i ∉ field_positions d ->
  matches_at (validated d) invalid_sel i = matches_at d invalid_sel i.
Proof.
  intros Hi. unfold matches_at.
  destruct (d !! i) as [x|] eqn:Hx.
  - destruct (foldl_framed (bindings d) d i x Hx) as (y & Hy & F).
    unfold validated. rewrite Hy.
    destruct F as (_ & _ & _ & _ & _ & _ & F & _).
    destruct F as [Ha _].
    { intros Hc. apply Hi. by apply elem_of_field_positions. }
    simpl. by rewrite Ha.
  - unfold validated. rewrite (lookup_ge_None_2 _ i); [done |].
    rewrite length_foldl_shown. by apply lookup_ge_None.
Qed.

Lemma markup_form d :
  markup_ok d = true ->
  exists f m s,
    form (env_of d) = Some f /\ successMessage (env_of d) = Some m /\
    head (select_all d f (SelClass (lit "form__submit"))) = Some s /\
    List.filter (fun i => bool_decide (i ∈ field_positions d))
      (descendants d f) = field_positions d /\
    (forall i, i ∈ descendants d f ->
       matches_at d invalid_sel i = true -> i ∈ field_positions d).
Proof.
  intros H. unfold markup_ok in H.
  destruct (form (env_of d)) as [f|] eqn:Hf; [| done].
  repeat match goal with
         | H' : _ && _ = true |- _ => apply andb_true_iff in H' as [? ?]
         end.
  repeat match goal with
         | H' : bool_decide _ = true |- _ => apply bool_decide_eq_true in H'
         end.
  match goal with H' : is_Some (successMessage _) |- _ => destruct H' as [m Hm] end.
  match goal with H' : is_Some (head _) |- _ => destruct H' as [s Hs] end.
  exists f, m, s. split_and!; try done.
  intros i Hi Hmatch.
  match goal with
  | H' : forallb _ _ = true |- _ =>
      rewrite forallb_true_iff in H'; specialize (H' i Hi);
      rewrite Hmatch in H'; by apply bool_decide_eq_true in H'
  end.
Qed.

(** Inside the form, the elements marked invalid after [validateForm]
    are controls: [querySelector] finds the first control marked
    invalid, in declaration order. *)
Lemma select_invalid_validated d f :
  markup_ok d = true -> form (env_of d) = Some f ->
  head (select_all (validated d) f invalid_sel) =
    first_invalid_field (validated d).
Proof.
  intros H Hf.
  destruct (markup_form d H) as (f' & m & s & Hf' & _ & _ & Hfp & Hinv).
  assert (f' = f) as -> by congruence.
  unfold first_invalid_field, select_all.
  rewrite (descendants_depths d (validated d) f (validated_depths d H)).
  rewrite (validated_field_positions d H).
  rewrite (filter_filter_implies _
             (fun i => bool_decide (i ∈ field_positions d))).
  - by rewrite Hfp.
  - intros i Hi Hm. apply bool_decide_eq_true.
    destruct (decide (i ∈ field_positions d)) as [|Hn]; [done |].
    rewrite (matches_at_validated d i Hn) in Hm. by apply Hinv.
Qed.

Lemma invalid_field_marked d b :
  markup_ok d = true -> b ∈ bindings d ->
  truthy (message_now d b) = true ->
  exists k, field b = Some k /\ k ∈ field_positions d /\
    matches_at (validated d) invalid_sel k = true.
Proof.
  intros H Hb Ht.
  pose proof (markup_resolved d H) as Hres.
  assert (Hr : resolved d b = true) by by eapply Forall_forall in Hres.
  destruct (resolved_inv d b Hr) as (k & e & ef & ee & Hk & He & Hef & Hee).
  exists k. split; [done |]. split.
  { apply elem_of_field_positions. rewrite <- Hk.
    by apply list_elem_of_fmap_2. }
  pose proof (ui_of_foldl (bindings d) d b Hres (markup_NoDup_fields d H)
                (markup_NoDup_errors d H) Hb) as Hui.
  fold (validated d) in Hui.
  apply (f_equal ui_flag) in Hui. unfold ui_of, ui_for in Hui.
  cbn [ui_flag] in Hui. rewrite Hk, Ht in Hui. simpl in Hui.
  unfold matches_at, invalid_sel, sel_matches.
  destruct (validated d !! k) as [y|]; simpl in Hui; [| done].
  by apply bool_decide_eq_true.
Qed.

Lemma preventDefault_run w :
  preventDefault w =
    (Ret (), World (w_doc w) (w_effects w ++ [PreventDefault])
               (w_calls w) (w_listeners w)).
Proof. reflexivity. Qed.

(** [handleFormSubmit] when some field is invalid. *)
Lemma handleFormSubmit_invalid w :
  markup_ok (w_doc w) = true ->
  forallb (fun b => negb (truthy (message_now (w_doc w) b)))
    (bindings (w_doc w)) = false ->
  exists n,
    first_invalid_field (validated (w_doc w)) = Some n /\
    handleFormSubmit (env_of (w_doc w)) w =
      (Ret (),
       World (validated (w_doc w))
         (w_effects w ++ [PreventDefault; Focus n])
         (w_calls w ++ field_refs (w_doc w)) (w_listeners w)).
Proof.
  intros H Hfalse.
  destruct (markup_form _ H) as (f & m & s & Hf & _ & _ & _ & _).
  pose proof Hfalse as Hex.
  apply forallb_false_iff in Hex as (b & Hb & Hv).
  apply negb_false_iff in Hv.
  destruct (invalid_field_marked _ b H Hb Hv) as (k & Hk & Hkp & Hmk).
  assert (Hsome : is_Some (first_invalid_field (validated (w_doc w)))).
  { unfold first_invalid_field.
    rewrite (validated_field_positions _ H).
    destruct (List.filter _ _) as [|n l] eqn:Hl; [| by eexists].
    assert (Hin : k ∈ List.filter (matches_at (validated (w_doc w)) invalid_sel)
                         (field_positions (w_doc w))).
    { apply list_elem_of_In, filter_In. split; [by apply list_elem_of_In | done]. }
    rewrite Hl in Hin. by apply elem_of_nil in Hin. }
  destruct Hsome as [n Hn]. exists n. split; [done |].
  unfold handleFormSubmit. unfold mbind at 1. unfold M_bind.
  rewrite preventDefault_run.
  set (w1 := World _ _ _ _).
  unfold mbind at 1. unfold M_bind.
  change (env_of (w_doc w)) with (env_of (w_doc w1)) at 1.
  rewrite (validateForm_run w1 H).
  cbn [w_doc w_effects w_calls w_listeners w1].
  rewrite Hfalse. cbn [negb]. rewrite Hf.
  unfold querySelector, querySelectorAll. munfold. cbn [w_doc].
  fold (validated (w_doc w)). fold invalid_sel.
  rewrite (select_invalid_validated _ f H Hf), Hn.
  unfold focus, emit. cbn [w_doc w_effects w_calls w_listeners].
  by rewrite <- app_assoc.
Qed.

End Submit.

Section SubmitInvalid.

Lemma validateForm_after_preventDefault w :
  markup_ok (w_doc w) = true ->
  validateForm (env_of (w_doc w)) (preventDefault w).2 =
    (Ret (forallb (fun b => negb (truthy (message_now (w_doc w) b)))
            (bindings (w_doc w))),
     World (validated (w_doc w)) (w_effects w ++ [PreventDefault])
       (w_calls w ++ field_refs (w_doc w)) (w_listeners w)).
Proof.
  intros H. rewrite preventDefault_run. cbn [snd].
  set (w1 := World _ _ _ _).
  change (env_of (w_doc w)) with (env_of (w_doc w1)).
  by rewrite (validateForm_run w1 H).
Qed.

Lemma handleFormSubmit_effects e w :
  exists rest,
    w_effects (handleFormSubmit e w).2 = w_effects w ++ PreventDefault :: rest.
Proof.
  unfold handleFormSubmit.
  set (body := mbind _ (validateForm e)).
  assert (Hst : stable (evolves keeps_visible) body).
  { apply (stable_bind _ keeps_visible_refl keeps_visible_trans).
    { eapply stable_mono; [apply classes_keeps_visible | apply stable_validateForm]. }
    intros isValid. destruct (negb isValid).
    - stable_steps keeps_visible_refl keeps_visible_trans.
    - apply (stable_bind _ keeps_visible_refl keeps_visible_trans);
        [apply stable_showSuccessMessage |]. intros _.
      unfold console_log.
      stable_steps keeps_visible_refl keeps_visible_trans. }
  change ((preventDefault ≫= fun _ => body) w)
    with (body (preventDefault w).2).
  destruct (Hst (preventDefault w).2) as (_ & _ & rest & Hrest).
  exists rest. rewrite Hrest. cbn [preventDefault emit snd w_effects].
  by rewrite <- app_assoc.
Qed.

End SubmitInvalid.

Section SubmitValid.

Lemma update_run w n g x :
  w_doc w !! n = Some x ->
  update (Some n) g w = (Ret (), with_doc (alter g n (w_doc w)) w).
Proof. intros H. unfold update. by rewrite H. Qed.

Lemma forEach_update_run g l : forall w,
  Forall (fun i => (i < length (w_doc w))%nat) l ->
  forEach l (fun i => update (Some i) g) w =
    (Ret (), with_doc (foldl (fun d i => alter g i d) (w_doc w) l) w).
Proof.
  induction l as [|a l IH]; intros w Hall.
  - by destruct w.
  - apply Forall_cons in Hall as [Ha Hall].
    apply lookup_lt_is_Some in Ha as [x Hx].
    cbn [forEach]. unfold mbind, M_bind. rewrite (update_run w a g x Hx).
    rewrite IH.
    + by destruct w.
    + cbn [with_doc w_doc]. eapply Forall_impl; [exact Hall |].
      intros i Hi. by rewrite length_alter.
Qed.

Lemma get_value_run w r :
  is_Some (n ← r; w_doc w !! n) ->
  get_value r w = (Ret (value_of (w_doc w) r), w).
Proof.
  intros [x Hx]. unfold get_value, deref, value_of. munfold.
  destruct r as [n|]; [| done]. simpl in Hx. simpl. by rewrite Hx.
Qed.

Lemma length_foldl_alter g l : forall d : list element,
  length (foldl (fun d i => alter g i d) d l) = length d.
Proof.
  induction l as [|a l IH]; intros d; [done |].
  cbn [foldl]. by rewrite IH, length_alter.
Qed.

Lemma only_display_refl n x : only_display n x x.
Proof. done. Qed.

Lemma only_display_trans n x y z :
  only_display n x y -> only_display n y z -> only_display n x z.
Proof. unfold only_display. intros H1 H2. split_and!; naive_solver congruence. Qed.

Lemma foldl_hide_rel l : forall d,
  doc_rel only_display d (foldl (fun d i => alter hide i d) d l).
Proof.
  induction l as [|a l IH]; intros d; cbn [foldl].
  - by apply doc_rel_refl.
  - eapply (doc_rel_trans _ only_display_refl only_display_trans); [| apply IH].
    by apply doc_rel_alter.
Qed.

Lemma display_alter_hidden g k (d : list element) i :
  (forall x, el_display x = lit "none" -> el_display (g x) = lit "none") ->
  display_of d i = Some (lit "none") ->
  display_of (alter g k d) i = Some (lit "none").
Proof.
  intros Hg. unfold display_of. rewrite list_lookup_alter.
  destruct (decide (k = i)) as [->|]; [| done].
  destruct (d !! i) as [x|]; simpl; [| done].
  intros [= Hx]. by rewrite Hg.
Qed.

Lemma display_foldl_hidden l : forall d i,
  display_of d i = Some (lit "none") ->
  display_of (foldl (fun d i => alter hide i d) d l) i = Some (lit "none").
Proof.
  induction l as [|a l IH]; intros d i H; [done |].
  cbn [foldl]. apply IH. by apply display_alter_hidden.
Qed.

Lemma display_foldl_hide l : forall d i,
  i ∈ l -> (i < length d)%nat ->
  display_of (foldl (fun d i => alter hide i d) d l) i = Some (lit "none").
Proof.
  induction l as [|a l IH]; intros d i Hin Hlt.
  - by apply elem_of_nil in Hin.
  - cbn [foldl]. apply elem_of_cons in Hin as [->|Hin].
    + apply display_foldl_hidden. unfold display_of.
      rewrite list_lookup_alter_eq.
      apply lookup_lt_is_Some in Hlt as [x ->]. done.
    + apply IH; [done | by rewrite length_alter].
Qed.

Lemma display_submitted_doc d fs s m i :
  (i < length d)%nat -> i ∈ fs \/ i = s ->
  display_of (submitted_doc d fs s m) i = Some (lit "none").
Proof.
  intros Hlt Hi. unfold submitted_doc.
  apply display_alter_hidden; [done |].
  destruct Hi as [Hi| ->].
  - apply display_alter_hidden; [done |]. by apply display_foldl_hide.
  - unfold display_of. rewrite list_lookup_alter_eq.
    destruct (lookup_lt_is_Some_2 (foldl (fun d i => alter hide i d) d fs) s)
      as [x ->]; [by rewrite length_foldl_alter | done].
Qed.

Lemma revealed_submitted_doc d fs s m :
  (m < length d)%nat -> revealed (submitted_doc d fs s m) (Some m) = true.
Proof.
  intros Hlt. unfold revealed, submitted_doc.
  rewrite list_lookup_alter_eq.
  destruct (lookup_lt_is_Some_2
              (alter hide s (foldl (fun d i => alter hide i d) d fs)) m)
    as [x ->]; [by rewrite length_alter, length_foldl_alter |].
  simpl. apply bool_decide_eq_true. set_solver.
Qed.

Lemma select_all_class Re d d' n c :
  (forall k x y, Re k x y ->
     same_skeleton x y /\ (c ∈ el_classes y <-> c ∈ el_classes x)) ->
  doc_rel Re d d' ->
  select_all d' n (SelClass c) = select_all d n (SelClass c).
Proof.
  intros HRe Hrel. unfold select_all.
  rewrite (descendants_depths d d' n).
  2:{ apply (doc_rel_fmap Re); [| done]. intros k x y H.
      by destruct (HRe k x y H) as [[? _] _]. }
  apply filter_ext_in. intros i Hi. apply list_elem_of_In in Hi.
  apply descendants_lt, lookup_lt_is_Some in Hi as [x Hx].
  destruct (doc_rel_lookup Re d d' i x Hrel Hx) as (y & Hy & Hxy).
  unfold matches_at. rewrite Hx, Hy. simpl.
  apply bool_decide_ext. by destruct (HRe i x y Hxy) as [_ ?].
Qed.

Lemma select_all_validated d f c :
  markup_ok d = true -> c <> input_error ->
  select_all (validated d) f (SelClass c) = select_all d f (SelClass c).
Proof.
  intros H Hc. apply (select_all_class keeps_classes).
  - intros k x y [Hs Hcl]. split; [done | by apply Hcl].
  - exact (validated_evolves (fresh d) H).
Qed.

Lemma select_all_hidden d l f c :
  select_all (foldl (fun d i => alter hide i d) d l) f (SelClass c) =
  select_all d f (SelClass c).
Proof.
  apply (select_all_class only_display); [| apply foldl_hide_rel].
  intros k x y (H1 & H2 & H3 & _). split; [done | by rewrite H3].
Qed.

End SubmitValid.

Section SubmitValidRun.

Lemma doc_rel_mono (Re Re' : nat -> element -> element -> Prop) d d' :
  (forall n x y, Re n x y -> Re' n x y) -> doc_rel Re d d' -> doc_rel Re' d d'.
Proof. intros Hsub [L H]. split; [done |]. eauto. Qed.

Lemma same_value_refl n x : same_value n x x.
Proof. done. Qed.

Lemma same_value_trans n x y z :
  same_value n x y -> same_value n y z -> same_value n x z.
Proof. unfold same_value. congruence. Qed.

Lemma validated_values d : doc_rel same_value d (validated d).
Proof.
  split; [apply length_foldl_shown |]. intros n x y Hx Hy.
  destruct (foldl_framed (bindings d) d n x Hx) as (y' & Hy' & F).
  unfold validated in Hy. rewrite Hy' in Hy. injection Hy as <-.
  by destruct F as (_ & _ & ? & _).
Qed.

Lemma submitted_doc_values d fs s m : doc_rel same_value d (submitted_doc d fs s m).
Proof.
  unfold submitted_doc.
  eapply (doc_rel_trans _ same_value_refl same_value_trans);
    [| by apply doc_rel_alter].
  eapply (doc_rel_trans _ same_value_refl same_value_trans);
    [| by apply doc_rel_alter].
  eapply doc_rel_mono; [| apply foldl_hide_rel].
  by intros n x y (_ & _ & _ & _ & ? & _).
Qed.

Lemma value_of_doc_rel d d' r :
  doc_rel same_value d d' -> value_of d' r = value_of d r.
Proof.
  intros Hrel. unfold value_of. destruct r as [n|]; simpl; [| done].
  destruct (d !! n) as [x|] eqn:Hx.
  - by destruct (doc_rel_lookup _ d d' n x Hrel Hx) as (y & -> & ?).
  - destruct Hrel as [L _]. rewrite (lookup_ge_None_2 d' n); [done |].
    rewrite L. by apply lookup_ge_None.
Qed.

Lemma field_lookup d (d' : list element) (r : ref) :
  markup_ok d = true -> r ∈ field_refs d -> length d' = length d ->
  is_Some (n ← r; d' !! n).
Proof.
  intros H Hr L. apply list_elem_of_fmap in Hr as (b & -> & Hb).
  pose proof (markup_resolved d H) as Hres.
  assert (Hb' : resolved d b = true) by by eapply Forall_forall in Hres.
  apply resolved_inv in Hb' as (f & e & ef & ee & -> & _ & Hf & _).
  simpl. apply lookup_lt_is_Some. rewrite L. by eapply lookup_lt_Some.
Qed.

Lemma field_refs_unfold d :
  field_refs d =
    [emailField (env_of d); nameField (env_of d); roleField (env_of d);
     experienceField (env_of d); goalField (env_of d)].
Proof. reflexivity. Qed.

(** Reading the five values back for the log. *)
Lemma read_values d d' w' (k : list (jsstr * jsstr) -> M unit) :
  markup_ok d = true -> w_doc w' = d' -> doc_rel same_value d d' ->
  (vemail ← get_value (emailField (env_of d));
   vname ← get_value (nameField (env_of d));
   vrole ← get_value (roleField (env_of d));
   vexperience ← get_value (experienceField (env_of d));
   vgoal ← get_value (goalField (env_of d));
   k [ (lit "email", trim vemail); (lit "name", trim vname);
       (lit "role", trim vrole); (lit "experience", vexperience);
       (lit "goal", vgoal) ]) w' = k (submitted_data d) w'.
Proof.
  intros H Hw Hrel.
  assert (Hget : forall r, r ∈ field_refs d ->
            get_value r w' = (Ret (value_of d r), w')).
  { intros r Hr. rewrite get_value_run.
    - by rewrite Hw, (value_of_doc_rel d d' r Hrel).
    - rewrite Hw. apply (field_lookup d d' r H Hr). by destruct Hrel. }
  rewrite field_refs_unfold in Hget.
  munfold. rewrite !Hget by set_solver. done.
Qed.

(** [handleFormSubmit] when every field is valid. *)
Lemma handleFormSubmit_valid w :
  markup_ok (w_doc w) = true ->
  forallb (fun b => negb (truthy (message_now (w_doc w) b)))
    (bindings (w_doc w)) = true ->
  exists f m s,
    form (env_of (w_doc w)) = Some f /\
    successMessage (env_of (w_doc w)) = Some m /\
    head (select_all (w_doc w) f (SelClass (lit "form__submit"))) = Some s /\
    (m < length (w_doc w))%nat /\ (s < length (w_doc w))%nat /\
    handleFormSubmit (env_of (w_doc w)) w =
      (Ret (),
       World (submitted_doc (validated (w_doc w))
                (select_all (w_doc w) f (SelClass (lit "form__field"))) s m)
         (w_effects w ++
            [PreventDefault; ScrollIntoView m;
             Log (lit "Form submitted successfully:")
               (submitted_data (w_doc w))])
         (w_calls w ++ field_refs (w_doc w)) (w_listeners w)).
Proof.
  intros H Htrue. set (d := w_doc w) in *.
  destruct (markup_form d H) as (f & m & s & Hf & Hm & Hs & _ & _).
  assert (Hml : (m < length d)%nat).
  { unfold env_of in Hm. cbn [successMessage] in Hm. by eapply by_id_lt. }
  assert (Hsl : (s < length d)%nat).
  { apply (select_all_lt d f (SelClass (lit "form__submit"))).
    destruct (select_all _ _ _) as [|a l]; [done |].
    injection Hs as ->. apply elem_of_cons. by left. }
  exists f, m, s. split_and!; try done.
  unfold handleFormSubmit.
  set (body := mbind _ (validateForm (env_of d))).
  change ((preventDefault ≫= fun _ => body) w)
    with (body (preventDefault w).2).
  subst body. unfold mbind at 1. unfold M_bind.
  unfold d at 1. rewrite (validateForm_after_preventDefault w H). fold d.
  rewrite Htrue. cbn [negb].
  set (w2 := World _ _ _ _).
  set (fs := select_all d f (SelClass (lit "form__field"))).
  assert (Hshow : showSuccessMessage (env_of d) w2 =
    (Ret (), World (submitted_doc (validated d) fs s m)
               (w_effects w ++ [PreventDefault; ScrollIntoView m])
               (w_calls w ++ field_refs d) (w_listeners w))).
  { subst w2. unfold showSuccessMessage. rewrite Hf, Hm.
    unfold querySelector, querySelectorAll. unfold mbind at 1. unfold M_bind.
    cbn [w_doc]. rewrite (select_all_validated d f _ H) by discriminate.
    fold fs. unfold mbind at 1. unfold M_bind.
    unfold set_style_display.
    rewrite forEach_update_run.
    2:{ cbn [w_doc]. apply Forall_forall. intros i Hi.
        unfold validated. rewrite length_foldl_shown.
        by apply (select_all_lt d f (SelClass (lit "form__field"))). }
    unfold with_doc. cbn [w_doc w_effects w_calls w_listeners].
    munfold. cbn [w_doc].
    change (set_display (lit "none")) with hide.
    rewrite select_all_hidden, (select_all_validated d f _ H) by discriminate.
    rewrite Hs.
    set (d3 := foldl _ (validated d) fs).
    assert (L3 : length d3 = length d).
    { unfold d3, validated. by rewrite length_foldl_alter, length_foldl_shown. }
    destruct (lookup_lt_is_Some_2 d3 s) as [x3 Hx3]; [by rewrite L3 |].
    rewrite (update_run _ s _ x3) by done.
    unfold with_doc. cbn [w_doc w_effects w_calls w_listeners].
    destruct (lookup_lt_is_Some_2 (alter hide s d3) m)
      as [x4 Hx4]; [by rewrite length_alter, L3 |].
    unfold classList_add.
    rewrite (update_run _ m _ x4) by done.
    unfold with_doc, scrollIntoView, emit.
    cbn [w_doc w_effects w_calls w_listeners].
    by rewrite <- app_assoc. }
  unfold mbind at 1. unfold M_bind. rewrite Hshow.
  set (w5 := World _ _ _ _).
  rewrite (read_values d (w_doc w5) w5 _ H eq_refl).
  2:{ eapply (doc_rel_trans _ same_value_refl same_value_trans);
        [apply validated_values | apply submitted_doc_values]. }
  unfold console_log, emit. cbn [w_doc w_effects w_calls w_listeners w5].
  by rewrite <- app_assoc.
Qed.

End SubmitValidRun.

(** ** Loading the page *)

Section Init.

Lemma setup_listeners all bs : forall w,
  (forall b, b ∈ bs -> b ∈ all) ->
  exists ls,
    Forall (field_listener all) ls /\
    (forEach bs (fun b =>
       addEventListener (field b) Blur (OnBlur b);;
       addEventListener (field b) Input (OnInput b)) w).2 =
      World (w_doc w) (w_effects w) (w_calls w) (w_listeners w ++ ls).
Proof.
  induction bs as [|b bs IH]; intros w Hsub.
  - exists []. split; [constructor |]. simpl. rewrite app_nil_r. by destruct w.
  - cbn [forEach]. rewrite bind_run.
    destruct (field b) as [n|] eqn:Hb.
    + unfold addEventListener at 1 2. munfold.
      cbn [w_doc w_effects w_calls w_listeners].
      match goal with
      | |- context [ forEach bs ?k ?w1 ] =>
          destruct (IH w1) as (ls & Hls & ->)
      end.
      { intros b' Hb'. apply Hsub, elem_of_cons. by right. }
      cbn [w_doc w_effects w_calls w_listeners].
      exists ([(n, Blur, OnBlur b); (n, Input, OnInput b)] ++ ls).
      split; [| by rewrite <- !app_assoc].
      assert (b ∈ all) by (apply Hsub, elem_of_cons; by left).
      by repeat constructor.
    + exists []. split; [constructor |]. unfold addEventListener. munfold.
      simpl. rewrite app_nil_r. by destruct w.
Qed.

Lemma init_with_form d f :
  by_id d (lit "waitlist-form") = Some f ->
  initFormValidation (fresh d) =
    (setupRealTimeValidation (env_of d);;
     addEventListener (Some f) Submit (OnSubmit (env_of d));;
     console_log (lit "Form validation initialized") []) (fresh d).
Proof.
  intros H. unfold initFormValidation, getElementById. munfold.
  cbn [fresh w_doc]. rewrite H. unfold env_of. by rewrite H.
Qed.

Lemma init_without_form d :
  by_id d (lit "waitlist-form") = None ->
  initFormValidation (fresh d) =
    (Ret (), World d [Warn (lit "Waitlist form not found")] [] []).
Proof.
  intros H. unfold initFormValidation, getElementById. munfold.
  cbn [fresh w_doc]. by rewrite H.
Qed.

(** What [initFormValidation] registers, and that it leaves the
    document alone. *)
Lemma init_listeners d :
  w_doc (page_loaded d) = d /\ w_calls (page_loaded d) = [] /\
  installed d (w_listeners (page_loaded d)).
Proof.
  unfold page_loaded.
  destruct (by_id d (lit "waitlist-form")) as [f|] eqn:Hform.
  - rewrite (init_with_form d f Hform).
    unfold setupRealTimeValidation. rewrite bind_run.
    destruct (setup_listeners (bindings d)
                (Object_values (fieldValidations (env_of d)))
                (fresh d) (fun b Hb => Hb)) as (ls & Hls & Hrun).
    destruct (forEach _ _ (fresh d)) as [[[]|] w2]; cbn [snd] in Hrun;
      subst w2.
    + unfold addEventListener, console_log, emit. munfold.
      cbn [snd fresh w_doc w_effects w_calls w_listeners app].
      split; [done |]. split; [done |].
      exists ls. split; [done |]. right. exists f. split; [| done].
      unfold env_of. cbn [form]. done.
    + cbn [snd fresh w_doc w_calls w_listeners app].
      split; [done |]. split; [done |].
      exists ls. split; [done |]. by left.
  - rewrite (init_without_form d Hform). cbn [snd w_doc w_calls w_listeners].
    split; [done |]. split; [done |]. exists []. split; [constructor | by left].
Qed.

Lemma handlers_at_app ls ls' n ev :
  handlers_at (ls ++ ls') n ev = handlers_at ls n ev ++ handlers_at ls' n ev.
Proof. unfold handlers_at. by rewrite List.filter_app, List.map_app. Qed.

Lemma handlers_at_field (bs : list binding) ls n ev :
  Forall (field_listener bs) ls ->
  Forall (fun h => match ev with
                   | Blur => exists b, h = OnBlur b /\ b ∈ bs /\ field b = Some n
                   | Input => exists b, h = OnInput b /\ b ∈ bs /\ field b = Some n
                   | Submit => False
                   end) (handlers_at ls n ev).
Proof.
  induction 1 as [|[[k ev'] h] ls Hl _ IH]; [constructor |].
  unfold handlers_at. cbn [List.filter fst snd].
  destruct (bool_decide (k = n) && bool_decide (ev' = ev)) eqn:E; [| exact IH].
  apply andb_true_iff in E as [E1 E]. apply bool_decide_eq_true in E, E1.
  subst ev' k.
  cbn [map]. constructor; [| exact IH].
  destruct ev, h; simpl in Hl; try done; by eexists.
Qed.

Lemma handlers_at_field_submit bs ls n :
  Forall (field_listener bs) ls -> handlers_at ls n Submit = [].
Proof.
  intros H. pose proof (handlers_at_field bs ls n Submit H) as Hf.
  destruct (handlers_at ls n Submit); [done |]. by inversion Hf.
Qed.

End Init.

(** ** The phase of the form *)

Section Phase.

Lemma stable_forEach_Forall Re
    (Re_refl : forall n x, Re n x x)
    (Re_trans : forall n x y z, Re n x y -> Re n y z -> Re n x z)
    {A} (l : list A) (k : A -> M unit) :
  Forall (fun a => stable (evolves Re) (k a)) l ->
  stable (evolves Re) (forEach l k).
Proof.
  induction 1 as [|a l Ha _ IH]; cbn [forEach].
  - by apply stable_ret.
  - apply stable_bind; [done | done | exact Ha | by intros _].
Qed.

Lemma dispatch_evolves Re
    (Re_refl : forall n x, Re n x x)
    (Re_trans : forall n x y z, Re n x y -> Re n y z -> Re n x z) n ev w :
  Forall (fun h => stable (evolves Re) (run_handler h))
    (handlers_at (w_listeners w) n ev) ->
  evolves Re w (dispatch n ev w).2.
Proof.
  intros H. unfold dispatch.
  apply (stable_forEach_Forall Re Re_refl Re_trans).
  eapply Forall_impl; [exact H |]. intros h Hh. by apply stable_attempt.
Qed.

(** On a loaded page, however the user got there, the listeners are
    those the script registered, and the script's references are those
    it resolved. *)
Lemma loaded_page d acts :
  let w := run acts (page_loaded d) in
  env_of (w_doc w) = env_of d /\ installed d (w_listeners w).
Proof.
  cbv zeta. pose proof (evolves_run acts (page_loaded d)) as Hev.
  destruct (init_listeners d) as (Hdoc & _ & ls & Hls & Hcase).
  split.
  - rewrite (env_of_evolves _ _ Hev). by rewrite Hdoc.
  - destruct Hev as (_ & -> & _). by exists ls.
Qed.

Lemma field_handlers_stable (bs : list binding) n hs ev :
  Forall (fun h => match ev with
                   | Blur => exists b, h = OnBlur b /\ b ∈ bs /\ field b = Some n
                   | Input => exists b, h = OnInput b /\ b ∈ bs /\ field b = Some n
                   | Submit => False
                   end) hs ->
  Forall (fun h => stable (evolves keeps_classes) (run_handler h)) hs.
Proof.
  intros H. eapply Forall_impl; [exact H |]. intros h Hh.
  destruct ev; [| | done]; destruct Hh as (b & -> & _); cbn [run_handler].
  - apply stable_onFieldBlur.
  - apply stable_onFieldInput.
Qed.

(** Blur and input events reveal nothing. *)
Lemma field_event_phase d w n ev :
  installed d (w_listeners w) -> ev <> Submit ->
  evolves keeps_classes w (dispatch n ev w).2.
Proof.
  intros (ls & Hls & Hcase) Hev.
  apply (dispatch_evolves _ keeps_classes_refl keeps_classes_trans).
  apply (field_handlers_stable (bindings d) n _ ev).
  destruct Hcase as [-> | (f & _ & ->)].
  - by apply handlers_at_field.
  - rewrite handlers_at_app. apply Forall_app. split.
    + by apply handlers_at_field.
    + unfold handlers_at. cbn [List.filter fst snd].
      rewrite (bool_decide_eq_false_2 (Submit = ev)) by congruence.
      rewrite andb_false_r. constructor.
Qed.

(** A submit event runs [handleFormSubmit], once, if it is the waitlist
    form that is submitted, and nothing otherwise. *)
Lemma submit_event d w n :
  installed d (w_listeners w) -> env_of (w_doc w) = env_of d ->
  (dispatch n Submit w).2 = w \/
  (form (env_of (w_doc w)) = Some n /\
   (dispatch n Submit w).2 = (handleFormSubmit (env_of (w_doc w)) w).2).
Proof.
  intros (ls & Hls & Hcase) Henv.
  unfold dispatch.
  destruct Hcase as [-> | (f & Hf & ->)].
  - left. by rewrite (handlers_at_field_submit _ ls n Hls).
  - rewrite handlers_at_app, (handlers_at_field_submit _ ls n Hls).
    unfold handlers_at. cbn [List.filter fst snd app].
    rewrite (bool_decide_eq_true_2 (Submit = Submit)) by done.
    rewrite andb_true_r. destruct (decide (f = n)) as [->|Hne].
    + right. rewrite (bool_decide_eq_true_2 (n = n)) by done.
      rewrite Henv. split; [done |]. reflexivity.
    + left. by rewrite (bool_decide_eq_false_2 (f = n)) by done.
Qed.

(** [handleFormSubmit] changes the phase only if [validateForm]
    returned true. *)
Lemma handleFormSubmit_phase e w :
  phase_of (handleFormSubmit e w).2 <> phase_of w ->
  (validateForm e (preventDefault w).2).1 = Ret true.
Proof.
  intros Hph.
  assert (Hpd : evolves keeps_classes w (preventDefault w).2).
  { apply (stable_emit _ keeps_classes_refl). }
  pose proof (stable_validateForm e (preventDefault w).2) as Hvf.
  assert (Hst : evolves keeps_classes w
                  (validateForm e (preventDefault w).2).2).
  { by eapply (evolves_trans _ keeps_classes_refl keeps_classes_trans). }
  unfold handleFormSubmit in Hph.
  set (body := mbind _ (validateForm e)) in Hph.
  change ((preventDefault ≫= fun _ => body) w)
    with (body (preventDefault w).2) in Hph.
  subst body. rewrite bind_run in Hph.
  destruct (validateForm e (preventDefault w).2) as [[[|]|] w2];
    cbn [fst snd negb] in *.
  - done.
  - destruct Hph. apply phase_same.
    eapply (evolves_trans _ keeps_classes_refl keeps_classes_trans);
      [exact Hst |].
    match goal with
    | |- evolves _ w2 (?m w2).2 =>
        assert (Hm : stable (evolves keeps_classes) m)
    end.
    { stable_steps keeps_classes_refl keeps_classes_trans. }
    apply Hm.
  - destruct Hph. by apply phase_same.
Qed.

End Phase.

(** ** The listeners of a control *)

Section Listeners.

Lemma marked_invalid_ui d b :
  marked_invalid d (field b) =
    bool_decide (ui_flag (ui_of d b) = Some (lit "true")).
Proof. reflexivity. Qed.

Lemma onFieldBlur_run w b :
  resolved (w_doc w) b = true ->
  onFieldBlur b w = (Ret (), (validateField (field b) (error b) (rules b) w).2).
Proof.
  intros Hr. destruct (validateField_resolved w b Hr) as (f & e & _ & _ & _ & _ & Hrun).
  unfold onFieldBlur. rewrite bind_run. by rewrite Hrun.
Qed.

Lemma onFieldInput_run w b :
  resolved (w_doc w) b = true ->
  onFieldInput b w =
    if marked_invalid (w_doc w) (field b)
    then (Ret (), (validateField (field b) (error b) (rules b) w).2)
    else (Ret (), w).
Proof.
  intros Hr.
  destruct (validateField_resolved w b Hr) as (f & e & Hf & _ & Hlf & _ & Hrun).
  apply lookup_lt_is_Some in Hlf as [ef Hef].
  unfold onFieldInput, getAttribute, deref, marked_invalid.
  rewrite !bind_run. rewrite Hf. simpl. rewrite Hef. simpl.
  destruct (bool_decide _); [| done].
  rewrite bind_run. rewrite <- Hf. by rewrite Hrun.
Qed.

(** The input listener of a control not marked invalid does nothing. *)
Lemma input_noop w b :
  marked_invalid (w_doc w) (field b) = false ->
  (attempt (onFieldInput b) w).2 = w.
Proof.
  intros Hm. unfold attempt, onFieldInput, getAttribute, deref, marked_invalid in *.
  cbn [snd]. rewrite !bind_run.
  destruct (field b) as [n|]; simpl in *; [| done].
  destruct (w_doc w !! n) as [x|]; simpl in *; [| done].
  by rewrite Hm.
Qed.

Lemma ui_of_set_value d n v b : ui_of (alter (set_value v) n d) b = ui_of d b.
Proof.
  assert (H : forall k : nat,
    alter (set_value v) n d !! k =
      (fun x => if decide (n = k) then set_value v x else x) <$> d !! k).
  { intros k. rewrite list_lookup_alter.
    destruct (decide (n = k)) as [->|]; [done |]. by destruct (d !! k). }
  unfold ui_of. f_equal.
  - destruct (field b) as [k|]; simpl; [| done]. rewrite H.
    destruct (d !! k); simpl; [| done]. by destruct (decide (n = k)).
  - destruct (field b) as [k|]; simpl; [| done]. rewrite H.
    destruct (d !! k); simpl; [| done]. by destruct (decide (n = k)).
  - destruct (error b) as [k|]; simpl; [| done]. rewrite H.
    destruct (d !! k); simpl; [| done]. by destruct (decide (n = k)).
Qed.

End Listeners.

(** ** The markup contract holds for as long as the page lives *)

Section MarkupInvariant.

Context (d : list element).

Let fp := field_positions d.

Lemma page_step_refl n x : page_step fp n x x.
Proof. done. Qed.

Lemma page_step_trans n x y z :
  page_step fp n x y -> page_step fp n y z -> page_step fp n x z.
Proof.
  intros [K1 A1] [K2 A2]. split; [by eapply keeps_visible_trans |].
  intros Hn. by rewrite A2, A1.
Qed.

Lemma stable_validateField_page f e r :
  (forall n, f = Some n -> n ∈ fp) ->
  stable (evolves (page_step fp)) (validateField f e r).
Proof.
  intros Hf.
  unfold validateField, setAttribute, classList_add, classList_remove,
    set_textContent.
  stable_steps page_step_refl page_step_trans;
    apply (stable_update _ page_step_refl); intros n x Hn;
    (split; [| try done; intros Hnot; destruct Hnot; by apply Hf]);
    (split; [done |]); simpl; try done;
    (split; [intros c Hc Hv; set_solver | set_solver]).
Qed.

Lemma binding_field_position b n :
  b ∈ bindings d -> field b = Some n -> n ∈ fp.
Proof.
  intros Hb Hn. apply elem_of_field_positions. rewrite <- Hn.
  by apply list_elem_of_fmap_2.
Qed.

Lemma stable_validateForm_page :
  stable (evolves (page_step fp)) (validateForm (env_of d)).
Proof.
  rewrite validateForm_unfold. fold (bindings d).
  assert (H : forall bs, (forall b, b ∈ bs -> b ∈ bindings d) ->
            forall s, stable (evolves (page_step fp))
                        (forEach_with bs validate_step s)).
  { induction bs as [|b bs IH]; intros Hsub s; cbn [forEach_with].
    - by apply stable_ret.
    - apply (stable_bind _ page_step_refl page_step_trans).
      + unfold validate_step.
        apply (stable_bind _ page_step_refl page_step_trans);
          [| intros; by apply stable_ret].
        apply stable_validateField_page. intros n Hn.
        apply (binding_field_position b n); [| done].
        apply Hsub, elem_of_cons. by left.
      + intros s'. apply IH. intros b' Hb'. apply Hsub, elem_of_cons. by right. }
  by apply H.
Qed.

Lemma stable_handleFormSubmit_page :
  stable (evolves (page_step fp)) (handleFormSubmit (env_of d)).
Proof.
  unfold handleFormSubmit, preventDefault, console_log.
  apply (stable_bind _ page_step_refl page_step_trans);
    [by apply stable_emit |]. intros _.
  apply (stable_bind _ page_step_refl page_step_trans);
    [apply stable_validateForm_page |].
  intros isValid. destruct (negb isValid).
  - stable_steps page_step_refl page_step_trans.
  - unfold showSuccessMessage, set_style_display, classList_add.
    stable_steps page_step_refl page_step_trans;
      apply (stable_update _ page_step_refl); intros n x _;
      (split; [| done]); (split; [done |]); simpl; try done.
    split; [| set_solver]. intros c Hc Hv. set_solver.
Qed.

Lemma stable_dispatch_page w n ev :
  installed d (w_listeners w) ->
  evolves (page_step fp) w (dispatch n ev w).2.
Proof.
  intros (ls & Hls & Hcase).
  apply (dispatch_evolves _ page_step_refl page_step_trans).
  assert (Hf : Forall (fun h => stable (evolves (page_step fp)) (run_handler h))
                 (handlers_at ls n ev)).
  { eapply Forall_impl; [exact (handlers_at_field _ ls n ev Hls) |].
    intros h Hh. destruct ev; [| | done];
      destruct Hh as (b & -> & Hb & Hn); cbn [run_handler].
    - unfold onFieldBlur.
      apply (stable_bind _ page_step_refl page_step_trans);
        [| intros; by apply stable_ret].
      apply stable_validateField_page. intros k Hk.
      by apply (binding_field_position b k).
    - unfold onFieldInput.
      apply (stable_bind _ page_step_refl page_step_trans);
        [apply (stable_getAttribute _ page_step_refl page_step_trans) |].
      intros a. destruct (bool_decide _); [| by apply stable_ret].
      apply (stable_bind _ page_step_refl page_step_trans);
        [| intros; by apply stable_ret].
      apply stable_validateField_page. intros k Hk.
      by apply (binding_field_position b k). }
  destruct Hcase as [-> | (f & _ & ->)]; [done |].
  rewrite handlers_at_app. apply Forall_app. split; [done |].
  unfold handlers_at. cbn [List.filter fst snd].
  destruct (bool_decide (f = n) && bool_decide (Submit = ev)); cbn [map];
    [| constructor].
  constructor; [| constructor]. apply stable_handleFormSubmit_page.
Qed.

Lemma stable_perform_page w a :
  installed d (w_listeners w) ->
  evolves (page_step fp) w (perform a w).2.
Proof.
  intros Hinst. destruct a as [n v|n|n]; cbn [perform];
    try by apply stable_dispatch_page.
  rewrite bind_run.
  assert (Hup : evolves (page_step fp) w (update (Some n) (set_value v) w).2).
  { by apply (stable_update _ page_step_refl). }
  destruct (update (Some n) (set_value v) w) as [[[]|] w1]; cbn [snd] in *;
    [| done].
  eapply (evolves_trans _ page_step_refl page_step_trans); [exact Hup |].
  apply stable_dispatch_page. by destruct Hup as (_ & -> & _).
Qed.

Lemma evolves_run_page acts : forall w,
  installed d (w_listeners w) -> evolves (page_step fp) w (run acts w).
Proof.
  induction acts as [|a acts IH]; intros w Hinst; cbn [run].
  - by apply evolves_refl.
  - pose proof (stable_perform_page w a Hinst) as Hstep.
    eapply (evolves_trans _ page_step_refl page_step_trans); [exact Hstep |].
    apply IH. by destruct Hstep as (_ & -> & _).
Qed.

(** A document a page step away from a well-formed one is well-formed. *)
Lemma markup_ok_step d' :
  markup_ok d = true -> doc_rel (page_step fp) d d' -> markup_ok d' = true.
Proof.
  intros H Hrel.
  assert (Hkeep : doc_rel keeps_visible d d').
  { eapply doc_rel_mono; [| exact Hrel]. by intros n x y [? _]. }
  assert (Hids : el_id <$> d' = el_id <$> d).
  { apply (doc_rel_fmap keeps_visible); [| done]. by intros n x y [[_ ?] _]. }
  assert (Hdepths : el_depth <$> d' = el_depth <$> d).
  { apply (doc_rel_fmap keeps_visible); [| done]. by intros n x y [[? _] _]. }
  assert (Henv : env_of d' = env_of d) by by apply env_of_ids.
  assert (Hfp : field_positions d' = fp).
  { unfold fp, field_positions, field_refs, bindings. by rewrite Henv. }
  destruct (markup_form d H) as (f & m & s & Hf & Hm & Hs & Hfilter & Hinv).
  pose proof H as H0. unfold markup_ok in H0 |- *.
  unfold field_refs, error_refs, bindings in *. rewrite Henv, Hf in *.
  fold (bindings d) in *. fold (field_refs d) in *. fold (error_refs d) in *.
  rewrite Hfp. rewrite (descendants_depths d d' f Hdepths).
  repeat match goal with
         | H' : _ && _ = true |- _ => apply andb_true_iff in H' as [? ?]
         end.
  apply andb_true_iff; split; [apply andb_true_iff; split;
    [apply andb_true_iff; split; [apply andb_true_iff; split;
      [apply andb_true_iff; split |] |] |] |]; try done.
  - apply forallb_true_iff. intros i Hi.
    destruct (decide (i ∈ fp)) as [Hin|Hn].
    + rewrite (bool_decide_eq_true_2 _ Hin). apply implb_true_r.
    + replace (matches_at d' invalid_sel i) with (matches_at d invalid_sel i).
      * match goal with
        | H' : forallb _ (descendants d f) = true |- _ =>
            rewrite forallb_true_iff in H'; by apply H'
        end.
      * unfold matches_at.
        pose proof (descendants_lt d f i Hi) as Hlt.
        apply lookup_lt_is_Some in Hlt as [x Hx].
        destruct (doc_rel_lookup _ d d' i x Hrel Hx) as (y & Hy & _ & Ha).
        rewrite Hx, Hy. simpl. by rewrite (Ha Hn).
  - apply bool_decide_eq_true.
    rewrite (select_all_class keeps_visible d d' f (lit "form__submit"));
      [by rewrite Hs | | done].
    intros k x y (Hsk & Hc & _). split; [done |]. by apply Hc.
Qed.

(** However the user got there, the page of a well-formed document is
    well-formed. *)
Lemma markup_ok_run acts :
  markup_ok d = true -> markup_ok (w_doc (run acts (page_loaded d))) = true.
Proof.
  intros H. destruct (init_listeners d) as (Hdoc & _ & Hinst).
  apply markup_ok_step; [done |].
  destruct (evolves_run_page acts (page_loaded d) Hinst) as [Hrel _].
  by rewrite Hdoc in Hrel.
Qed.

End MarkupInvariant.

(** ** The loaded page of a well-formed document *)

Section Loaded.

Lemma setup_ok bs : forall w,
  Forall (fun b => is_Some (field b)) bs ->
  (forEach bs (fun b =>
     addEventListener (field b) Blur (OnBlur b);;
     addEventListener (field b) Input (OnInput b)) w).1 = Ret ().
Proof.
  induction bs as [|b bs IH]; intros w Hall; [done |].
  apply Forall_cons in Hall as [[n Hn] Hall].
  cbn [forEach]. rewrite bind_run, Hn.
  unfold addEventListener at 1 2. munfold. by apply IH.
Qed.

(** On a well-formed document the script runs to its end and registers
    the submit listener of the form. *)
Lemma init_ok d :
  markup_ok d = true ->
  exists ls f,
    Forall (field_listener (bindings d)) ls /\
    form (env_of d) = Some f /\
    (initFormValidation (fresh d)).1 = Ret () /\
    w_listeners (page_loaded d) = ls ++ [(f, Submit, OnSubmit (env_of d))].
Proof.
  intros H. destruct (markup_form d H) as (f & _ & _ & Hf & _).
  assert (Hform : by_id d (lit "waitlist-form") = Some f) by exact Hf.
  assert (Hfields : Forall (fun b => is_Some (field b)) (bindings d)).
  { eapply Forall_impl; [exact (markup_resolved d H) |].
    intros b (k & e & _ & _ & -> & _)%resolved_inv. by eexists. }
  unfold page_loaded. rewrite (init_with_form d f Hform).
  unfold setupRealTimeValidation. rewrite bind_run.
  fold (bindings d).
  destruct (setup_listeners (bindings d) (bindings d) (fresh d)
              (fun b Hb => Hb)) as (ls & Hls & Hrun).
  pose proof (setup_ok (bindings d) (fresh d) Hfields) as Hret.
  destruct (forEach (bindings d) _ (fresh d)) as [o w2].
  cbn [fst snd] in Hret, Hrun. subst o w2.
  exists ls, f. split_and!; try done.
Qed.

(** Submitting the form of a well-formed page runs [handleFormSubmit]. *)
Lemma submit_loaded d acts f :
  markup_ok d = true -> form (env_of d) = Some f ->
  let w := run acts (page_loaded d) in
  (perform (UserSubmits f) w).2 = (handleFormSubmit (env_of (w_doc w)) w).2.
Proof.
  intros H Hf. cbv zeta.
  destruct (init_ok d H) as (ls & f' & Hls & Hf' & _ & HL).
  assert (f' = f) as -> by congruence.
  destruct (loaded_page d acts) as [Henv _].
  pose proof (evolves_run acts (page_loaded d)) as (_ & HL' & _).
  cbn [perform]. unfold dispatch. rewrite HL', HL.
  rewrite handlers_at_app, (handlers_at_field_submit _ ls f Hls).
  unfold handlers_at. cbn [List.filter fst snd app].
  rewrite !bool_decide_eq_true_2 by done. cbn [andb map forEach].
  by rewrite Henv.
Qed.

End Loaded.

(** ** A field that is neither blurred nor submitted *)

Section Untouched.

Context (d : list element) (b : binding) (n : nat).
Context (Hok : markup_ok d = true) (Hb : b ∈ bindings d).
Context (Hn : field b = Some n).

Lemma resolved_length (d1 d2 : list element) b' :
  length d1 = length d2 -> resolved d1 b' = resolved d2 b'.
Proof.
  intros L. unfold resolved.
  assert (H : forall r : ref,
    bool_decide (is_Some (k ← r; d1 !! k)) =
    bool_decide (is_Some (k ← r; d2 !! k))).
  { intros [k|]; simpl; [| done]. apply bool_decide_ext.
    by rewrite !lookup_lt_is_Some, L. }
  by rewrite !H.
Qed.

Lemma untouched_resolved w b' :
  untouched d b w -> b' ∈ bindings d -> resolved (w_doc w) b' = true.
Proof.
  intros (_ & L & _) Hb'. rewrite (resolved_length _ d b' L).
  pose proof (markup_resolved d Hok) as Hres.
  by eapply Forall_forall in Hres.
Qed.

(** Validating another field leaves [b] untouched. *)
Lemma untouched_validate_other w b' :
  untouched d b w -> b' ∈ bindings d -> field b' <> field b ->
  untouched d b (validateField (field b') (error b') (rules b') w).2.
Proof.
  intros Hu Hb' Hne. pose proof (untouched_resolved w b' Hu Hb') as Hr.
  destruct Hu as (Hi & L & Hui & Hc).
  destruct (validateField_resolved w b' Hr)
    as (f & e & Hf & He & _ & _ & ->).
  unfold untouched. cbn [snd w_doc w_calls w_listeners]. split_and!.
  - done.
  - by rewrite length_shown.
  - rewrite ui_of_shown_other; [done | congruence |].
    rewrite <- He. intros Heq. apply Hne. f_equal.
    eapply (NoDup_fmap_eq error); eauto. by apply markup_NoDup_errors.
  - rewrite elem_of_app. intros [?|Hin]; [done |].
    apply list_elem_of_singleton in Hin. congruence.
Qed.

Lemma same_field b' : b' ∈ bindings d -> field b' = field b -> b' = b.
Proof.
  intros Hb' Heq. eapply (NoDup_fmap_eq field); eauto.
  by apply markup_NoDup_fields.
Qed.

Lemma untouched_marked w :
  untouched d b w -> marked_invalid d (field b) = false ->
  marked_invalid (w_doc w) (field b) = false.
Proof.
  intros (_ & _ & Hui & _) Hm. by rewrite marked_invalid_ui, Hui, <- marked_invalid_ui.
Qed.

Lemma untouched_input w b' :
  marked_invalid d (field b) = false ->
  untouched d b w -> b' ∈ bindings d ->
  untouched d b (attempt (onFieldInput b') w).2.
Proof.
  intros Hm Hu Hb'. destruct (decide (field b' = field b)) as [Heq|Hne].
  - rewrite (same_field b' Hb' Heq).
    rewrite input_noop; [done | by apply untouched_marked].
  - unfold attempt. cbn [snd].
    rewrite (onFieldInput_run w b' (untouched_resolved w b' Hu Hb')).
    destruct (marked_invalid (w_doc w) (field b')); [| done].
    by apply untouched_validate_other.
Qed.

Lemma untouched_blur w b' :
  untouched d b w -> b' ∈ bindings d -> field b' <> field b ->
  untouched d b (attempt (onFieldBlur b') w).2.
Proof.
  intros Hu Hb' Hne. unfold attempt. cbn [snd].
  rewrite (onFieldBlur_run w b' (untouched_resolved w b' Hu Hb')).
  by apply untouched_validate_other.
Qed.

Lemma untouched_forEach hs (P : handler -> Prop) : forall w,
  (forall h w, P h -> untouched d b w -> untouched d b (attempt (run_handler h) w).2) ->
  Forall P hs -> untouched d b w ->
  untouched d b (forEach hs (fun h => attempt (run_handler h)) w).2.
Proof.
  intros w Hstep Hall. revert w.
  induction Hall as [|h hs Hh _ IH]; intros w Hu; [done |].
  cbn [forEach]. rewrite bind_run.
  pose proof (Hstep h w Hh Hu) as Hu1.
  unfold attempt at 1. unfold attempt in Hu1. cbn [snd] in Hu1.
  by apply IH.
Qed.

Lemma handlers_of_page w k ev :
  installed d (w_listeners w) -> ev <> Submit ->
  Forall (fun h => match ev with
                   | Blur => exists b', h = OnBlur b' /\ b' ∈ bindings d /\
                                        field b' = Some k
                   | Input => exists b', h = OnInput b' /\ b' ∈ bindings d /\
                                         field b' = Some k
                   | Submit => False
                   end) (handlers_at (w_listeners w) k ev).
Proof.
  intros (ls & Hls & Hcase) Hev.
  destruct Hcase as [-> | (f & _ & ->)]; [by apply handlers_at_field |].
  rewrite handlers_at_app. apply Forall_app. split;
    [by apply handlers_at_field |].
  unfold handlers_at. cbn [List.filter fst snd].
  rewrite (bool_decide_eq_false_2 (Submit = ev)) by congruence.
  rewrite andb_false_r. constructor.
Qed.

Lemma untouched_perform w a :
  marked_invalid d (field b) = false ->
  leaves_alone n a = true -> untouched d b w -> untouched d b (perform a w).2.
Proof.
  intros Hm Ha Hu. destruct a as [k v|k|k]; cbn [perform leaves_alone] in *;
    [| | done].
  - rewrite bind_run. unfold update.
    destruct (w_doc w !! k) as [x|] eqn:Hx; [| done].
    set (w1 := with_doc _ w).
    assert (Hu1 : untouched d b w1).
    { destruct Hu as (Hi & L & Hui & Hc). split_and!; try done.
      - cbn [w1 with_doc w_doc]. by rewrite length_alter.
      - cbn [w1 with_doc w_doc]. by rewrite ui_of_set_value. }
    unfold dispatch.
    apply (untouched_forEach _
             (fun h => exists b', h = OnInput b' /\ b' ∈ bindings d /\
                                  field b' = Some k)); [| | done].
    + intros h w' (b' & -> & Hb' & Hk) Hw'. cbn [run_handler].
      by apply untouched_input.
    + apply (handlers_of_page w1 k Input); [by destruct Hu1 | done].
  - apply negb_true_iff, Nat.eqb_neq in Ha. unfold dispatch.
    apply (untouched_forEach _
             (fun h => exists b', h = OnBlur b' /\ b' ∈ bindings d /\
                                  field b' = Some k)); [| | done].
    + intros h w' (b' & -> & Hb' & Hk) Hw'. cbn [run_handler].
      apply untouched_blur; [done | done |]. congruence.
    + apply (handlers_of_page w k Blur); [by destruct Hu | done].
Qed.

Lemma untouched_run acts : forall w,
  marked_invalid d (field b) = false ->
  forallb (leaves_alone n) acts = true ->
  untouched d b w -> untouched d b (run acts w).
Proof.
  induction acts as [|a acts IH]; intros w Hm Hall Hu; [done |].
  cbn [forallb] in Hall. apply andb_true_iff in Hall as [Ha Hall].
  cbn [run]. apply IH; [done | done |]. by apply untouched_perform.
Qed.

Lemma untouched_loaded : untouched d b (page_loaded d).
Proof.
  destruct (init_listeners d) as (Hdoc & Hcalls & Hinst).
  split_and!; try done.
  - by rewrite Hdoc.
  - by rewrite Hdoc.
  - rewrite Hcalls. apply not_elem_of_nil.
Qed.

End Untouched.

(** A field that is not marked invalid at first, and is then neither
    blurred nor submitted, is never validated and shows no validation,
    whatever is typed into it and whatever happens to the other fields. *)
Lemma untouched_field d acts b n :
  markup_ok d = true -> b ∈ bindings d -> field b = Some n ->
  marked_invalid d (field b) = false ->
  forallb (leaves_alone n) acts = true ->
  let w := run acts (page_loaded d) in
  ui_of (w_doc w) b = ui_of d b /\ field b ∉ w_calls w.
Proof.
  intros Hok Hb Hn Hm Hall. cbv zeta.
  destruct (untouched_run d b n Hok Hb Hn acts (page_loaded d) Hm Hall)
    as (_ & _ & Hui & Hc); [| done].
  apply untouched_loaded.
Qed.

Section AnyLayout.

Lemma elements_resolved d :
  elements_present d = true ->
  Forall (fun b => resolved d b = true) (bindings d).
Proof.
  unfold elements_present, field_refs, error_refs, bindings, Object_values,
    fieldValidations.
  cbn [fmap list_fmap snd field error forallb env_of form emailField
       nameField roleField experienceField goalField successMessage
       emailError nameError roleError experienceError goalError].
  destruct (by_id d (lit "waitlist-form")) as [f|]; [| done]. intros H.
  repeat match goal with
         | H' : _ && _ = true |- _ => apply andb_true_iff in H' as [? ?]
         end;
  repeat match goal with
         | H' : bool_decide _ = true |- _ => apply bool_decide_eq_true in H'
         end.
  repeat (apply Forall_cons; split; [by apply resolved_by_id |]).
  constructor.
Qed.

Lemma markup_elements d : markup_ok d = true -> elements_present d = true.
Proof.
  unfold markup_ok, elements_present.
  destruct (form (env_of d)) as [f|]; [| done].
  rewrite !andb_true_iff. tauto.
Qed.

Lemma validateForm_resolved_run w :
  Forall (fun b => resolved (w_doc w) b = true) (bindings (w_doc w)) ->
  validateForm (env_of (w_doc w)) w =
    (Ret (forallb (fun b => negb (truthy (message_now (w_doc w) b)))
            (bindings (w_doc w))),
     World (validated (w_doc w)) (w_effects w)
       (w_calls w ++ field_refs (w_doc w)) (w_listeners w)).
Proof.
  intros Hres. rewrite validateForm_unfold. fold (bindings (w_doc w)).
  by rewrite forEach_with_validate.
Qed.

Lemma validated_keeps d :
  Forall (fun b => resolved d b = true) (bindings d) ->
  doc_rel keeps_classes d (validated d).
Proof.
  intros H. pose proof (stable_validateForm (env_of d) (fresh d)) as [Hd _].
  change (env_of d) with (env_of (w_doc (fresh d))) in Hd.
  by rewrite (validateForm_resolved_run (fresh d) H) in Hd.
Qed.

(** The invalid branch of [handleFormSubmit], wherever the controls
    lie: the focus goes to what [form.querySelector] finds. *)
Lemma handleFormSubmit_invalid_any w f :
  Forall (fun b => resolved (w_doc w) b = true) (bindings (w_doc w)) ->
  form (env_of (w_doc w)) = Some f ->
  forallb (fun b => negb (truthy (message_now (w_doc w) b)))
    (bindings (w_doc w)) = false ->
  handleFormSubmit (env_of (w_doc w)) w =
    (Ret (),
     World (validated (w_doc w))
       (w_effects w ++
        PreventDefault ::
        match head (select_all (validated (w_doc w)) f invalid_sel) with
        | Some n => [Focus n]
        | None => []
        end)
       (w_calls w ++ field_refs (w_doc w)) (w_listeners w)).
Proof.
  intros Hres Hf Hfalse.
  unfold handleFormSubmit. rewrite bind_run, preventDefault_run.
  set (w1 := World (w_doc w) _ _ _).
  pose proof (validateForm_resolved_run w1 Hres) as Hv1.
  cbn [w1 w_doc w_effects w_calls w_listeners] in Hv1.
  rewrite bind_run. subst w1. rewrite Hv1, Hfalse. cbn [negb]. rewrite Hf.
  unfold querySelector, querySelectorAll. munfold. cbn [w_doc].
  fold invalid_sel.
  destruct (head (select_all (validated (w_doc w)) f invalid_sel)) as [n|].
  - unfold focus, emit. cbn [w_doc w_effects w_calls w_listeners].
    by rewrite <- app_assoc.
  - done.
Qed.

End AnyLayout.

(** * The claims of the specification *)

(** C1. [validateField] tries the rules in the fixed order required,
    minimum length, email format, on the trimmed value of the control, and
    stops at the first that fails: the result is invalid and carries the
    message configured for that rule; when no rule fails the result is
    valid and its message is empty. *)
Theorem validateField_priority (w : world) (b : binding) :
  resolved (w_doc w) b = true ->
  messages_configured (rules b) = true ->
  match first_failing (rules b) (trim (value_of (w_doc w) (field b))) with
  | Some k =>
      exists m, configured (rules b) k = Some m /\
        validation_result b w = Some {| valid := false; message := m |}
  | None =>
      validation_result b w = Some {| valid := true; message := [] |}
  end.
Proof.
  intros Hr Hc. rewrite (validation_result_resolved w b Hr).
  unfold message_now.
  pose proof (errorMessage_first_failing (rules b)
                (trim (value_of (w_doc w) (field b))) Hc) as H.
  destruct (first_failing _ _) as [k|].
  - destruct H as (m & Hm & Hne & ->). exists m. split; [done |].
    by apply truthy_true in Hne as ->.
  - by rewrite H.
Qed.

Lemma validateField_priority_witness :
  exists b,
    bindings (sample_page (lit "a@b") [] [] [] []) !! 0%nat = Some b /\
    resolved (sample_page (lit "a@b") [] [] [] []) b = true /\
    messages_configured (rules b) = true /\
    first_failing (rules b) (lit "a@b") = Some EmailRule /\
    validation_result b (fresh (sample_page (lit "a@b") [] [] [] [])) =
      Some {| valid := false;
              message := lit "Please enter a valid email address" |}.
Proof.
  eexists. split; [reflexivity |].
  split; [by vm_compute |]. split; [by vm_compute |].
  split; [by vm_compute |].
  match goal with
  | |- validation_result ?b ?w = _ =>
      pose proof (validateField_priority w b eq_refl eq_refl) as H
  end.
  destruct H as (m & Hm & ->). injection Hm as <-. reflexivity.
Defined.

(** C2. [validateForm] runs [validateField] on each of the five bindings,
    in declaration order and whatever the earlier ones returned, so that
    every field then shows its own validity; it returns true exactly when
    every field is valid, and false exactly when some field is invalid. *)
Theorem validateForm_all_fields (w : world) :
  markup_ok (w_doc w) = true ->
  let d := w_doc w in
  let p := validateForm (env_of d) w in
  exists ok,
    p.1 = Ret ok /\
    length (bindings d) = 5%nat /\
    w_calls p.2 = w_calls w ++ field_refs d /\
    (forall b, b ∈ bindings d ->
       ui_of (w_doc p.2) b =
       ui_of (w_doc (validateField (field b) (error b) (rules b) w).2) b) /\
    (ok = true <->
       forall b, b ∈ bindings d ->
         (validateField (field b) (error b) (rules b) w).1 = Ret true) /\
    (ok = false <->
       exists b, b ∈ bindings d /\
         (validateField (field b) (error b) (rules b) w).1 = Ret false).
Proof.
  intros H. cbv zeta. rewrite (validateForm_run w H).
  set (d := w_doc w) in *.
  pose proof (markup_resolved d H) as Hres.
  assert (Hb : forall b, b ∈ bindings d -> resolved d b = true).
  { by apply Forall_forall. }
  eexists. split; [reflexivity |]. split; [reflexivity |].
  split; [reflexivity |]. cbn [snd w_doc]. split_and!.
  - intros b Hin.
    rewrite (proj2 (validateField_alone w b (Hb b Hin))).
    apply ui_of_foldl; try done.
    + by apply markup_NoDup_fields.
    + by apply markup_NoDup_errors.
  - rewrite forallb_true_iff. split; intros Hall b Hin.
    + rewrite (proj1 (validateField_alone w b (Hb b Hin))).
      fold d. by rewrite (Hall b Hin).
    + specialize (Hall b Hin).
      rewrite (proj1 (validateField_alone w b (Hb b Hin))) in Hall.
      by injection Hall.
  - rewrite forallb_false_iff. split; intros (b & Hin & Hv); exists b;
      (split; [done |]).
    + rewrite (proj1 (validateField_alone w b (Hb b Hin))).
      fold d. by rewrite Hv.
    + rewrite (proj1 (validateField_alone w b (Hb b Hin))) in Hv.
      by injection Hv.
Qed.

Lemma validateForm_all_fields_witness :
  let w := fresh (sample_page (lit "a@b.co") (lit "A") (lit "Engineer")
                    (lit "3-5") (lit "growth")) in
  let d := w_doc w in
  let p := validateForm (env_of d) w in
  exists ok,
    p.1 = Ret ok /\
    length (bindings d) = 5%nat /\
    w_calls p.2 = w_calls w ++ field_refs d /\
    (forall b, b ∈ bindings d ->
       ui_of (w_doc p.2) b =
       ui_of (w_doc (validateField (field b) (error b) (rules b) w).2) b) /\
    (ok = true <->
       forall b, b ∈ bindings d ->
         (validateField (field b) (error b) (rules b) w).1 = Ret true) /\
    (ok = false <->
       exists b, b ∈ bindings d /\
         (validateField (field b) (error b) (rules b) w).1 = Ret false).
Proof.
  apply validateForm_all_fields. by vm_compute.
Defined.

(** C3. The email format check accepts exactly the strings made of a
    non-empty run of non-space, non-'@' code units, an '@', another such
    run, a '.', and a last such run; "a@b.co" is accepted, and
    "no-at-sign.com" and "a@b" are rejected. *)
Theorem validateEmail_shape :
  (forall s, validateEmail s = true <-> email_shape s) /\
  validateEmail (lit "a@b.co") = true /\
  validateEmail (lit "no-at-sign.com") = false /\
  validateEmail (lit "a@b") = false.
Proof.
  split; [| by vm_compute].
  intros s. unfold validateEmail.
  rewrite regex_test_spec. apply emailRegex_spec.
Qed.


(** C4. The phase is a one-way two-state machine.  A page whose success
    element is not revealed starts in Editing.  On a loaded page, a step
    from Editing to Submitted is a submission of the waitlist form on
    which [validateForm] returned true; such a submission hides every
    field container and the submit control, reveals the success element
    and scrolls to it (and on a well-formed page it is what a submit event
    of the form runs, however the user got there); once Submitted, no
    sequence of edits, blurs and submissions leaves Submitted. *)
Theorem phase_one_way :
  (forall d,
     revealed d (successMessage (env_of d)) = false ->
     phase_of (page_loaded d) = Editing) /\
  (forall d acts a,
     let w := run acts (page_loaded d) in
     phase_of w = Editing -> phase_of (perform a w).2 = Submitted ->
     exists n,
       a = UserSubmits n /\ form (env_of (w_doc w)) = Some n /\
       (validateForm (env_of (w_doc w)) (preventDefault w).2).1 = Ret true) /\
  (forall w,
     markup_ok (w_doc w) = true ->
     let e := env_of (w_doc w) in
     let p := handleFormSubmit e w in
     (validateForm e (preventDefault w).2).1 = Ret true ->
     exists f m s,
       form e = Some f /\ successMessage e = Some m /\
       head (select_all (w_doc w) f (SelClass (lit "form__submit"))) = Some s /\
       p.1 = Ret () /\
       phase_of p.2 = Submitted /\
       revealed (w_doc p.2) (Some m) = true /\
       (forall i, i ∈ select_all (w_doc w) f (SelClass (lit "form__field")) ->
          display_of (w_doc p.2) i = Some (lit "none")) /\
       display_of (w_doc p.2) s = Some (lit "none") /\
       w_effects p.2 =
         w_effects w ++
           [PreventDefault; ScrollIntoView m;
            Log (lit "Form submitted successfully:")
              (submitted_data (w_doc w))]) /\
  (forall d acts f,
     markup_ok d = true -> form (env_of d) = Some f ->
     let w := run acts (page_loaded d) in
     markup_ok (w_doc w) = true /\
     (perform (UserSubmits f) w).2 = (handleFormSubmit (env_of (w_doc w)) w).2) /\
  (forall w acts,
     phase_of w = Submitted -> phase_of (run acts w) = Submitted).
Proof.
  split_and!.
  - intros d Hd. unfold phase_of.
    destruct (init_listeners d) as (-> & _). by rewrite Hd.
  - intros d acts a. cbv zeta. set (w := run acts (page_loaded d)).
    intros Hed Hsub.
    destruct (loaded_page d acts) as [Henv Hinst]. fold w in Henv, Hinst.
    destruct a as [n v|n|n]; cbn [perform] in Hsub.
    + exfalso. rewrite bind_run in Hsub.
      assert (Hup : evolves keeps_classes w (update (Some n) (set_value v) w).2).
      { by apply (stable_update _ keeps_classes_refl). }
      destruct (update (Some n) (set_value v) w) as [[[]|] w1];
        cbn [snd] in Hup.
      * assert (Hinst1 : installed d (w_listeners w1)).
        { destruct Hup as (_ & -> & _). done. }
        pose proof (field_event_phase d w1 n Input Hinst1 ltac:(done)) as Hd.
        rewrite (phase_same _ _ Hd), (phase_same _ _ Hup) in Hsub. congruence.
      * cbn [snd] in Hsub. rewrite (phase_same _ _ Hup) in Hsub. congruence.
    + exfalso.
      pose proof (field_event_phase d w n Blur Hinst ltac:(done)) as Hd.
      rewrite (phase_same _ _ Hd) in Hsub. congruence.
    + exists n. split; [done |].
      destruct (submit_event d w n Hinst Henv) as [Heq | [Hf Heq]];
        rewrite Heq in Hsub; [congruence |].
      split; [done |]. apply handleFormSubmit_phase. congruence.
  - intros w H. cbv zeta. rewrite (validateForm_after_preventDefault w H).
    cbn [fst]. intros Hv. injection Hv as Hv.
    destruct (handleFormSubmit_valid w H Hv)
      as (f & m & s & Hf & Hm & Hs & Hml & Hsl & Hrun).
    exists f, m, s.
    assert (Hlen : length (validated (w_doc w)) = length (w_doc w)).
    { apply length_foldl_shown. }
    assert (Hrev : revealed (w_doc (handleFormSubmit (env_of (w_doc w)) w).2)
                     (Some m) = true).
    { rewrite Hrun. cbn [snd w_doc].
      apply revealed_submitted_doc. by rewrite Hlen. }
    split_and!; try done.
    + by rewrite Hrun.
    + unfold phase_of.
      rewrite (env_of_evolves w _ (stable_handleFormSubmit _ w)).
      by rewrite Hm, Hrev.
    + intros i Hi. rewrite Hrun. cbn [snd w_doc].
      apply display_submitted_doc; [| by left].
      rewrite Hlen. by eapply select_all_lt.
    + rewrite Hrun. cbn [snd w_doc].
      apply display_submitted_doc; [by rewrite Hlen | by right].
    + by rewrite Hrun.
  - intros d acts f H Hf. cbv zeta. split.
    + by apply markup_ok_run.
    + by apply submit_loaded.
  - intros w acts. apply submitted_forever.
Qed.

Lemma phase_one_way_witness :
  let w := run [UserTypes 5 (lit "Ada"); UserLeaves 5] (page_loaded filled_page) in
  let w' := (perform (UserSubmits 0) w).2 in
  phase_of (page_loaded filled_page) = Editing /\
  (phase_of w = Editing /\ phase_of w' = Submitted /\
   exists n,
     UserSubmits 0 = UserSubmits n /\ form (env_of (w_doc w)) = Some n /\
     (validateForm (env_of (w_doc w)) (preventDefault w).2).1 = Ret true) /\
  (markup_ok (w_doc w) = true /\
   let e := env_of (w_doc w) in
   let p := handleFormSubmit e w in
   exists f m s,
     form e = Some f /\ successMessage e = Some m /\
     head (select_all (w_doc w) f (SelClass (lit "form__submit"))) = Some s /\
     p.1 = Ret () /\
     phase_of p.2 = Submitted /\
     revealed (w_doc p.2) (Some m) = true /\
     (forall i, i ∈ select_all (w_doc w) f (SelClass (lit "form__field")) ->
        display_of (w_doc p.2) i = Some (lit "none")) /\
     display_of (w_doc p.2) s = Some (lit "none") /\
     w_effects p.2 =
       w_effects w ++
         [PreventDefault; ScrollIntoView m;
          Log (lit "Form submitted successfully:")
            (submitted_data (w_doc w))]) /\
  (markup_ok filled_page = true /\ form (env_of filled_page) = Some 0%nat /\
   markup_ok (w_doc w) = true /\
   w' = (handleFormSubmit (env_of (w_doc w)) w).2) /\
  phase_of (run [UserTypes 2 []; UserLeaves 2; UserSubmits 0] w') = Submitted.
Proof.
  cbv zeta. split_and!.
  - apply (proj1 phase_one_way). by vm_compute.
  - by vm_compute.
  - by vm_compute.
  - apply (proj1 (proj2 phase_one_way) filled_page
             [UserTypes 5 (lit "Ada"); UserLeaves 5] (UserSubmits 0));
      by vm_compute.
  - by vm_compute.
  - apply (proj1 (proj2 (proj2 phase_one_way))); by vm_compute.
  - by vm_compute.
  - by vm_compute.
  - apply (proj1 (proj2 (proj2 (proj2 phase_one_way))) filled_page
             [UserTypes 5 (lit "Ada"); UserLeaves 5] 0%nat); by vm_compute.
  - apply (proj1 (proj2 (proj2 (proj2 phase_one_way))) filled_page
             [UserTypes 5 (lit "Ada"); UserLeaves 5] 0%nat); by vm_compute.
  - apply (proj2 (proj2 (proj2 (proj2 phase_one_way)))). by vm_compute.
Defined.

(** C5, as amended.  The input listener enters [validateField] exactly
    when its control is currently marked invalid: a field that is not
    marked at first and is then neither blurred nor submitted is never
    validated and shows no validation, whatever is typed into it; a
    keystroke in a marked field re-validates it, after which the field is
    marked exactly if its new value is invalid.  The blur listener always
    enters [validateField]. *)
Theorem input_validates_while_marked :
  (forall w b,
     resolved (w_doc w) b = true ->
     let i := onFieldInput b w in
     i.1 = Ret () /\
     w_calls i.2 =
       w_calls w ++ (if marked_invalid (w_doc w) (field b) then [field b] else []) /\
     (marked_invalid (w_doc w) (field b) = false -> i.2 = w) /\
     (marked_invalid (w_doc w) (field b) = true ->
        i.2 = (validateField (field b) (error b) (rules b) w).2 /\
        ui_of (w_doc i.2) b = ui_for (message_now (w_doc w) b) /\
        marked_invalid (w_doc i.2) (field b) =
          truthy (message_now (w_doc w) b))) /\
  (forall w b,
     resolved (w_doc w) b = true ->
     let l := onFieldBlur b w in
     l.1 = Ret () /\
     l.2 = (validateField (field b) (error b) (rules b) w).2 /\
     w_calls l.2 = w_calls w ++ [field b] /\
     ui_of (w_doc l.2) b = ui_for (message_now (w_doc w) b)) /\
  (forall d acts b n,
     markup_ok d = true -> b ∈ bindings d -> field b = Some n ->
     marked_invalid d (field b) = false ->
     forallb (leaves_alone n) acts = true ->
     let w := run acts (page_loaded d) in
     ui_of (w_doc w) b = ui_of d b /\ field b ∉ w_calls w).
Proof.
  split_and!.
  - intros w b Hr. cbv zeta. rewrite (onFieldInput_run w b Hr).
    destruct (validateField_resolved w b Hr)
      as (f & e & Hf & He & Hlf & Hle & Hrun).
    destruct (marked_invalid (w_doc w) (field b)) eqn:Hm; cbn [fst snd].
    + split_and!; try done.
      * by rewrite Hrun.
      * intros _. rewrite Hrun. cbn [snd w_doc]. split_and!; [done | |].
        -- by apply ui_of_shown.
        -- rewrite marked_invalid_ui, (ui_of_shown _ b f e _ Hf He Hlf Hle).
           cbn [ui_for ui_flag]. by destruct (truthy _).
    + split_and!; try done. by rewrite app_nil_r.
  - intros w b Hr. cbv zeta. rewrite (onFieldBlur_run w b Hr).
    destruct (validateField_resolved w b Hr)
      as (f & e & Hf & He & Hlf & Hle & Hrun).
    cbn [fst snd]. rewrite Hrun. cbn [snd w_doc w_calls].
    split_and!; try done. by apply ui_of_shown.
  - intros d acts b n. apply untouched_field.
Qed.

Lemma input_validates_while_marked_witness :
  (exists b,
     bindings blank_page !! 1%nat = Some b /\
     let w := run [UserTypes 5 (lit "a"); UserLeaves 5] (page_loaded blank_page) in
     resolved (w_doc w) b = true /\
     marked_invalid (w_doc w) (field b) = true /\
     w_calls (onFieldInput b w).2 = w_calls w ++ [field b] /\
     w_calls (onFieldBlur b w).2 = w_calls w ++ [field b]) /\
  (exists b,
     bindings blank_page !! 1%nat = Some b /\
     let w := run [UserTypes 5 (lit "a"); UserLeaves 2; UserTypes 5 (lit "ab");
                   UserTypes 2 (lit "x")] (page_loaded blank_page) in
     marked_invalid (w_doc w) (Some 2%nat) = true /\
     ui_of (w_doc w) b = ui_of blank_page b /\ field b ∉ w_calls w).
Proof.
  split.
  - eexists. split; [reflexivity |]. cbv zeta.
    split; [by vm_compute |]. split; [by vm_compute |].
    match goal with
    | |- w_calls (onFieldInput ?b ?w).2 = _ /\ _ =>
        destruct (proj1 input_validates_while_marked w b) as (_ & Hc & _);
          [by vm_compute |];
        destruct (proj1 (proj2 input_validates_while_marked) w b)
          as (_ & _ & Hl & _); [by vm_compute |];
        rewrite Hc, Hl
    end.
    split; by vm_compute.
  - eexists. split; [reflexivity |]. cbv zeta. split; [by vm_compute |].
    apply (proj2 (proj2 input_validates_while_marked) blank_page _ _ 5%nat).
    + by vm_compute.
    + apply elem_of_cons. right. apply elem_of_cons. by left.
    + reflexivity.
    + by vm_compute.
    + by vm_compute.
Defined.

(** C5 as stated fails: the name field is blurred holding "a" and is
    marked invalid; the keystroke giving "ab" re-validates it and clears
    the mark; the next keystroke, back to "a", is not validated. *)
Lemma suppression_law_fails : ~ suppression_law_as_stated.
Proof.
  intros Hlaw.
  pose proof (Hlaw blank_page
                [UserTypes 5 (lit "a"); UserLeaves 5]
                [UserTypes 5 (lit "ab")]
                {| field := Some 5%nat; error := Some 6%nat;
                   rules := {| required := true; minLength := Some 2%Z;
                               email := false;
                               requiredMessage := Some (lit "Full name is required");
                               minLengthMessage :=
                                 Some (lit "Name must be at least 2 characters");
                               emailMessage := None |} |}
                5%nat (lit "a")) as H.
  cbv zeta in H.
  assert (Hcalls : forall l : list ref, l = l ++ [Some 5%nat] -> False).
  { intros l Hl. apply (f_equal length) in Hl. rewrite length_app in Hl.
    simpl in Hl. lia. }
  apply (Hcalls (w_calls (run ([UserTypes 5 (lit "a"); UserLeaves 5] ++
                               [UserTypes 5 (lit "ab")])
                            (page_loaded blank_page)))).
  rewrite <- H at 1.
  - by vm_compute.
  - by vm_compute.
  - vm_compute. apply elem_of_cons. right. apply elem_of_cons. by left.
  - reflexivity.
  - by vm_compute.
Qed.

(** C6. Submitting always suppresses the default action.  When
    [validateForm] returns false, the handler moves the focus to the first
    element inside the form, in document order, that carries the invalid
    flag (to nothing if there is none), and does nothing else: the
    success element is as hidden as before and the phase is unchanged.
    When the controls lie inside the form in declaration order and
    nothing else in the form carries the flag, that element exists and is
    the first control marked invalid in declaration order. *)
Theorem submit_invalid_focuses_first :
  (forall e w, exists rest,
     w_effects (handleFormSubmit e w).2 = w_effects w ++ PreventDefault :: rest) /\
  (forall w,
     elements_present (w_doc w) = true ->
     let e := env_of (w_doc w) in
     let v := validateForm e (preventDefault w).2 in
     let p := handleFormSubmit e w in
     v.1 = Ret false ->
     exists f,
       form e = Some f /\
       let target := head (select_all (w_doc v.2) f invalid_sel) in
       p.1 = Ret () /\
       w_doc p.2 = w_doc v.2 /\
       w_effects p.2 =
         w_effects w ++
         PreventDefault ::
         match target with Some n => [Focus n] | None => [] end /\
       w_listeners p.2 = w_listeners w /\
       revealed (w_doc p.2) (successMessage e) =
         revealed (w_doc w) (successMessage e) /\
       phase_of p.2 = phase_of w /\
       (markup_ok (w_doc w) = true ->
        is_Some target /\ target = first_invalid_field (w_doc v.2))).
Proof.
  split; [apply handleFormSubmit_effects |].
  intros w H. cbv zeta.
  pose proof (elements_resolved _ H) as Hres.
  destruct (form (env_of (w_doc w))) as [f|] eqn:Hf.
  2:{ unfold elements_present in H. by rewrite Hf in H. }
  rewrite preventDefault_run. cbn [snd].
  set (w1 := World (w_doc w) _ _ _).
  pose proof (validateForm_resolved_run w1 Hres) as Hv1.
  cbn [w1 w_doc w_effects w_calls w_listeners] in Hv1.
  subst w1. rewrite Hv1. cbn [fst snd w_doc]. intros Hv.
  assert (Hfalse : forallb (fun b => negb (truthy (message_now (w_doc w) b)))
                     (bindings (w_doc w)) = false) by congruence.
  exists f. split; [done |].
  rewrite (handleFormSubmit_invalid_any w f Hres Hf Hfalse).
  cbn [fst snd w_doc w_effects w_listeners].
  set (target := head (select_all (validated (w_doc w)) f invalid_sel)).
  assert (Hev : evolves keeps_classes w
                  (World (validated (w_doc w))
                     (w_effects w ++
                      PreventDefault ::
                      match target with Some n => [Focus n] | None => [] end)
                     (w_calls w ++ field_refs (w_doc w)) (w_listeners w))).
  { split_and!; [by apply validated_keeps | done | by eexists]. }
  split_and!; try done.
  - exact (revealed_same _ _ _ Hev).
  - exact (phase_same _ _ Hev).
  - intros Hok.
    destruct (handleFormSubmit_invalid w Hok Hfalse) as (n & Hn & _).
    unfold target. rewrite (select_invalid_validated _ f Hok Hf), Hn.
    split; [by eexists | done].
Qed.

Lemma submit_invalid_focuses_first_witness :
  (let w := page_loaded swapped_page in
   let e := env_of (w_doc w) in
   let v := validateForm e (preventDefault w).2 in
   let p := handleFormSubmit e w in
   elements_present (w_doc w) = true /\ v.1 = Ret false /\
   head (select_all (w_doc v.2) 0 invalid_sel) = Some 2%nat /\
   w_effects p.2 = w_effects w ++ [PreventDefault; Focus 2] /\
   exists f,
     form e = Some f /\
     let target := head (select_all (w_doc v.2) f invalid_sel) in
     p.1 = Ret () /\
     w_doc p.2 = w_doc v.2 /\
     w_effects p.2 =
       w_effects w ++
       PreventDefault ::
       match target with Some n => [Focus n] | None => [] end /\
     w_listeners p.2 = w_listeners w /\
     revealed (w_doc p.2) (successMessage e) =
       revealed (w_doc w) (successMessage e) /\
     phase_of p.2 = phase_of w /\
     (markup_ok (w_doc w) = true ->
      is_Some target /\ target = first_invalid_field (w_doc v.2))) /\
  (let w := page_loaded (sample_page (lit "no-at-sign.com") (lit "Ada")
                           (lit "Engineer") (lit "3-5") (lit "growth")) in
   let e := env_of (w_doc w) in
   let v := validateForm e (preventDefault w).2 in
   markup_ok (w_doc w) = true /\ v.1 = Ret false /\
   head (select_all (w_doc v.2) 0 invalid_sel) = Some 2%nat /\
   first_invalid_field (w_doc v.2) = Some 2%nat /\
   w_effects (handleFormSubmit e w).2 =
     w_effects w ++ [PreventDefault; Focus 2]).
Proof.
  split.
  - cbv zeta. split; [by vm_compute |]. split; [by vm_compute |].
    split; [by vm_compute |]. split; [by vm_compute |].
    apply (proj2 submit_invalid_focuses_first (page_loaded swapped_page));
      by vm_compute.
  - cbv zeta. split_and!; by vm_compute.
Defined.

(** C6 as stated fails: on the blank form laid out with the name field
    before the email field, every field is invalid; the first invalid
    field in declaration order is the email control (position 5), and
    the handler moves the focus to the name control (position 2), the
    first in document order. *)
Lemma focus_declaration_order_fails : ~ focus_law_as_stated.
Proof.
  intros Hlaw.
  destruct (Hlaw (page_loaded swapped_page)) as (n & Hn & He);
    [by vm_compute | by vm_compute |].
  assert (Hfirst : first_invalid_field
            (w_doc (validateForm (env_of (w_doc (page_loaded swapped_page)))
                      (preventDefault (page_loaded swapped_page)).2).2) =
          Some 5%nat) by (by vm_compute).
  rewrite Hfirst in Hn. injection Hn as <-.
  assert (Heff : w_effects (handleFormSubmit
                    (env_of (w_doc (page_loaded swapped_page)))
                    (page_loaded swapped_page)).2 =
                 w_effects (page_loaded swapped_page) ++
                   [PreventDefault; Focus 2]) by (by vm_compute).
  rewrite Heff in He. apply app_inv_head in He. discriminate He.
Qed.

(** C7.  Without the form the script warns and stops.  Without the email
    control it throws at the first [addEventListener], before any warning
    and before any listener is registered; without the email error
    element it initializes as if nothing were missing, and the blur
    listener of the email control then throws. *)
Theorem init_missing_field_throws :
  (forall d, by_id d (lit "waitlist-form") = None ->
     initFormValidation (fresh d) =
       (Ret (), World d [Warn (lit "Waitlist form not found")] [] [])) /\
  initFormValidation (fresh page_without_email) =
    (Throw, fresh page_without_email) /\
  (let p := initFormValidation (fresh page_without_email_error) in
   p.1 = Ret () /\
   w_effects p.2 = [Log (lit "Form validation initialized") []] /\
   length (w_listeners p.2) = 11%nat /\
   exists b, bindings page_without_email_error !! 0%nat = Some b /\
     (onFieldBlur b p.2).1 = Throw).
Proof.
  split; [exact init_without_form |]. split; [by vm_compute |].
  cbv zeta. split_and!; [by vm_compute | by vm_compute | by vm_compute |].
  eexists. split; [reflexivity |]. by vm_compute.
Qed.

(** C8. A required field holding an empty or white-space-only value is
    invalid, with the required-message configured for it. *)
Theorem required_blank_rejected (w : world) (b : binding) (m : jsstr) :
  resolved (w_doc w) b = true ->
  required (rules b) = true ->
  requiredMessage (rules b) = Some m -> m <> [] ->
  Forall (fun c => is_space c = true) (value_of (w_doc w) (field b)) ->
  validation_result b w = Some {| valid := false; message := m |}.
Proof.
  intros Hr Hreq Hm Hne Hsp. rewrite (validation_result_resolved w b Hr).
  unfold message_now, errorMessage_of.
  rewrite (trim_spaces _ Hsp), Hreq, Hm.
  rewrite (or_default_configured m Hne). cbn [truthy negb andb].
  by apply truthy_true in Hne as ->.
Qed.

Lemma required_blank_rejected_witness :
  exists b,
    bindings (sample_page [] (lit "  ") [] [] []) !! 1%nat = Some b /\
    validation_result b (fresh (sample_page [] (lit "  ") [] [] [])) =
      Some {| valid := false; message := lit "Full name is required" |}.
Proof.
  eexists. split; [reflexivity |].
  apply required_blank_rejected.
  - by vm_compute.
  - reflexivity.
  - reflexivity.
  - discriminate.
  - vm_compute. repeat constructor.
Defined.

(** C9. [validateField] is idempotent: run a second time on a field whose
    value has not changed, it returns the same result and leaves the
    document, and hence the flag, the error style and the error text, as
    the first run left them. *)
Theorem validateField_idempotent (w : world) (b : binding) :
  resolved (w_doc w) b = true ->
  let p1 := validateField (field b) (error b) (rules b) w in
  let p2 := validateField (field b) (error b) (rules b) p1.2 in
  exists ok,
    p1.1 = Ret ok /\ p2.1 = Ret ok /\
    w_doc p2.2 = w_doc p1.2 /\
    ui_of (w_doc p2.2) b = ui_of (w_doc p1.2) b.
Proof.
  intros Hr p1 p2.
  destruct (validateField_resolved w b Hr)
    as (f & e & Hf & He & Hlf & Hle & Hrun).
  assert (Hr1 : resolved (w_doc p1.2) b = true).
  { subst p1. rewrite Hrun. cbn [snd w_doc]. by rewrite resolved_shown. }
  destruct (validateField_resolved p1.2 b Hr1)
    as (f' & e' & Hf' & He' & _ & _ & Hrun').
  assert (f' = f) as -> by congruence. assert (e' = e) as -> by congruence.
  assert (Hd1 : w_doc p1.2 = shown (message_now (w_doc w) b) f e (w_doc w)).
  { subst p1. by rewrite Hrun. }
  assert (Hd2 : w_doc p2.2 = w_doc p1.2).
  { subst p2. rewrite Hrun'. cbn [snd w_doc].
    rewrite Hd1, message_now_shown. apply shown_twice. }
  exists (negb (truthy (message_now (w_doc w) b))). split_and!.
  - subst p1. by rewrite Hrun.
  - subst p2. rewrite Hrun'. cbn [fst]. by rewrite Hd1, message_now_shown.
  - done.
  - by rewrite Hd2.
Qed.

Lemma validateField_idempotent_witness :
  exists b,
    bindings (sample_page [] (lit "A") [] [] []) !! 1%nat = Some b /\
    let w := fresh (sample_page [] (lit "A") [] [] []) in
    let p1 := validateField (field b) (error b) (rules b) w in
    let p2 := validateField (field b) (error b) (rules b) p1.2 in
    exists ok,
      p1.1 = Ret ok /\ p2.1 = Ret ok /\
      w_doc p2.2 = w_doc p1.2 /\
      ui_of (w_doc p2.2) b = ui_of (w_doc p1.2) b.
Proof.
  eexists. split; [reflexivity |].
  apply validateField_idempotent. by vm_compute.
Defined.

(** C10. [validateField] and [validateForm] leave every stored value as it
    is, and nothing else either: of a validated control only the invalid
    flag and the error-style class can differ afterwards, of its error
    element only the text, and every other element is unchanged; in
    particular validating one field leaves what the page shows for the
    other fields unchanged. *)
Theorem validation_frame (w : world) :
  markup_ok (w_doc w) = true ->
  let d := w_doc w in
  (forall b, b ∈ bindings d ->
     let w' := (validateField (field b) (error b) (rules b) w).2 in
     w_effects w' = w_effects w /\ w_listeners w' = w_listeners w /\
     length (w_doc w') = length d /\
     (forall n x, d !! n = Some x ->
        exists y, w_doc w' !! n = Some y /\
          framed (field b = Some n) (error b = Some n) x y) /\
     (forall b', b' ∈ bindings d -> b' <> b ->
        ui_of (w_doc w') b' = ui_of d b')) /\
  (let w' := (validateForm (env_of d) w).2 in
   w_effects w' = w_effects w /\ w_listeners w' = w_listeners w /\
   length (w_doc w') = length d /\
   (forall n x, d !! n = Some x ->
      exists y, w_doc w' !! n = Some y /\
        framed (Some n ∈ field_refs d) (Some n ∈ error_refs d) x y)).
Proof.
  intros H. cbv zeta.
  pose proof (markup_resolved _ H) as Hres.
  split.
  - intros b Hin.
    assert (Hr : resolved (w_doc w) b = true) by by eapply Forall_forall in Hres.
    destruct (validateField_resolved w b Hr)
      as (f & e & Hf & He & Hlf & Hle & ->).
    cbn [snd w_doc w_effects w_listeners]. split_and!; try done.
    + apply length_shown.
    + intros n x Hx. exists (shown_at (message_now (w_doc w) b) f e n x).
      rewrite lookup_shown, Hx. split; [done |].
      eapply framed_weaken; [| | apply framed_shown_at]; congruence.
    + intros b' Hin' Hne. apply ui_of_shown_other.
      * rewrite <- Hf. intros Heq. apply Hne.
        eapply (NoDup_fmap_eq field); eauto. by apply markup_NoDup_fields.
      * rewrite <- He. intros Heq. apply Hne.
        eapply (NoDup_fmap_eq error); eauto. by apply markup_NoDup_errors.
  - rewrite (validateForm_run w H).
    cbn [snd w_doc w_effects w_listeners]. split_and!; try done.
    + apply length_foldl_shown.
    + intros n x Hx. apply foldl_framed. done.
Qed.

Lemma validation_frame_witness :
  let w := fresh (sample_page (lit "x") (lit "A") [] [] []) in
  let d := w_doc w in
  (forall b, b ∈ bindings d ->
     let w' := (validateField (field b) (error b) (rules b) w).2 in
     w_effects w' = w_effects w /\ w_listeners w' = w_listeners w /\
     length (w_doc w') = length d /\
     (forall n x, d !! n = Some x ->
        exists y, w_doc w' !! n = Some y /\
          framed (field b = Some n) (error b = Some n) x y) /\
     (forall b', b' ∈ bindings d -> b' <> b ->
        ui_of (w_doc w') b' = ui_of d b')) /\
  (let w' := (validateForm (env_of d) w).2 in
   w_effects w' = w_effects w /\ w_listeners w' = w_listeners w /\
   length (w_doc w') = length d /\
   (forall n x, d !! n = Some x ->
      exists y, w_doc w' !! n = Some y /\
        framed (Some n ∈ field_refs d) (Some n ∈ error_refs d) x y)).
Proof.
  apply validation_frame. by vm_compute.
Defined.

(** * Further properties of the script *)

Section Defaults.

Lemma or_default_nonempty a b : b <> [] -> or_default a b <> [].
Proof.
  intros Hb. destruct a as [s|]; simpl; [| done].
  destruct (truthy s) eqn:E; [by apply truthy_true | done].
Qed.

Lemma default_message_nonempty r k : default_message r k <> [].
Proof.
  destruct k; [by vm_compute | | by vm_compute].
  unfold default_message. intros [H _]%app_eq_nil. by vm_compute in H.
Qed.

Lemma number_to_string_safe n :
  (Z.abs n < 2 ^ 53)%Z -> number_to_string n = decimal n.
Proof.
  intros Hn. unfold number_to_string.
  by destruct (Z.ltb_spec (Z.abs n) (2 ^ 53)); [| lia].
Qed.

(** The [if]/[else if] chain without any assumption on the table: the
    message of the first failing rule, or its built-in text. *)
Lemma errorMessage_default r v :
  errorMessage_of r v =
    match first_failing r v with
    | Some k => or_default (configured r k) (default_message r k)
    | None => []
    end.
Proof.
  unfold first_failing, rule_order, errorMessage_of. cbn [List.find].
  rewrite fails_required.
  destruct (required r && negb (truthy v)) eqn:E1; [done |].
  assert (E2 : fails r v MinLengthRule =
               number_truthy (minLength r) &&
               (Z.of_nat (length v) <? default 0%Z (minLength r))%Z).
  { simpl. by destruct (minLength r). }
  rewrite E2.
  destruct (number_truthy (minLength r) &&
            (Z.of_nat (length v) <? default 0%Z (minLength r))%Z); [done |].
  cbn [fails].
  by destruct (email r && negb (validateEmail v)).
Qed.

End Defaults.

(** X1. Whatever messages the rule table configures, with a minimum
    length that is a safe integer (below 2^53 in magnitude), a field is
    invalid exactly when its trimmed value fails one of its rules, and
    the message shown is never empty: a failing rule whose configured
    message is missing or empty shows the built-in text of
    [validateField], which for the minimum length [m] is
    "Minimum m characters required" with [m] in decimal digits. *)
Theorem validateField_default_message w b :
  resolved (w_doc w) b = true ->
  (forall m, minLength (rules b) = Some m -> (Z.abs m < 2 ^ 53)%Z) ->
  let v := trim (value_of (w_doc w) (field b)) in
  validation_result b w =
    Some match first_failing (rules b) v with
         | Some k =>
             {| valid := false;
                message := or_default (configured (rules b) k)
                             (default_message (rules b) k) |}
         | None => {| valid := true; message := [] |}
         end /\
  (forall k, is_configured (configured (rules b) k) = false ->
     or_default (configured (rules b) k) (default_message (rules b) k) =
       default_message (rules b) k) /\
  (forall k,
     or_default (configured (rules b) k) (default_message (rules b) k) <> []) /\
  (forall m, minLength (rules b) = Some m ->
     default_message (rules b) MinLengthRule =
       lit "Minimum " ++ decimal m ++ lit " characters required").
Proof.
  intros Hres Hsafe v. split_and!.
  - rewrite (validation_result_resolved w b Hres).
    unfold message_now. fold v. rewrite errorMessage_default.
    destruct (first_failing (rules b) v) as [k|]; [| done].
    pose proof (or_default_nonempty (configured (rules b) k)
                  (default_message (rules b) k)
                  (default_message_nonempty _ _)) as Hne.
    apply truthy_true in Hne. by rewrite Hne.
  - intros k Hk. destruct (configured (rules b) k) as [s|]; [| done].
    simpl in *. by rewrite Hk.
  - intros k. apply or_default_nonempty, default_message_nonempty.
  - intros m Hm. unfold default_message. rewrite Hm. cbn [default from_option id].
    by rewrite (number_to_string_safe m (Hsafe m Hm)).
Qed.

Lemma validateField_default_message_witness :
  let b := {| field := Some 2%nat; error := Some 3%nat;
              rules := {| required := true; minLength := Some 12%Z;
                          email := false; requiredMessage := Some [];
                          minLengthMessage := None;
                          emailMessage := None |} |} in
  validation_result b (fresh (sample_page (lit "abc") [] [] [] [])) =
    Some {| valid := false;
            message := lit "Minimum 12 characters required" |}.
Proof.
  intros b.
  refine (proj1 (validateField_default_message
                   (fresh (sample_page (lit "abc") [] [] [] [])) b eq_refl _)).
  intros m [= <-]. reflexivity.
Defined.

Section RuleTable.

Lemma validation_result_message w b m :
  resolved (w_doc w) b = true ->
  errorMessage_of (rules b) (trim (value_of (w_doc w) (field b))) = m ->
  validation_result b w = Some {| valid := negb (truthy m); message := m |}.
Proof.
  intros Hres <-. by rewrite (validation_result_resolved w b Hres).
Qed.

(** The message of the email field's rules for a trimmed value. *)
Lemma email_message d b v :
  bindings d !! 0%nat = Some b ->
  errorMessage_of (rules b) v =
    if decide (v = []) then lit "Email address is required"
    else if validateEmail v then []
    else lit "Please enter a valid email address".
Proof.
  intros Hb. injection Hb as <-. cbn [rules]. unfold errorMessage_of.
  cbn [required minLength email requiredMessage emailMessage number_truthy
       andb].
  destruct (decide (v = [])) as [-> | Hv]; [reflexivity |].
  apply truthy_true in Hv. rewrite Hv. cbn [negb].
  by destruct (validateEmail v).
Qed.

(** The message of the name field's rules for a trimmed value. *)
Lemma name_message d b v :
  bindings d !! 1%nat = Some b ->
  errorMessage_of (rules b) v =
    if decide (v = []) then lit "Full name is required"
    else if decide (length v < 2)%nat
         then lit "Name must be at least 2 characters"
         else [].
Proof.
  intros Hb. injection Hb as <-. cbn [rules]. unfold errorMessage_of.
  cbn [required minLength email requiredMessage minLengthMessage
       number_truthy andb default from_option id].
  destruct (decide (v = [])) as [-> | Hv]; [reflexivity |].
  apply truthy_true in Hv. rewrite Hv. cbn [negb].
  change (negb (2 =? 0)%Z) with true. cbn [andb].
  destruct (decide (length v < 2)%nat) as [Hl | Hl].
  - assert ((Z.of_nat (length v) <? 2)%Z = true) as -> by lia. done.
  - assert ((Z.of_nat (length v) <? 2)%Z = false) as -> by lia. done.
Qed.

(** The message of the rules of the role, experience and goal fields. *)
Lemma required_message d i b msg v :
  bindings d !! (2 + i)%nat = Some b ->
  [lit "Current role is required";
   lit "Please select your years of experience";
   lit "Please select your primary goal"] !! i = Some msg ->
  errorMessage_of (rules b) v = if decide (v = []) then msg else [].
Proof.
  intros Hb Hmsg.
  destruct i as [|[|[|i]]]; [| | | done];
    injection Hb as <-; injection Hmsg as <-;
    cbn [rules]; unfold errorMessage_of;
    cbn [required minLength email requiredMessage number_truthy andb];
    (destruct (decide (v = [])) as [-> | Hv]; [reflexivity |]);
    apply truthy_true in Hv; by rewrite Hv.
Qed.

End RuleTable.

(** X2. The email field (the first binding of the rule table): with a
    blank value it is invalid with "Email address is required"; with any
    other value it is valid exactly when the trimmed value passes
    [validateEmail], and otherwise invalid with "Please enter a valid
    email address". *)
Theorem email_field_rule w b :
  bindings (w_doc w) !! 0%nat = Some b ->
  resolved (w_doc w) b = true ->
  let v := trim (value_of (w_doc w) (field b)) in
  validation_result b w =
    Some (if decide (v = []) then
            {| valid := false; message := lit "Email address is required" |}
          else if validateEmail v then {| valid := true; message := [] |}
          else {| valid := false;
                  message := lit "Please enter a valid email address" |}).
Proof.
  intros Hb Hres v.
  rewrite (validation_result_message w b _ Hres (email_message _ b v Hb)).
  destruct (decide (v = [])); [done |]. by destruct (validateEmail v).
Qed.

Lemma email_field_rule_witness :
  exists b,
    bindings (sample_page (lit " a@b.co ") [] [] [] []) !! 0%nat = Some b /\
    validation_result b (fresh (sample_page (lit " a@b.co ") [] [] [] [])) =
      Some {| valid := true; message := [] |}.
Proof.
  eexists. split; [reflexivity |].
  exact (email_field_rule (fresh (sample_page (lit " a@b.co ") [] [] [] []))
           _ eq_refl eq_refl).
Defined.

(** X3. The name field (the second binding): blank, it is invalid with
    "Full name is required"; with a single code unit left after
    trimming, invalid with "Name must be at least 2 characters"; with
    two or more, valid.  The length is counted after trimming. *)
Theorem name_field_rule w b :
  bindings (w_doc w) !! 1%nat = Some b ->
  resolved (w_doc w) b = true ->
  let v := trim (value_of (w_doc w) (field b)) in
  validation_result b w =
    Some (if decide (v = []) then
            {| valid := false; message := lit "Full name is required" |}
          else if decide (length v < 2)%nat then
            {| valid := false;
               message := lit "Name must be at least 2 characters" |}
          else {| valid := true; message := [] |}).
Proof.
  intros Hb Hres v.
  rewrite (validation_result_message w b _ Hres (name_message _ b v Hb)).
  destruct (decide (v = [])); [done |].
  by destruct (decide (length v < 2)%nat).
Qed.

Lemma name_field_rule_witness :
  exists b,
    bindings (sample_page [] (lit "  A ") [] [] []) !! 1%nat = Some b /\
    validation_result b (fresh (sample_page [] (lit "  A ") [] [] [])) =
      Some {| valid := false;
              message := lit "Name must be at least 2 characters" |}.
Proof.
  eexists. split; [reflexivity |].
  exact (name_field_rule (fresh (sample_page [] (lit "  A ") [] [] []))
           _ eq_refl eq_refl).
Defined.

(** X4. The role, experience and goal fields (the last three bindings)
    carry the required rule alone: each is valid exactly when its value
    is not blank, and otherwise shows its own message. *)
Theorem required_only_fields w i b msg :
  bindings (w_doc w) !! (2 + i)%nat = Some b ->
  [lit "Current role is required";
   lit "Please select your years of experience";
   lit "Please select your primary goal"] !! i = Some msg ->
  resolved (w_doc w) b = true ->
  let v := trim (value_of (w_doc w) (field b)) in
  validation_result b w =
    Some (if decide (v = []) then {| valid := false; message := msg |}
          else {| valid := true; message := [] |}).
Proof.
  intros Hb Hmsg Hres v.
  rewrite (validation_result_message w b _ Hres
             (required_message _ i b msg v Hb Hmsg)).
  destruct (decide (v = [])); [| done].
  assert (msg <> []) as Hne%truthy_true; [| by rewrite Hne].
  destruct i as [|[|[|i]]]; [| | | done]; by injection Hmsg as <-.
Qed.

Lemma required_only_fields_witness :
  exists b,
    bindings (sample_page [] [] [] (lit "  ") []) !! 3%nat = Some b /\
    validation_result b (fresh (sample_page [] [] [] (lit "  ") [])) =
      Some {| valid := false;
              message := lit "Please select your years of experience" |}.
Proof.
  eexists. split; [reflexivity |].
  exact (required_only_fields (fresh (sample_page [] [] [] (lit "  ") []))
           1 _ _ eq_refl eq_refl eq_refl).
Defined.

Section Trim.

Lemma trimStart_app_blank a s : blank a -> trimStart (a ++ s) = trimStart s.
Proof.
  induction 1 as [|c a Hc _ IH]; [done |]. cbn [app trimStart]. by rewrite Hc.
Qed.

Lemma trimStart_nil_blank s : trimStart s = [] -> blank s.
Proof.
  induction s as [|c s IH]; [constructor |]. cbn [trimStart].
  destruct (is_space c) eqn:Hc; [| done]. intros H.
  constructor; [exact Hc | by apply IH].
Qed.

Lemma trimStart_head s c t : trimStart s = c :: t -> is_space c = false.
Proof.
  induction s as [|x s IH]; [done |]. cbn [trimStart].
  destruct (is_space x) eqn:Hx; [done |]. by intros [= <- _].
Qed.

Lemma trimStart_app s c :
  trimStart s <> [] -> trimStart (s ++ c) = trimStart s ++ c.
Proof.
  induction s as [|x s IH]; [done |]. cbn [app trimStart].
  destruct (is_space x); [apply IH | done].
Qed.

Lemma blank_rev s : blank s -> blank (rev s).
Proof. apply List.Forall_rev. Qed.

Lemma trimEnd_app_blank s c : blank c -> trimEnd (s ++ c) = trimEnd s.
Proof.
  intros Hc. unfold trimEnd.
  by rewrite rev_app_distr, trimStart_app_blank by by apply blank_rev.
Qed.

(** White space around a value does not reach the rules. *)
Lemma trim_padding a s c : blank a -> blank c -> trim (a ++ s ++ c) = trim s.
Proof.
  intros Ha Hc. unfold trim. rewrite trimStart_app_blank by done.
  destruct (trimStart s) as [|x t] eqn:E.
  - rewrite trimStart_spaces; [done |].
    apply Forall_app. split; [by apply trimStart_nil_blank | done].
  - rewrite trimStart_app by by rewrite E. rewrite E.
    by apply trimEnd_app_blank.
Qed.

Lemma trimStart_twice s : trimStart (trimStart s) = trimStart s.
Proof.
  induction s as [|c s IH]; [done |]. cbn [trimStart].
  destruct (is_space c) eqn:Hc; [done |]. cbn [trimStart]. by rewrite Hc.
Qed.

Lemma trimEnd_cons c s :
  is_space c = false -> trimEnd (c :: s) = c :: trimEnd s.
Proof.
  intros Hc. unfold trimEnd. cbn [rev].
  destruct (trimStart (rev s)) as [|x t] eqn:E.
  - rewrite trimStart_app_blank by by apply trimStart_nil_blank.
    cbn [trimStart]. by rewrite Hc.
  - rewrite trimStart_app by by rewrite E. rewrite E.
    by rewrite rev_app_distr.
Qed.

(** A trimmed string has no white space left to trim. *)
Lemma trim_twice s : trim (trim s) = trim s.
Proof.
  unfold trim.
  assert (H : trimStart (trimEnd (trimStart s)) = trimEnd (trimStart s)).
  { destruct (trimStart s) as [|c t] eqn:E; [done |].
    apply trimStart_head in E.
    rewrite trimEnd_cons by done. cbn [trimStart]. by rewrite E. }
  rewrite H. unfold trimEnd at 1 2.
  by rewrite rev_involutive, trimStart_twice.
Qed.

End Trim.

Section Padding.

Lemma value_of_alter d g f :
  value_of (alter g f d) (Some f) = 
    match d !! f with Some e => el_value (g e) | None => [] end.
Proof.
  unfold value_of. simpl. rewrite list_lookup_alter.
  rewrite decide_True by done. by destruct (d !! f).
Qed.

End Padding.

(** X5. White space typed around a value never changes how the field
    validates: [validateField] gives the same result and shows the same
    state for a control holding [a ++ s ++ c], with [a] and [c] white
    space only, as for the control holding [s]. *)
Theorem validateField_ignores_padding w b f a c :
  resolved (w_doc w) b = true -> field b = Some f ->
  blank a -> blank c ->
  let pad e := set_value (a ++ el_value e ++ c) e in
  let w' := with_doc (alter pad f (w_doc w)) w in
  validation_result b w' = validation_result b w /\
  ui_of (w_doc (validateField (field b) (error b) (rules b) w').2) b =
  ui_of (w_doc (validateField (field b) (error b) (rules b) w).2) b.
Proof.
  intros Hres Hf Ha Hc pad w'.
  assert (Hres' : resolved (w_doc w') b = true).
  { rewrite <- Hres. apply resolved_length. apply length_alter. }
  assert (Hmsg : message_now (w_doc w') b = message_now (w_doc w) b).
  { unfold message_now. rewrite Hf. cbn [w' with_doc w_doc].
    rewrite value_of_alter. unfold value_of. simpl.
    apply resolved_inv in Hres as (f' & e & ef & ee & Hf' & _ & Hlk & _).
    assert (f' = f) as -> by congruence. rewrite Hlk. cbn [pad set_value el_value].
    by rewrite trim_padding. }
  split.
  - by rewrite !validation_result_resolved, Hmsg.
  - destruct (validateField_alone w' b Hres') as [_ ->].
    destruct (validateField_alone w b Hres) as [_ ->]. by rewrite Hmsg.
Qed.

Lemma validateField_ignores_padding_witness :
  exists b,
    bindings (sample_page [] (lit "Al") [] [] []) !! 1%nat = Some b /\
    validation_result b
      (fresh (sample_page [] (lit "  " ++ lit "Al" ++ lit " ") [] [] [])) =
    validation_result b (fresh (sample_page [] (lit "Al") [] [] [])).
Proof.
  eexists. split; [reflexivity |].
  match goal with
  | |- validation_result ?b _ = _ =>
      refine (proj1 (validateField_ignores_padding
                       (fresh (sample_page [] (lit "Al") [] [] [])) b 5
                       (lit "  ") (lit " ") eq_refl eq_refl _ _))
  end; vm_compute; repeat constructor.
Defined.

Section EmailLayout.

Lemma validateEmail_email_shape s : validateEmail s = true <-> email_shape s.
Proof.
  unfold validateEmail. rewrite regex_test_spec. apply emailRegex_spec.
Qed.

Lemma plain_Forall s :
  Forall (fun c => is_space c = false /\ c <> code_at) s <->
  Forall (fun c => not_space_at c = true) s.
Proof. apply Forall_proper; [| done]. intros c. by rewrite not_space_at_spec. Qed.

End EmailLayout.

(** X6. What [validateEmail] accepts, by position: the string holds no
    white space and exactly one '@'; the '@' is not its first code unit;
    and what follows the '@' holds a '.' that is neither its first nor
    its last code unit. *)
Theorem validateEmail_layout s :
  validateEmail s = true <->
  exists a t,
    s = a ++ code_at :: t /\ a <> [] /\
    Forall (fun c => not_space_at c = true) (a ++ t) /\
    exists i, (0 < i)%nat /\ (S i < length t)%nat /\ t !! i = Some code_dot.
Proof.
  rewrite validateEmail_email_shape. unfold email_shape, plain_run. split.
  - intros (a & b & c & -> & [Ha Hpa] & [Hb Hpb] & [Hc Hpc]).
    exists a, (b ++ code_dot :: c). split_and!; [done | done | |].
    + apply plain_Forall. rewrite !Forall_app, Forall_cons.
      split_and!; done.
    + exists (length b). split_and!.
      * destruct b; [done | simpl; lia].
      * rewrite length_app. destruct c; [done | simpl; lia].
      * by rewrite list_lookup_middle.
  - intros (a & t & -> & Ha & Hp & i & Hi & Hlen & Hdot).
    apply plain_Forall in Hp. apply Forall_app in Hp as [Hpa Hpt].
    exists a, (take i t), (drop (S i) t).
    rewrite (take_drop_middle t i code_dot Hdot).
    split_and!;
      [done | done | done | | by apply Forall_take | | by apply Forall_drop].
    + intros E. apply (f_equal length) in E. rewrite length_take in E.
      simpl in E. lia.
    + intros E. apply (f_equal length) in E. rewrite length_drop in E.
      simpl in E. lia.
Qed.

(** X7. The format check is permissive: code units that are neither
    white space nor '@' (dots included) can be put before or after an
    accepted address, and it stays accepted. *)
Theorem validateEmail_extends s x :
  validateEmail s = true ->
  Forall (fun c => not_space_at c = true) x ->
  validateEmail (x ++ s) = true /\ validateEmail (s ++ x) = true.
Proof.
  rewrite !validateEmail_email_shape. unfold email_shape, plain_run.
  intros (a & b & c & -> & [Ha Hpa] & [Hb Hpb] & [Hc Hpc]) Hx%plain_Forall.
  split.
  - exists (x ++ a), b, c. rewrite <- app_assoc. split_and!; try done.
    + by destruct x.
    + by apply Forall_app.
  - exists a, b, (c ++ x). split_and!; try done.
    + by rewrite <- app_assoc, <- !app_comm_cons, <- app_assoc.
    + by destruct c.
    + by apply Forall_app.
Qed.

Lemma validateEmail_extends_witness :
  validateEmail (lit ".." ++ lit "a@b.c") = true /\
  validateEmail (lit "a@b.c" ++ lit "..") = true.
Proof.
  apply validateEmail_extends; [reflexivity |].
  vm_compute. repeat constructor.
Defined.

Section Wiring.

Lemma setup_run bs : forall w,
  Forall (fun b => is_Some (field b)) bs ->
  forEach bs (fun b =>
    addEventListener (field b) Blur (OnBlur b);;
    addEventListener (field b) Input (OnInput b)) w =
    (Ret (), World (w_doc w) (w_effects w) (w_calls w)
               (w_listeners w ++ wired bs)).
Proof.
  induction bs as [|b bs IH]; intros w Hall.
  - cbn [forEach wired flat_map]. rewrite app_nil_r. by destruct w.
  - apply Forall_cons in Hall as [[n Hn] Hall].
    cbn [forEach]. rewrite bind_run, Hn.
    unfold addEventListener at 1 2. munfold.
    rewrite IH by done. cbn [w_doc w_effects w_calls w_listeners].
    cbn [wired flat_map]. rewrite Hn. by rewrite <- !app_assoc.
Qed.

Lemma setup_stops pre b post : forall w,
  Forall (fun b => is_Some (field b)) pre -> field b = None ->
  forEach (pre ++ b :: post) (fun b =>
    addEventListener (field b) Blur (OnBlur b);;
    addEventListener (field b) Input (OnInput b)) w =
    (Throw, World (w_doc w) (w_effects w) (w_calls w)
              (w_listeners w ++ wired pre)).
Proof.
  induction pre as [|b' pre IH]; intros w Hall Hb.
  - cbn [app forEach wired flat_map]. rewrite bind_run, Hb.
    unfold addEventListener. munfold. rewrite app_nil_r. by destruct w.
  - apply Forall_cons in Hall as [[n Hn] Hall].
    cbn [app forEach]. rewrite bind_run, Hn.
    unfold addEventListener at 1 2. munfold.
    rewrite IH by done. cbn [w_doc w_effects w_calls w_listeners].
    cbn [wired flat_map]. rewrite Hn. by rewrite <- !app_assoc.
Qed.

Lemma length_wired bs :
  Forall (fun b => is_Some (field b)) bs ->
  length (wired bs) = (2 * length bs)%nat.
Proof.
  induction 1 as [|b bs [n Hn] _ IH]; [done |].
  cbn [wired flat_map]. rewrite Hn. fold (wired bs).
  rewrite length_app, IH. simpl. lia.
Qed.

End Wiring.

(** X8. When the document holds the form and the five controls,
    [initFormValidation] runs to its end whether or not the error
    elements and the success element exist: it leaves the document as it
    is, registers for each control, in declaration order, a blur and
    then an input listener, registers the submit listener on the form
    last, and logs "Form validation initialized" and nothing else. *)
Theorem init_registers d f :
  by_id d (lit "waitlist-form") = Some f ->
  Forall (fun b => is_Some (field b)) (bindings d) ->
  initFormValidation (fresh d) =
    (Ret (),
     World d [Log (lit "Form validation initialized") []] []
       (wired (bindings d) ++ [(f, Submit, OnSubmit (env_of d))])) /\
  length (w_listeners (page_loaded d)) = 11%nat.
Proof.
  intros Hform Hall.
  assert (Hrun : initFormValidation (fresh d) =
    (Ret (),
     World d [Log (lit "Form validation initialized") []] []
       (wired (bindings d) ++ [(f, Submit, OnSubmit (env_of d))]))).
  { rewrite (init_with_form d f Hform).
    unfold setupRealTimeValidation. fold (bindings d).
    rewrite bind_run, setup_run by done.
    unfold addEventListener, console_log, emit. munfold. done. }
  split; [done |]. unfold page_loaded. rewrite Hrun. cbn [snd w_listeners].
  by rewrite length_app, length_wired.
Qed.

Lemma init_registers_witness :
  initFormValidation (fresh page_without_email_error) =
    (Ret (),
     World page_without_email_error
       [Log (lit "Form validation initialized") []] []
       (wired (bindings page_without_email_error) ++
        [(0%nat, Submit, OnSubmit (env_of page_without_email_error))])) /\
  length (w_listeners (page_loaded page_without_email_error)) = 11%nat.
Proof.
  apply init_registers; [reflexivity |].
  vm_compute. repeat constructor; by eexists.
Defined.

(** X9. When the form exists but one of the five controls does not,
    [initFormValidation] throws at the first missing control: the
    controls declared before it keep their listeners, the later ones get
    none, the submit listener is never registered, and nothing is
    logged. *)
Theorem init_stops_at_missing_control d f pre b post :
  by_id d (lit "waitlist-form") = Some f ->
  bindings d = pre ++ b :: post ->
  Forall (fun b => is_Some (field b)) pre -> field b = None ->
  initFormValidation (fresh d) = (Throw, World d [] [] (wired pre)) /\
  handlers_at (w_listeners (page_loaded d)) f Submit = [].
Proof.
  intros Hform Hbs Hpre Hb.
  assert (Hrun : initFormValidation (fresh d) =
                   (Throw, World d [] [] (wired pre))).
  { rewrite (init_with_form d f Hform).
    unfold setupRealTimeValidation. fold (bindings d).
    rewrite bind_run, Hbs, setup_stops by done. done. }
  split; [done |]. unfold page_loaded. rewrite Hrun. cbn [snd w_listeners].
  clear. induction pre as [|b' pre IH]; [done |].
  cbn [wired flat_map]. rewrite handlers_at_app. fold (wired pre).
  rewrite IH, app_nil_r. destruct (field b') as [n|]; [| done].
  unfold handlers_at. cbn [List.filter fst snd].
  rewrite (bool_decide_eq_false_2 (Blur = Submit)) by done.
  rewrite (bool_decide_eq_false_2 (Input = Submit)) by done.
  by rewrite andb_false_r.
Qed.

Lemma init_stops_at_missing_control_witness :
  let d := List.filter
             (fun e => negb (bool_decide (el_id e = Some (lit "role"))))
             blank_page in
  exists pre,
    length pre = 2%nat /\
    initFormValidation (fresh d) = (Throw, World d [] [] (wired pre)) /\
    handlers_at (w_listeners (page_loaded d)) 0 Submit = [].
Proof.
  intros d. eexists (take 2 (bindings d)). split; [reflexivity |].
  eapply (init_stops_at_missing_control d 0 (take 2 (bindings d)) _
            (drop 3 (bindings d))).
  - reflexivity.
  - reflexivity.
  - vm_compute. repeat constructor; by eexists.
  - reflexivity.
Defined.

Section SubmittedRecord.

Lemma valid_message_now d i b :
  forallb (fun b => negb (truthy (message_now d b))) (bindings d) = true ->
  bindings d !! i = Some b ->
  errorMessage_of (rules b) (trim (value_of d (field b))) = [].
Proof.
  intros Hall Hb. rewrite forallb_true_iff in Hall.
  apply truthy_false, negb_true_iff, (Hall b).
  by apply list_elem_of_lookup_2 in Hb.
Qed.

End SubmittedRecord.

(** X10. The record a successful submission logs always satisfies the
    rules: its email passes [validateEmail], its name has at least two
    code units, its role is not empty, and these three carry no
    surrounding white space; the experience and the goal are logged as
    the controls hold them, untrimmed, and are not blank. *)
Theorem submitted_record_valid w :
  markup_ok (w_doc w) = true ->
  (validateForm (env_of (w_doc w)) w).1 = Ret true ->
  let d := w_doc w in
  exists m vemail vname vrole,
    w_effects (handleFormSubmit (env_of d) w).2 =
      w_effects w ++
        [PreventDefault; ScrollIntoView m;
         Log (lit "Form submitted successfully:")
           [ (lit "email", vemail); (lit "name", vname); (lit "role", vrole);
             (lit "experience", value_of d (experienceField (env_of d)));
             (lit "goal", value_of d (goalField (env_of d))) ]] /\
    validateEmail vemail = true /\ (2 <= length vname)%nat /\ vrole <> [] /\
    trim vemail = vemail /\ trim vname = vname /\ trim vrole = vrole /\
    trim (value_of d (experienceField (env_of d))) <> [] /\
    trim (value_of d (goalField (env_of d))) <> [].
Proof.
  intros Hok Hvalid. cbv zeta. rewrite (validateForm_run w Hok) in Hvalid.
  cbn [fst] in Hvalid. injection Hvalid as Hall.
  destruct (handleFormSubmit_valid w Hok Hall)
    as (f & m & s & _ & _ & _ & _ & _ & ->).
  cbn [snd w_effects]. set (d := w_doc w) in *.
  exists m, (trim (value_of d (emailField (env_of d)))),
    (trim (value_of d (nameField (env_of d)))),
    (trim (value_of d (roleField (env_of d)))).
  split; [done |].
  pose proof (valid_message_now d 0 _ Hall eq_refl) as He.
  pose proof (valid_message_now d 1 _ Hall eq_refl) as Hn.
  pose proof (valid_message_now d 2 _ Hall eq_refl) as Hr.
  pose proof (valid_message_now d 3 _ Hall eq_refl) as Hx.
  pose proof (valid_message_now d 4 _ Hall eq_refl) as Hg.
  rewrite (email_message d _ _ eq_refl) in He.
  rewrite (name_message d _ _ eq_refl) in Hn.
  rewrite (required_message d 0 _ _ _ eq_refl eq_refl) in Hr.
  rewrite (required_message d 1 _ _ _ eq_refl eq_refl) in Hx.
  rewrite (required_message d 2 _ _ _ eq_refl eq_refl) in Hg.
  cbn [field snd] in He, Hn, Hr, Hx, Hg.
  rewrite !trim_twice.
  split_and!; try done.
  - destruct (decide _) in He; [done |]. by destruct (validateEmail _).
  - destruct (decide _) in Hn; [done |].
    destruct (decide (length _ < 2)%nat) in Hn; [done | lia].
  - by destruct (decide _) in Hr.
  - by destruct (decide _) in Hx.
  - by destruct (decide _) in Hg.
Qed.

Lemma submitted_record_valid_witness :
  let w := page_loaded
             (sample_page (lit " a@b.co") (lit "Ada ") (lit "Engineer")
                (lit " 3-5") (lit "growth")) in
  let d := w_doc w in
  exists m vemail vname vrole,
    w_effects (handleFormSubmit (env_of d) w).2 =
      w_effects w ++
        [PreventDefault; ScrollIntoView m;
         Log (lit "Form submitted successfully:")
           [ (lit "email", vemail); (lit "name", vname); (lit "role", vrole);
             (lit "experience", value_of d (experienceField (env_of d)));
             (lit "goal", value_of d (goalField (env_of d))) ]] /\
    validateEmail vemail = true /\ (2 <= length vname)%nat /\ vrole <> [] /\
    trim vemail = vemail /\ trim vname = vname /\ trim vrole = vrole /\
    trim (value_of d (experienceField (env_of d))) <> [] /\
    trim (value_of d (goalField (env_of d))) <> [].
Proof.
  intros w. apply (submitted_record_valid w); by vm_compute.
Defined.

Section Footprint.

Context (d : list element).
Context (Re : nat -> element -> element -> Prop).
Context (Re_refl : forall n x, Re n x x).
Context (Re_trans : forall n x y z, Re n x y -> Re n y z -> Re n x z).
Context (Hvalidate : forall b, b ∈ bindings d ->
           stable (evolves Re) (validateField (field b) (error b) (rules b))).
Context (Hsuccess : stable (evolves Re) (showSuccessMessage (env_of d))).

Lemma footprint_validateForm : stable (evolves Re) (validateForm (env_of d)).
Proof.
  rewrite validateForm_unfold. fold (bindings d).
  assert (H : forall bs, (forall b, b ∈ bs -> b ∈ bindings d) ->
            forall s, stable (evolves Re) (forEach_with bs validate_step s)).
  { induction bs as [|b bs IH]; intros Hsub s; cbn [forEach_with].
    - by apply stable_ret.
    - apply (stable_bind _ Re_refl Re_trans).
      + unfold validate_step.
        apply (stable_bind _ Re_refl Re_trans);
          [| intros; by apply stable_ret].
        apply Hvalidate, Hsub, elem_of_cons. by left.
      + intros s'. apply IH. intros b' Hb'. apply Hsub, elem_of_cons. by right. }
  by apply H.
Qed.

Lemma footprint_handleFormSubmit :
  stable (evolves Re) (handleFormSubmit (env_of d)).
Proof.
  unfold handleFormSubmit, preventDefault, console_log.
  apply (stable_bind _ Re_refl Re_trans); [by apply stable_emit |]. intros _.
  apply (stable_bind _ Re_refl Re_trans); [apply footprint_validateForm |].
  intros isValid. destruct (negb isValid).
  - stable_steps Re_refl Re_trans.
  - apply (stable_bind _ Re_refl Re_trans); [apply Hsuccess |]. intros _.
    stable_steps Re_refl Re_trans.
Qed.

Lemma footprint_dispatch w n ev :
  installed d (w_listeners w) -> evolves Re w (dispatch n ev w).2.
Proof.
  intros (ls & Hls & Hcase).
  apply (dispatch_evolves _ Re_refl Re_trans).
  assert (Hf : Forall (fun h => stable (evolves Re) (run_handler h))
                 (handlers_at ls n ev)).
  { eapply Forall_impl; [exact (handlers_at_field _ ls n ev Hls) |].
    intros h Hh. destruct ev; [| | done];
      destruct Hh as (b & -> & Hb & Hn); cbn [run_handler].
    - unfold onFieldBlur.
      apply (stable_bind _ Re_refl Re_trans); [| intros; by apply stable_ret].
      by apply Hvalidate.
    - unfold onFieldInput.
      apply (stable_bind _ Re_refl Re_trans);
        [apply (stable_getAttribute _ Re_refl Re_trans) |].
      intros a. destruct (bool_decide _); [| by apply stable_ret].
      apply (stable_bind _ Re_refl Re_trans); [| intros; by apply stable_ret].
      by apply Hvalidate. }
  destruct Hcase as [-> | (f & _ & ->)]; [done |].
  rewrite handlers_at_app. apply Forall_app. split; [done |].
  unfold handlers_at. cbn [List.filter fst snd].
  destruct (bool_decide (f = n) && bool_decide (Submit = ev)); cbn [map];
    [| constructor].
  constructor; [| constructor]. apply footprint_handleFormSubmit.
Qed.

Lemma footprint_perform w a :
  (forall n v x, a = UserTypes n v -> Re n x (set_value v x)) ->
  installed d (w_listeners w) -> evolves Re w (perform a w).2.
Proof.
  intros Htype Hinst. destruct a as [n v|n|n]; cbn [perform];
    try by apply footprint_dispatch.
  rewrite bind_run.
  assert (Hup : evolves Re w (update (Some n) (set_value v) w).2).
  { apply (stable_update _ Re_refl). intros k x [= <-]. by apply Htype. }
  destruct (update (Some n) (set_value v) w) as [[[]|] w1]; cbn [snd] in *;
    [| done].
  eapply (evolves_trans _ Re_refl Re_trans); [exact Hup |].
  apply footprint_dispatch. by destruct Hup as (_ & -> & _).
Qed.

Lemma footprint_run acts : forall w,
  (forall n v x, UserTypes n v ∈ acts -> Re n x (set_value v x)) ->
  installed d (w_listeners w) -> evolves Re w (run acts w).
Proof.
  induction acts as [|a acts IH]; intros w Htype Hinst; cbn [run].
  - by apply evolves_refl.
  - assert (Hstep : evolves Re w (perform a w).2).
    { apply footprint_perform; [| done]. intros n v x ->.
      apply Htype, elem_of_cons. by left. }
    eapply (evolves_trans _ Re_refl Re_trans); [exact Hstep |].
    apply IH; [| by destruct Hstep as (_ & -> & _)].
    intros n v x Hin. apply Htype, elem_of_cons. by right.
Qed.

End Footprint.

Section ScriptStep.

Context (d : list element) (typed : list nat).

Lemma script_step_refl n x : script_step d typed n x x.
Proof. unfold script_step, same_skeleton. split_and!; auto. Qed.

Lemma script_step_trans n x y z :
  script_step d typed n x y -> script_step d typed n y z ->
  script_step d typed n x z.
Proof.
  intros (S1 & C1 & V1 & W1 & A1 & F1 & T1 & U1 & D1)
         (S2 & C2 & V2 & W2 & A2 & F2 & T2 & U2 & D2).
  split_and!.
  - by eapply same_skeleton_trans.
  - intros c H1 H2. by rewrite C2, C1.
  - auto.
  - intros H. by rewrite W2, W1.
  - intros a H. by rewrite A2, A1.
  - intros H. destruct (F1 H) as [B1 E1], (F2 H) as [B2 E2].
    split; [congruence | by rewrite E2, E1].
  - intros H. by rewrite T2, T1.
  - intros H. by rewrite U2, U1.
  - destruct D2 as [-> | ->]; [done | by right].
Qed.

Lemma binding_error_position b n :
  b ∈ bindings d -> error b = Some n -> n ∈ error_positions d.
Proof.
  intros Hb Hn. unfold error_positions. apply list_elem_of_omap.
  exists (Some n). split; [| done]. rewrite <- Hn.
  by apply list_elem_of_fmap_2.
Qed.

Lemma script_step_validateField b :
  b ∈ bindings d ->
  stable (evolves (script_step d typed))
    (validateField (field b) (error b) (rules b)).
Proof.
  intros Hb.
  unfold validateField, setAttribute, classList_add, classList_remove,
    set_textContent.
  stable_steps script_step_refl script_step_trans;
    apply (stable_update _ script_step_refl); intros n x Hn;
    try (pose proof (binding_field_position d b n Hb Hn) as Hpos);
    try (pose proof (binding_error_position b n Hb Hn) as Hpos);
    unfold script_step, same_skeleton; simpl;
    split_and!; try done; try (by left); try (intros; set_solver);
    try (intros ? ?; rewrite lookup_insert_ne; [done | congruence]).
Qed.

Lemma script_step_showSuccessMessage :
  stable (evolves (script_step d typed)) (showSuccessMessage (env_of d)).
Proof.
  unfold showSuccessMessage, set_style_display, classList_add.
  stable_steps script_step_refl script_step_trans;
    apply (stable_update _ script_step_refl); intros n x Hn;
    unfold script_step, same_skeleton; simpl;
    split_and!; try done; try (by left); try (by right);
    try (intros; set_solver).
Qed.

End ScriptStep.

(** X11. What the page never does.  From the loaded page and through
    any sequence of user actions, the script registers no further
    listener, and of each element it never changes the nesting or the
    identifier; of the classes it changes only the error style of the
    five controls and adds [visible] to the success element; of the
    attributes, only the invalid flag of the five controls; the text,
    only of the five error elements; it never writes a value (values
    change only where the user typed); and it changes [style.display]
    only by setting it to "none". *)
Theorem script_footprint d acts :
  let w := run acts (page_loaded d) in
  w_listeners w = w_listeners (page_loaded d) /\
  doc_rel (script_step d (typed_positions acts)) d (w_doc w).
Proof.
  cbv zeta. destruct (init_listeners d) as (Hdoc & _ & Hinst).
  pose proof (footprint_run d (script_step d (typed_positions acts))
                (script_step_refl d _) (script_step_trans d _)
                (script_step_validateField d _)
                (script_step_showSuccessMessage d _)
                acts (page_loaded d)) as Hrun.
  destruct Hrun as (Hrel & HL & _); [| done | by rewrite Hdoc in Hrel].
  intros n v x Hin. unfold script_step, same_skeleton. simpl.
  split_and!; try done; try (by left).
  intros Hnot. destruct Hnot. unfold typed_positions.
  apply list_elem_of_omap. by exists (UserTypes n v).
Qed.

Section Coherent.

Context (d : list element) (b : binding).
Context (Hok : markup_ok d = true) (Hb : b ∈ bindings d).

(** The field shows what the markup showed until it is first validated,
    and from then on what some validation left. *)
Let coherent (w : world) : Prop :=
  length (w_doc w) = length d /\
  (validated_once w b -> exists msg, ui_of (w_doc w) b = ui_for msg) /\
  (~ validated_once w b -> ui_of (w_doc w) b = ui_of d b).

Lemma ui_of_alter_quiet (g : element -> element) i (d0 : list element) :
  (forall x, el_attrs (g x) = el_attrs x /\ el_text (g x) = el_text x /\
             (input_error ∈ el_classes (g x) <-> input_error ∈ el_classes x)) ->
  ui_of (alter g i d0) b = ui_of d0 b.
Proof.
  intros Hg.
  assert (H : forall k : nat,
    alter g i d0 !! k = (fun x => if decide (i = k) then g x else x) <$> d0 !! k).
  { intros k. rewrite list_lookup_alter.
    destruct (decide (i = k)) as [->|]; [done |]. by destruct (d0 !! k). }
  unfold ui_of. f_equal.
  - destruct (field b) as [k|]; simpl; [| done]. rewrite H.
    destruct (d0 !! k) as [x|]; simpl; [| done].
    destruct (decide (i = k)); [| done]. by destruct (Hg x) as (-> & _).
  - destruct (field b) as [k|]; simpl; [| done]. rewrite H.
    destruct (d0 !! k) as [x|]; simpl; [| done].
    destruct (decide (i = k)); [| done]. destruct (Hg x) as (_ & _ & Hc).
    apply bool_decide_ext, Hc.
  - destruct (error b) as [k|]; simpl; [| done]. rewrite H.
    destruct (d0 !! k) as [x|]; simpl; [| done].
    destruct (decide (i = k)); [| done]. by destruct (Hg x) as (_ & -> & _).
Qed.

Lemma ui_of_submitted_doc d0 fs s m :
  ui_of (submitted_doc d0 fs s m) b = ui_of d0 b.
Proof.
  unfold submitted_doc.
  rewrite ui_of_alter_quiet; [rewrite ui_of_alter_quiet |].
  - revert d0. induction fs as [|i fs IH]; intros d0; [done |].
    cbn [foldl]. rewrite IH. by apply ui_of_alter_quiet.
  - done.
  - intros x. simpl. split_and!; [done | done |].
    pose proof visible_ne_input_error. set_solver.
Qed.

Lemma coherent_resolved w b' :
  coherent w -> b' ∈ bindings d -> resolved (w_doc w) b' = true.
Proof.
  intros [Hlen _] Hb'. rewrite (resolved_length _ d) by done.
  pose proof (markup_resolved d Hok) as Hall.
  rewrite Forall_forall in Hall. by apply Hall.
Qed.

Lemma other_binding b' :
  b' ∈ bindings d -> b' <> b -> field b <> field b' /\ error b <> error b'.
Proof.
  intros Hb' Hne. split; intros E; apply Hne; symmetry.
  - by apply (NoDup_fmap_eq field (bindings d));
      [apply (markup_NoDup_fields d Hok) | | |].
  - by apply (NoDup_fmap_eq error (bindings d));
      [apply (markup_NoDup_errors d Hok) | | |].
Qed.

Lemma coherent_validateField w b' :
  coherent w -> b' ∈ bindings d ->
  coherent (validateField (field b') (error b') (rules b') w).2.
Proof.
  intros Hw Hb'. pose proof (coherent_resolved w b' Hw Hb') as Hres.
  destruct (validateField_resolved w b' Hres)
    as (f & e & Hf & He & Hlf & Hle & ->).
  destruct Hw as (Hlen & Hyes & Hno).
  unfold coherent, validated_once. cbn [snd w_doc w_calls].
  rewrite length_shown. split; [done |].
  destruct (decide (field b' = field b)) as [E | Hne].
  - assert (b' = b) as ->.
    { by apply (NoDup_fmap_eq field (bindings d));
        [apply (markup_NoDup_fields d Hok) | | |]. }
    split.
    + intros _. eexists. by apply ui_of_shown.
    + intros Hnot. destruct Hnot. rewrite elem_of_app, list_elem_of_singleton.
      by right.
  - assert (Hne' : b' <> b) by (intros ->; by apply Hne).
    destruct (other_binding b' Hb' Hne') as [Hfne Hene].
    rewrite ui_of_shown_other by congruence.
    rewrite elem_of_app, list_elem_of_singleton. split.
    + intros [Hin | E]; [by apply Hyes | congruence].
    + intros Hnot. apply Hno. intros Hin. apply Hnot. by left.
Qed.

Lemma coherent_handler w h :
  (exists b', b' ∈ bindings d /\ (h = OnBlur b' \/ h = OnInput b')) ->
  coherent w -> coherent (attempt (run_handler h) w).2.
Proof.
  intros (b' & Hb' & Hh) Hw. unfold attempt. cbn [snd].
  pose proof (coherent_resolved w b' Hw Hb') as Hres.
  destruct Hh as [-> | ->]; cbn [run_handler].
  - rewrite onFieldBlur_run by done. by apply coherent_validateField.
  - rewrite onFieldInput_run by done.
    destruct (marked_invalid _ _); [by apply coherent_validateField | done].
Qed.

Lemma coherent_forEach hs : forall w,
  Forall (fun h => exists b', b' ∈ bindings d /\
                     (h = OnBlur b' \/ h = OnInput b')) hs ->
  coherent w -> coherent (forEach hs (fun h => attempt (run_handler h)) w).2.
Proof.
  induction hs as [|h hs IH]; intros w Hall Hw; [done |].
  apply Forall_cons in Hall as [Hh Hall].
  cbn [forEach]. rewrite bind_run.
  pose proof (coherent_handler w h Hh Hw) as Hstep.
  unfold attempt in *. cbn [snd] in Hstep. by apply IH.
Qed.

Lemma coherent_field_event w n ev :
  installed d (w_listeners w) -> ev <> Submit ->
  coherent w -> coherent (dispatch n ev w).2.
Proof.
  intros (ls & Hls & Hcase) Hev Hw. unfold dispatch.
  apply coherent_forEach; [| done].
  assert (Hf : Forall (fun h => exists b', b' ∈ bindings d /\
                                  (h = OnBlur b' \/ h = OnInput b'))
                 (handlers_at ls n ev)).
  { eapply Forall_impl; [exact (handlers_at_field _ ls n ev Hls) |].
    intros h Hh. destruct ev; [| | done];
      destruct Hh as (b' & -> & Hb' & _); exists b'; auto. }
  destruct Hcase as [-> | (f & _ & ->)]; [done |].
  rewrite handlers_at_app. apply Forall_app. split; [done |].
  unfold handlers_at. cbn [List.filter fst snd].
  rewrite (bool_decide_eq_false_2 (Submit = ev)) by done.
  rewrite andb_false_r. constructor.
Qed.

Lemma coherent_submit w :
  markup_ok (w_doc w) = true -> env_of (w_doc w) = env_of d ->
  coherent w -> coherent (handleFormSubmit (env_of (w_doc w)) w).2.
Proof.
  intros Hokw Henv Hw.
  assert (Hbs : bindings (w_doc w) = bindings d).
  { unfold bindings. by rewrite Henv. }
  assert (Hui : ui_of (validated (w_doc w)) b =
                ui_for (message_now (w_doc w) b)).
  { unfold validated. apply ui_of_foldl.
    - apply (markup_resolved _ Hokw).
    - apply (markup_NoDup_fields _ Hokw).
    - apply (markup_NoDup_errors _ Hokw).
    - by rewrite Hbs. }
  assert (Hin : field b ∈ w_calls w ++ field_refs (w_doc w)).
  { apply elem_of_app. right. unfold field_refs. rewrite Hbs.
    by apply list_elem_of_fmap_2. }
  destruct Hw as (Hlen & _ & _).
  destruct (forallb (fun b => negb (truthy (message_now (w_doc w) b)))
              (bindings (w_doc w))) eqn:Hall.
  - destruct (handleFormSubmit_valid w Hokw Hall)
      as (f & m & s & _ & _ & _ & _ & _ & ->).
    unfold coherent, validated_once. cbn [snd w_doc w_calls].
    split_and!.
    + unfold submitted_doc. rewrite !length_alter, length_foldl_alter.
      unfold validated. by rewrite length_foldl_shown.
    + intros _. eexists. rewrite ui_of_submitted_doc. exact Hui.
    + intros Hnot. by destruct Hnot.
  - destruct (handleFormSubmit_invalid w Hokw Hall) as (n & _ & ->).
    unfold coherent, validated_once. cbn [snd w_doc w_calls].
    split_and!.
    + unfold validated. by rewrite length_foldl_shown.
    + intros _. eexists. exact Hui.
    + intros Hnot. by destruct Hnot.
Qed.

Lemma run_snoc acts a w : run (acts ++ [a]) w = (perform a (run acts w)).2.
Proof. revert w. induction acts as [|a' acts IH]; intros w; [done |]. apply IH. Qed.

Lemma coherent_run acts : coherent (run acts (page_loaded d)).
Proof.
  induction acts as [|a acts IH] using rev_ind.
  - destruct (init_listeners d) as (Hdoc & Hcalls & _).
    unfold coherent, validated_once. cbn [run]. rewrite Hdoc, Hcalls.
    split_and!; [done | | done]. by intros ?%elem_of_nil.
  - rewrite run_snoc. set (w := run acts (page_loaded d)) in *.
    destruct (loaded_page d acts) as [Henv Hinst]. fold w in Henv, Hinst.
    destruct a as [n v|n|n]; cbn [perform].
    + rewrite bind_run.
      destruct (update (Some n) (set_value v) w) as [[[]|] w1] eqn:Hup.
      * apply coherent_field_event; [| done |].
        -- unfold update in Hup. destruct (w_doc w !! n); [| done].
           by injection Hup as <-.
        -- unfold update in Hup. destruct (w_doc w !! n); [| done].
           injection Hup as <-. destruct IH as (Hlen & Hyes & Hno).
           unfold coherent, validated_once, with_doc. cbn [w_doc w_calls].
           rewrite length_alter, ui_of_set_value. done.
      * unfold update in Hup. destruct (w_doc w !! n); [done |].
        by injection Hup as <-.
    + by apply coherent_field_event.
    + destruct (submit_event d w n Hinst Henv) as [-> | [_ ->]]; [done |].
      apply coherent_submit; [| done | done].
      apply (markup_ok_run d acts Hok).
Qed.

End Coherent.

(** X12. The three things the page shows for a field always agree.
    Through any sequence of user actions on a well-formed page, a field
    that has never been validated shows what the markup showed, and a
    field that has been validated shows a consistent state: either the
    invalid flag is "true", the error style is on and the error text is
    not empty, or the flag is "false", the style is off and the text is
    empty. *)
Theorem ui_coherent d acts b :
  markup_ok d = true -> b ∈ bindings d ->
  let w := run acts (page_loaded d) in
  (validated_once w b ->
     exists msg,
       ui_of (w_doc w) b =
         {| ui_flag := Some (if truthy msg then lit "true" else lit "false");
            ui_error_style := truthy msg;
            ui_text := Some msg |}) /\
  (~ validated_once w b -> ui_of (w_doc w) b = ui_of d b).
Proof.
  intros Hok Hb. cbv zeta.
  destruct (coherent_run d b Hok Hb acts) as (_ & Hyes & Hno). by split.
Qed.

Lemma ui_coherent_witness :
  exists b,
    bindings blank_page !! 1%nat = Some b /\
    let w := run [UserTypes 5 (lit "A"); UserLeaves 5; UserTypes 2 (lit "x")]
               (page_loaded blank_page) in
    validated_once w b /\
    exists msg,
      ui_of (w_doc w) b =
        {| ui_flag := Some (if truthy msg then lit "true" else lit "false");
           ui_error_style := truthy msg;
           ui_text := Some msg |}.
Proof.
  eexists. split; [reflexivity |]. cbv zeta.
  match goal with
  | |- validated_once ?w ?b /\ _ =>
      assert (Hv : validated_once w b)
        by (vm_compute; apply list_elem_of_singleton; reflexivity)
  end.
  split; [exact Hv |].
  refine (proj1 (ui_coherent blank_page
            [UserTypes 5 (lit "A"); UserLeaves 5; UserTypes 2 (lit "x")]
            _ eq_refl _) Hv).
  vm_compute. repeat constructor.
Defined.

Section Incomplete.

Lemma hide_keeps (d : list element) i : doc_rel keeps_classes d (alter hide i d).
Proof. apply doc_rel_alter; [apply keeps_classes_refl |]. intros x _. done. Qed.

Lemma foldl_hide_keeps l (d : list element) :
  doc_rel keeps_classes d (foldl (fun d i => alter hide i d) d l).
Proof.
  eapply doc_rel_mono; [| apply foldl_hide_rel].
  intros n x y (H1 & H2 & H3 & _). split; [done |]. intros c _. by rewrite H3.
Qed.

(** [showSuccessMessage] on a page without submit control or without
    success element: the field containers are hidden, then it throws. *)
Lemma showSuccessMessage_throws e w f :
  form e = Some f ->
  select_all (w_doc w) f (SelClass (lit "form__submit")) = [] \/
  successMessage e = None ->
  exists d',
    showSuccessMessage e w =
      (Throw, World d' (w_effects w) (w_calls w) (w_listeners w)) /\
    doc_rel keeps_classes (w_doc w) d' /\
    forall i, i ∈ select_all (w_doc w) f (SelClass (lit "form__field")) ->
      display_of d' i = Some (lit "none").
Proof.
  intros Hf Hmiss. unfold showSuccessMessage. rewrite Hf.
  unfold querySelector, querySelectorAll. rewrite bind_run.
  set (fs := select_all (w_doc w) f (SelClass (lit "form__field"))).
  assert (Hfs : Forall (fun i => (i < length (w_doc w))%nat) fs).
  { apply Forall_forall. intros i Hi. by eapply select_all_lt. }
  rewrite bind_run. unfold set_style_display.
  rewrite forEach_update_run by done.
  change (set_display (lit "none")) with hide.
  set (d3 := foldl _ (w_doc w) fs).
  assert (Hd3 : forall i, i ∈ fs -> display_of d3 i = Some (lit "none")).
  { intros i Hi. apply display_foldl_hide; [done |].
    rewrite Forall_forall in Hfs. by apply Hfs. }
  rewrite bind_run. munfold. cbn [with_doc w_doc].
  fold d3. unfold d3 at 1. rewrite select_all_hidden. fold d3.
  destruct (head (select_all (w_doc w) f (SelClass (lit "form__submit"))))
    as [s|] eqn:Hs.
  - destruct Hmiss as [Hnone | Hm]; [by rewrite Hnone in Hs |].
    unfold update at 1. cbn [w_doc].
    destruct (d3 !! s) as [x|] eqn:Hx.
    + cbn [with_doc w_doc w_effects w_calls w_listeners].
      rewrite Hm. unfold classList_add, update. rewrite ?Hx.
      exists (alter hide s d3). split_and!; [by destruct w | |].
      * eapply (doc_rel_trans _ keeps_classes_refl keeps_classes_trans);
          [apply foldl_hide_keeps | apply hide_keeps].
      * intros i Hi. apply display_alter_hidden; [done | by apply Hd3].
    + cbn [with_doc w_doc]. rewrite Hx. exists d3.
      split_and!; [by destruct w | apply foldl_hide_keeps | done].
  - unfold update. exists d3.
    split_and!; [by destruct w | apply foldl_hide_keeps | done].
Qed.

End Incomplete.

(** X13. On a page whose form has no submit control, or which has no
    success element, a valid submission still hides the field
    containers, and then throws: the default action is prevented, but
    the success message is not revealed (the phase stays as it was),
    nothing is scrolled to and nothing is logged. *)
Theorem submit_incomplete_page w f :
  Forall (fun b => resolved (w_doc w) b = true) (bindings (w_doc w)) ->
  form (env_of (w_doc w)) = Some f ->
  select_all (w_doc w) f (SelClass (lit "form__submit")) = [] \/
  successMessage (env_of (w_doc w)) = None ->
  (validateForm (env_of (w_doc w)) w).1 = Ret true ->
  let p := handleFormSubmit (env_of (w_doc w)) w in
  p.1 = Throw /\
  w_effects p.2 = w_effects w ++ [PreventDefault] /\
  phase_of p.2 = phase_of w /\
  forall i, i ∈ select_all (w_doc w) f (SelClass (lit "form__field")) ->
    display_of (w_doc p.2) i = Some (lit "none").
Proof.
  intros Hres Hf Hmiss Hvalid. cbv zeta.
  rewrite (validateForm_resolved_run w Hres) in Hvalid.
  cbn [fst] in Hvalid.
  assert (Hall : forallb (fun b => negb (truthy (message_now (w_doc w) b)))
                   (bindings (w_doc w)) = true) by congruence.
  pose proof (validated_keeps (w_doc w) Hres) as Hkeep.
  assert (Hsel : forall c, c <> input_error ->
            select_all (validated (w_doc w)) f (SelClass c) =
            select_all (w_doc w) f (SelClass c)).
  { intros c Hc. apply (select_all_class keeps_classes); [| done].
    intros k x y [Hs Hcl]. split; [done | by apply Hcl]. }
  unfold handleFormSubmit. rewrite bind_run, preventDefault_run.
  rewrite bind_run.
  set (w1 := World (w_doc w) _ _ _).
  pose proof (validateForm_resolved_run w1 Hres) as Hv1.
  cbn [w1 w_doc w_effects w_calls w_listeners] in Hv1.
  subst w1. rewrite Hv1, Hall. cbn [negb]. rewrite bind_run.
  set (w2 := World (validated (w_doc w)) _ _ _).
  destruct (showSuccessMessage_throws (env_of (w_doc w)) w2 f Hf)
    as (d' & -> & Hrel & Hdisp).
  { cbn [w2 w_doc]. rewrite Hsel by discriminate. done. }
  cbn [fst snd w_effects w_doc w2 w_calls w_listeners].
  cbn [w2 w_doc] in Hrel, Hdisp.
  split_and!; [done | done | |].
  - apply phase_same. split_and!.
    + eapply (doc_rel_trans _ keeps_classes_refl keeps_classes_trans);
        [exact Hkeep | exact Hrel].
    + done.
    + by eexists.
  - intros i Hi. apply Hdisp. by rewrite Hsel.
Qed.

Lemma submit_incomplete_page_witness :
  let d := List.filter
             (fun e => negb (bool_decide (el_id e = Some (lit "form-success"))))
             filled_page in
  let w := page_loaded d in
  let p := handleFormSubmit (env_of (w_doc w)) w in
  p.1 = Throw /\
  w_effects p.2 = w_effects w ++ [PreventDefault] /\
  phase_of p.2 = phase_of w /\
  forall i, i ∈ select_all (w_doc w) 0 (SelClass (lit "form__field")) ->
    display_of (w_doc p.2) i = Some (lit "none").
Proof.
  intros d w.
  apply (submit_incomplete_page w 0).
  - vm_compute. repeat constructor.
  - reflexivity.
  - right. reflexivity.
  - by vm_compute.
Defined.

Section ExternalLinks.

Context (tagName : nat -> jsstr).

Lemma secured_twice e : secured (secured e) = secured e.
Proof.
  unfold secured at 2 3.
  destruct (attr_truthy (el_attrs e !! lit "rel")) eqn:E.
  - unfold secured. by rewrite E.
  - unfold secured. cbn [set_attr el_attrs]. by rewrite lookup_insert_eq.
Qed.

Lemma alter_same {A} (g : A -> A) i (l : list A) x :
  l !! i = Some x -> g x = x -> alter g i l = l.
Proof.
  intros Hx Hg. apply list_eq. intros k. rewrite list_lookup_alter.
  destruct (decide (i = k)) as [<-|]; [| done]. by rewrite Hx; simpl; rewrite Hg.
Qed.

Lemma secure_step_run w i e :
  w_doc w !! i = Some e ->
  (r ← getAttribute (Some i) (lit "rel");
   if negb (attr_truthy r)
   then setAttribute (Some i) (lit "rel") (lit "noopener noreferrer")
   else mret ()) w =
    (Ret (), with_doc (alter secured i (w_doc w)) w).
Proof.
  intros He. unfold getAttribute, deref. rewrite !bind_run, He.
  munfold. destruct (attr_truthy (el_attrs e !! lit "rel")) eqn:E; cbn [negb].
  - rewrite (alter_same secured i _ e He); [by destruct w |].
    unfold secured. by rewrite E.
  - unfold setAttribute, update. rewrite He. do 2 f_equal.
    apply list_alter_ext; [| done]. intros x Hx.
    assert (x = e) as -> by congruence. unfold secured. by rewrite E.
Qed.

Lemma secure_forEach_run l : forall w,
  Forall (fun i => (i < length (w_doc w))%nat) l ->
  forEach l (fun link =>
    r ← getAttribute (Some link) (lit "rel");
    if negb (attr_truthy r)
    then setAttribute (Some link) (lit "rel") (lit "noopener noreferrer")
    else mret ()) w =
    (Ret (), with_doc (foldl (fun d i => alter secured i d) (w_doc w) l) w).
Proof.
  induction l as [|i l IH]; intros w Hall.
  - cbn [forEach foldl]. by destruct w.
  - apply Forall_cons in Hall as [Hi Hall].
    destruct (lookup_lt_is_Some_2 _ _ Hi) as [e He].
    cbn [forEach foldl]. rewrite bind_run, (secure_step_run w i e He).
    rewrite IH; [done |]. cbn [with_doc w_doc]. by rewrite length_alter.
Qed.

Lemma lookup_foldl_alter {A} (g : A -> A) l : forall (d : list A) n,
  (forall x, g (g x) = g x) ->
  foldl (fun d i => alter g i d) d l !! n =
    (if bool_decide (n ∈ l) then g else id) <$> d !! n.
Proof.
  induction l as [|i l IH]; intros d n Hg; cbn [foldl].
  - rewrite bool_decide_eq_false_2 by apply not_elem_of_nil.
    by destruct (d !! n).
  - rewrite IH by done. rewrite list_lookup_alter.
    destruct (decide (i = n)) as [-> | Hne].
    + rewrite (bool_decide_eq_true_2 (n ∈ n :: l)) by (apply elem_of_cons; by left).
      destruct (d !! n) as [x|]; [| done]. cbn [fmap option_fmap option_map].
      destruct (bool_decide (n ∈ l)); [by rewrite Hg | done].
    + destruct (bool_decide (n ∈ l)) eqn:E.
      * rewrite bool_decide_eq_true_2; [done |].
        apply elem_of_cons. right. by apply bool_decide_eq_true in E.
      * rewrite bool_decide_eq_false_2; [done |].
        apply bool_decide_eq_false in E. rewrite elem_of_cons.
        intros [-> | H]; [by apply Hne | by apply E].
Qed.

Lemma select_tag_lt d tag attr i :
  i ∈ select_tag tagName d tag attr -> (i < length d)%nat.
Proof.
  unfold select_tag. rewrite list_elem_of_In, List.filter_In, in_seq.
  intros [[_ H] _]. exact H.
Qed.

Lemma initExternalLinks_run w :
  initExternalLinks tagName w =
    (Ret (),
     World (foldl (fun d i => alter secured i d) (w_doc w)
              (external_links tagName (w_doc w)))
       (w_effects w ++
        [Log (lit "External link handling initialized for " ++
              number_to_string
                (Z.of_nat (length (external_links tagName (w_doc w)))) ++
              lit " links") []])
       (w_calls w) (w_listeners w)).
Proof.
  unfold initExternalLinks, document_querySelectorAll.
  rewrite bind_run. fold (external_links tagName (w_doc w)).
  rewrite bind_run, secure_forEach_run.
  - unfold console_log, emit. by cbn [with_doc w_doc w_effects w_calls w_listeners].
  - apply Forall_forall. intros i Hi. by eapply select_tag_lt.
Qed.

Lemma external_links_secured d :
  external_links tagName
    (foldl (fun d i => alter secured i d) d (external_links tagName d)) =
  external_links tagName d.
Proof.
  unfold external_links, select_tag.
  set (l := List.filter _ (seq 0 (length d))).
  assert (Hlen : length (foldl (fun d i => alter secured i d) d l) = length d).
  { apply length_foldl_alter. }
  rewrite Hlen. apply List.filter_ext. intros i. f_equal.
  rewrite lookup_foldl_alter by apply secured_twice.
  destruct (d !! i) as [x|]; [| done]. cbn [fmap option_fmap option_map].
  destruct (bool_decide (i ∈ l)); [| done].
  unfold secured. destruct (attr_truthy _); [done |].
  unfold attr_matches_ci. cbn [set_attr el_attrs].
  by rewrite lookup_insert_ne.
Qed.

Lemma elem_of_external_links d n :
  n ∈ external_links tagName d <->
  exists x v,
    d !! n = Some x /\ tagName n = lit "a" /\
    el_attrs x !! lit "target" = Some v /\
    ascii_lower <$> v = lit "_blank".
Proof.
  unfold external_links, select_tag.
  rewrite list_elem_of_In, List.filter_In, in_seq, andb_true_iff,
    bool_decide_eq_true.
  unfold attr_matches_ci. split.
  - intros ([_ Hlt] & Htag & Hm).
    destruct (d !! n) as [x|]; [| done].
    destruct (el_attrs x !! lit "target") as [v|] eqn:Hv; [| done].
    apply bool_decide_eq_true in Hm. by exists x, v.
  - intros (x & v & Hx & Htag & Hv & Hci).
    split; [split; [lia | apply (lookup_lt_Some _ _ _ Hx)] |].
    split; [done |]. rewrite Hx, Hv. by apply bool_decide_eq_true.
Qed.

End ExternalLinks.

(** X14. [initExternalLinks] never throws and logs one line with the
    number of links.  The links are the [a] elements whose [target] is
    "_blank" in any mix of ASCII upper and lower case, as an HTML
    document matches [a[target="_blank"]].  It gives every such link
    whose [rel] is missing or empty the value "noopener noreferrer", and
    changes nothing else: a link that already has a non-empty [rel]
    keeps it as it is, whatever it says, and no other element is
    touched.  Afterwards every such link has a non-empty [rel]. *)
Theorem initExternalLinks_secures tagName w :
  let d := w_doc w in
  let links := external_links tagName d in
  let p := initExternalLinks tagName w in
  (forall n, n ∈ links <->
     exists x v,
       d !! n = Some x /\ tagName n = lit "a" /\
       el_attrs x !! lit "target" = Some v /\
       ascii_lower <$> v = lit "_blank") /\
  p.1 = Ret () /\
  w_effects p.2 =
    w_effects w ++
    [Log (lit "External link handling initialized for " ++
          number_to_string (Z.of_nat (length links)) ++ lit " links") []] /\
  w_listeners p.2 = w_listeners w /\
  length (w_doc p.2) = length d /\
  (forall n x, d !! n = Some x ->
     w_doc p.2 !! n =
       Some (if bool_decide (n ∈ links) &&
                negb (attr_truthy (el_attrs x !! lit "rel"))
             then set_attr (lit "rel") (lit "noopener noreferrer") x
             else x)) /\
  (forall n, n ∈ external_links tagName (w_doc p.2) ->
     exists y, w_doc p.2 !! n = Some y /\
       attr_truthy (el_attrs y !! lit "rel") = true).
Proof.
  cbv zeta. rewrite initExternalLinks_run.
  cbn [fst snd w_doc w_effects w_listeners].
  assert (Hlk : forall n x, w_doc w !! n = Some x ->
    foldl (fun d i => alter secured i d) (w_doc w)
      (external_links tagName (w_doc w)) !! n =
    Some (if bool_decide (n ∈ external_links tagName (w_doc w)) &&
             negb (attr_truthy (el_attrs x !! lit "rel"))
          then set_attr (lit "rel") (lit "noopener noreferrer") x
          else x)).
  { intros n x Hx. rewrite lookup_foldl_alter by apply secured_twice.
    rewrite Hx. cbn [fmap option_fmap option_map].
    destruct (bool_decide _); cbn [andb]; [| done].
    unfold secured. by destruct (attr_truthy _). }
  split_and!; try done.
  - intros n. apply elem_of_external_links.
  - apply length_foldl_alter.
  - intros n. rewrite external_links_secured. intros Hn.
    destruct (lookup_lt_is_Some_2 (w_doc w) n) as [x Hx];
      [by eapply select_tag_lt |].
    eexists. split; [by apply Hlk |].
    rewrite bool_decide_eq_true_2 by done. cbn [andb].
    destruct (attr_truthy (el_attrs x !! lit "rel")) eqn:E; cbn [negb];
      [done |].
    cbn [set_attr el_attrs]. by rewrite lookup_insert_eq.
Qed.

(** X15. [initExternalLinks] is idempotent: run a second time it finds
    the same links and changes nothing in the document. *)
Theorem initExternalLinks_idempotent tagName w :
  let p1 := initExternalLinks tagName w in
  let p2 := initExternalLinks tagName p1.2 in
  w_doc p2.2 = w_doc p1.2 /\
  external_links tagName (w_doc p1.2) = external_links tagName (w_doc w).
Proof.
  cbv zeta. rewrite !initExternalLinks_run. cbn [snd w_doc].
  rewrite external_links_secured. split; [| done].
  apply list_eq. intros n.
  rewrite !lookup_foldl_alter by apply secured_twice.
  destruct (w_doc w !! n) as [x|]; [| done].
  cbn [fmap option_fmap option_map].
  destruct (bool_decide _); [by rewrite secured_twice | done].
Qed.

Section ScrollAnimations.

Lemma seen_twice e : seen (seen e) = seen e.
Proof.
  unfold seen, set_classes. simpl. f_equal. set_solver.
Qed.

Lemma onIntersect_run entries : forall w,
  Forall (fun e => (e.1 < length (w_doc w))%nat) entries ->
  onIntersect entries w =
    (Ret (), with_doc (foldl (fun d i => alter seen i d) (w_doc w)
                         (hits entries)) w).
Proof.
  unfold onIntersect.
  induction entries as [|[n t] es IH]; intros w Hall.
  - cbn [forEach]. by destruct w.
  - apply Forall_cons in Hall as [Hn Hall]. cbn [fst] in Hn.
    destruct (lookup_lt_is_Some_2 _ _ Hn) as [x Hx].
    cbn [forEach]. rewrite bind_run. cbn [fst snd].
    destruct t.
    + unfold classList_add. rewrite (update_run w n _ x Hx).
      rewrite IH by (cbn [with_doc w_doc]; by rewrite length_alter).
      done.
    + munfold. rewrite IH by done. done.
Qed.

Lemma deliver_run batches : forall w,
  Forall (Forall (fun e => (e.1 < length (w_doc w))%nat)) batches ->
  deliver batches w =
    with_doc (foldl (fun d i => alter seen i d) (w_doc w)
                (hits (concat batches))) w.
Proof.
  unfold deliver.
  induction batches as [|es bs IH]; intros w Hall.
  - cbn [foldl concat]. by destruct w.
  - apply Forall_cons in Hall as [Hes Hall].
    cbn [foldl concat]. unfold attempt at 2. cbn [snd].
    rewrite (onIntersect_run es w Hes). cbn [snd].
    rewrite IH.
    + cbn [with_doc w_doc w_effects w_calls w_listeners].
      unfold hits. by rewrite List.filter_app, fmap_app, foldl_app.
    + cbn [with_doc w_doc]. by rewrite length_foldl_alter.
Qed.

Lemma elem_of_hits n entries : n ∈ hits entries <-> (n, true) ∈ entries.
Proof.
  unfold hits. rewrite list_elem_of_fmap. split.
  - intros ([k t] & -> & Hin). apply list_elem_of_In, List.filter_In in Hin
      as [Hin Ht]. cbn in Ht. subst t. by apply list_elem_of_In.
  - intros Hin. exists (n, true). split; [done |].
    apply list_elem_of_In, List.filter_In. split; [| done].
    by apply list_elem_of_In.
Qed.

Lemma initScrollAnimations_observed tagName supported w observed :
  (initScrollAnimations tagName supported w).1 = Ret observed ->
  w_doc (initScrollAnimations tagName supported w).2 = w_doc w /\
  forall n, n ∈ observed -> (n < length (w_doc w))%nat.
Proof.
  unfold initScrollAnimations, document_querySelectorAll, console_warn,
    console_log, emit.
  destruct supported; cbn [negb]; munfold; cbn [fst snd w_doc].
  - intros [= <-]. split; [done |]. intros n. apply select_tag_lt.
  - intros [= <-]. split; [done |]. by intros n ?%elem_of_nil.
Qed.

End ScrollAnimations.

(** X16. A section is revealed exactly when the observer has reported it
    as intersecting, and stays revealed.  Whatever batches of entries
    the observer delivers for the targets it was given, no callback
    throws, nothing is logged, and afterwards an element carries the
    class "section--visible" in addition to what it had if some entry
    reported it as intersecting, and is otherwise unchanged; no later
    entry takes the class away. *)
Theorem scroll_animations_reveal tagName supported w observed batches :
  (initScrollAnimations tagName supported w).1 = Ret observed ->
  Forall (Forall (fun e : nat * bool => e.1 ∈ observed)) batches ->
  let w0 := (initScrollAnimations tagName supported w).2 in
  let w' := deliver batches w0 in
  w_effects w' = w_effects w0 /\
  length (w_doc w') = length (w_doc w) /\
  forall n x, w_doc w !! n = Some x ->
    w_doc w' !! n =
      Some (if bool_decide ((n, true) ∈ concat batches)
            then set_classes (el_classes x ∪ {[lit "section--visible"]}) x
            else x).
Proof.
  intros Hinit Hobs. cbv zeta.
  destruct (initScrollAnimations_observed _ _ _ _ Hinit) as [Hdoc Hlt].
  rewrite deliver_run.
  2:{ rewrite Hdoc. eapply Forall_impl; [exact Hobs |].
      intros es Hes. eapply Forall_impl; [exact Hes |].
      intros e He. by apply Hlt. }
  cbn [with_doc w_doc w_effects]. rewrite Hdoc.
  split_and!; [done | apply length_foldl_alter |].
  intros n x Hx. rewrite lookup_foldl_alter by apply seen_twice.
  rewrite Hx. cbn [fmap option_fmap option_map]. f_equal.
  rewrite (bool_decide_ext _ _ (elem_of_hits n (concat batches))).
  by destruct (bool_decide _).
Qed.

Lemma scroll_animations_reveal_witness :
  let tagName := fun i : nat => if (i =? 0)%nat then lit "section" else lit "p" in
  let w := fresh [node 0 None [] []; node 1 None [] []] in
  let w' := deliver [[(0%nat, false)]; [(0%nat, true)]; [(0%nat, false)]]
              (initScrollAnimations tagName true w).2 in
  w_effects w' = w_effects (initScrollAnimations tagName true w).2 /\
  length (w_doc w') = 2%nat /\
  forall n x, w_doc w !! n = Some x ->
    w_doc w' !! n =
      Some (if bool_decide ((n, true) ∈
                 concat [[(0%nat, false)]; [(0%nat, true)]; [(0%nat, false)]])
            then set_classes (el_classes x ∪ {[lit "section--visible"]}) x
            else x).
Proof.
  intros tagName w.
  apply (scroll_animations_reveal tagName true w [0%nat]).
  - reflexivity.
  - repeat constructor.
Defined.

Section Menu.

Context (n : nat).

Lemma menu_step_refl k x : menu_step n k x x.
Proof. split; auto. Qed.

Lemma set_attr_twice a v v' x : set_attr a v (set_attr a v' x) = set_attr a v x.
Proof. unfold set_attr. simpl. by rewrite insert_insert_eq. Qed.

Lemma menu_step_trans k x y z :
  menu_step n k x y -> menu_step n k y z -> menu_step n k x z.
Proof.
  intros [N1 C1] [N2 C2]. split.
  - intros H. by rewrite N2, N1.
  - destruct C1 as [-> | [-> | ->]]; [done | |];
      destruct C2 as [-> | [-> | ->]]; rewrite ?set_attr_twice; auto.
Qed.

Lemma by_id_set_attr d k a v id :
  by_id (alter (set_attr a v) k d) id = by_id d id.
Proof.
  apply by_id_ids. apply list_eq. intros i.
  rewrite !list_lookup_fmap, list_lookup_alter.
  destruct (decide (k = i)) as [<-|]; [| done]. by destruct (d !! k).
Qed.

Lemma expanded_set d v x :
  by_id d (lit "mobile-menu-toggle") = Some n -> d !! n = Some x ->
  expanded (alter (set_attr (lit "aria-expanded") v) n d) =
    bool_decide (v = lit "true").
Proof.
  intros Hid Hx. unfold expanded. rewrite by_id_set_attr, Hid. simpl.
  rewrite list_lookup_alter_eq, Hx. simpl. rewrite lookup_insert_eq.
  apply bool_decide_ext. split; congruence.
Qed.

Lemma expanded_attr d x :
  by_id d (lit "mobile-menu-toggle") = Some n -> d !! n = Some x ->
  expanded d = bool_decide (el_attrs x !! lit "aria-expanded" = Some (lit "true")).
Proof. intros Hid Hx. unfold expanded. rewrite Hid. simpl. by rewrite Hx. Qed.

Lemma onMenuToggleClick_run w x :
  w_doc w !! n = Some x ->
  onMenuToggleClick (Some n) w =
    (Ret (),
     World (alter (set_attr (lit "aria-expanded")
                     (if bool_decide (el_attrs x !! lit "aria-expanded" =
                                      Some (lit "true"))
                      then lit "false" else lit "true")) n (w_doc w))
       (w_effects w ++ [Log (lit "Mobile menu toggle clicked") []])
       (w_calls w) (w_listeners w)).
Proof.
  intros Hx. unfold onMenuToggleClick, getAttribute, deref.
  rewrite !bind_run, Hx. munfold. unfold setAttribute, update. rewrite Hx.
  unfold console_log, emit. cbn [with_doc w_doc w_effects w_calls w_listeners].
  by destruct (bool_decide _).
Qed.

Lemma onKeydown_run w key x :
  by_id (w_doc w) (lit "mobile-menu-toggle") = Some n ->
  w_doc w !! n = Some x ->
  onKeydown key w =
    (Ret (),
     if bool_decide (key = lit "Escape") &&
        bool_decide (el_attrs x !! lit "aria-expanded" = Some (lit "true"))
     then World (alter (set_attr (lit "aria-expanded") (lit "false")) n (w_doc w))
            (w_effects w ++ [Focus n]) (w_calls w) (w_listeners w)
     else w).
Proof.
  intros Hid Hx. unfold onKeydown.
  destruct (bool_decide (key = lit "Escape")); cbn [andb]; [| done].
  unfold getElementById. rewrite bind_run, Hid.
  unfold getAttribute, deref. rewrite !bind_run, Hx. munfold.
  destruct (bool_decide _); [| done].
  unfold setAttribute, update. rewrite Hx. unfold focus, emit.
  by cbn [with_doc w_doc w_effects w_calls w_listeners].
Qed.

Lemma menu_perform_spec w a :
  by_id (w_doc w) (lit "mobile-menu-toggle") = Some n ->
  let w' := (menu_perform (Some n) a w).2 in
  by_id (w_doc w') (lit "mobile-menu-toggle") = Some n /\
  expanded (w_doc w') = menu_next (expanded (w_doc w)) a /\
  w_effects w' = w_effects w ++ menu_output n (expanded (w_doc w)) a /\
  w_listeners w' = w_listeners w /\
  doc_rel (menu_step n) (w_doc w) (w_doc w').
Proof.
  intros Hid. cbv zeta.
  destruct (by_id_Some _ _ _ Hid) as (x & Hx & _).
  rewrite (expanded_attr _ x Hid Hx).
  destruct a as [|key]; cbn [menu_perform menu_next menu_output];
    unfold attempt; cbn [snd].
  - rewrite (onMenuToggleClick_run w x Hx). cbn [snd w_doc w_effects w_listeners].
    rewrite by_id_set_attr, (expanded_set _ _ x Hid Hx).
    split_and!; [done | by destruct (bool_decide (_ = Some _)) | done | done |].
    apply doc_rel_alter; [apply menu_step_refl |]. intros y _.
    split; [done |]. destruct (bool_decide _); auto.
  - rewrite (onKeydown_run w key x Hid Hx). cbn [snd].
    destruct (bool_decide (key = lit "Escape")); cbn [andb].
    + destruct (bool_decide (_ = Some _)) eqn:E.
      * cbn [w_doc w_effects w_listeners].
        rewrite by_id_set_attr, (expanded_set _ _ x Hid Hx).
        split_and!; try done.
        apply doc_rel_alter; [apply menu_step_refl |]. intros y _.
        split; [done | auto].
      * rewrite (expanded_attr _ x Hid Hx), E, app_nil_r.
        split_and!; try done. apply doc_rel_refl, menu_step_refl.
    + rewrite (expanded_attr _ x Hid Hx), app_nil_r.
      split_and!; try done. apply doc_rel_refl, menu_step_refl.
Qed.

Lemma menu_run_spec acts : forall w,
  by_id (w_doc w) (lit "mobile-menu-toggle") = Some n ->
  let w' := menu_run (Some n) acts w in
  expanded (w_doc w') = foldl menu_next (expanded (w_doc w)) acts /\
  w_effects w' = w_effects w ++ menu_trace n (expanded (w_doc w)) acts /\
  w_listeners w' = w_listeners w /\
  doc_rel (menu_step n) (w_doc w) (w_doc w').
Proof.
  induction acts as [|a acts IH]; intros w Hid; cbv zeta.
  - cbn [menu_run foldl menu_trace]. rewrite app_nil_r.
    split_and!; try done. apply doc_rel_refl, menu_step_refl.
  - cbn [menu_run foldl menu_trace].
    destruct (menu_perform_spec w a Hid) as (Hid' & He & Hf & Hl & Hr).
    destruct (IH _ Hid') as (He' & Hf' & Hl' & Hr').
    rewrite He', Hf', Hl', He, Hf, Hl, <- app_assoc.
    split_and!; try done.
    eapply doc_rel_trans; [apply menu_step_refl | apply menu_step_trans | |];
      done.
Qed.

End Menu.

(** X17. The menu is a machine with one bit of state, held in the
    toggle's [aria-expanded]: a click on the toggle flips it, Escape
    clears it, any other key leaves it.  A click logs one line; Escape
    moves the focus to the toggle when the menu was expanded, and does
    nothing at all when it was not.  Of the document, the scripts change
    nothing but that attribute of the toggle, which they set to "true"
    or "false". *)
Theorem menu_machine d n acts :
  by_id d (lit "mobile-menu-toggle") = Some n ->
  let w := (menu_loaded d).2 in
  let w' := menu_run (menu_loaded d).1 acts w in
  w_doc w = d /\
  expanded (w_doc w') = foldl menu_next (expanded d) acts /\
  w_effects w' = w_effects w ++ menu_trace n (expanded d) acts /\
  doc_rel (menu_step n) d (w_doc w').
Proof.
  intros Hid. cbv zeta.
  assert (Hload : menu_loaded d =
    (Some n, World d [Log (lit "Mobile menu toggle initialized") [];
                      Log (lit "Keyboard navigation initialized") []] [] [])).
  { unfold menu_loaded, initMobileMenu, getElementById.
    rewrite bind_run. cbn [fresh w_doc]. by rewrite Hid. }
  rewrite Hload. cbn [fst snd w_doc].
  split; [done |].
  destruct (menu_run_spec n acts (World d
              [Log (lit "Mobile menu toggle initialized") [];
               Log (lit "Keyboard navigation initialized") []] [] []) Hid)
    as (He & Hf & _ & Hr).
  by split_and!.
Qed.

Lemma menu_machine_witness :
  let d := [node 0 (Some (lit "header")) [] [];
            node 1 (Some (lit "mobile-menu-toggle")) [] []] in
  let acts := [PressKey (lit "Escape"); ClickToggle; PressKey (lit "a");
               PressKey (lit "Escape"); ClickToggle; ClickToggle] in
  let w := (menu_loaded d).2 in
  let w' := menu_run (menu_loaded d).1 acts w in
  w_doc w = d /\
  expanded (w_doc w') = foldl menu_next (expanded d) acts /\
  w_effects w' = w_effects w ++ menu_trace 1 (expanded d) acts /\
  doc_rel (menu_step 1) d (w_doc w').
Proof.
  intros d acts. apply (menu_machine d 1 acts). reflexivity.
Defined.

(** X18. Without a toggle in the document, [initMobileMenu] returns
    silently (it logs nothing and registers nothing), and no key the
    user presses changes anything: the document, the log and the focus
    stay as they are. *)
Theorem menu_without_toggle d keys :
  by_id d (lit "mobile-menu-toggle") = None ->
  menu_loaded d =
    (None, World d [Log (lit "Keyboard navigation initialized") []] [] []) /\
  menu_run (menu_loaded d).1 (PressKey <$> keys) (menu_loaded d).2 =
    (menu_loaded d).2.
Proof.
  intros Hid.
  assert (Hload : menu_loaded d =
    (None, World d [Log (lit "Keyboard navigation initialized") []] [] [])).
  { unfold menu_loaded, initMobileMenu, getElementById.
    rewrite bind_run. cbn [fresh w_doc]. by rewrite Hid. }
  split; [done |]. rewrite Hload. cbn [fst snd].
  induction keys as [|key keys IH]; [done |].
  cbn [fmap list_fmap menu_run menu_perform]. unfold attempt. cbn [snd].
  assert (onKeydown key (World d [Log (lit "Keyboard navigation initialized") []]
                           [] []) =
          (Ret (), World d [Log (lit "Keyboard navigation initialized") []]
                     [] [])) as ->; [| exact IH].
  unfold onKeydown. destruct (bool_decide _); [| done].
  unfold getElementById. rewrite bind_run. cbn [w_doc]. by rewrite Hid.
Qed.

Lemma menu_without_toggle_witness :
  menu_loaded blank_page =
    (None, World blank_page
             [Log (lit "Keyboard navigation initialized") []] [] []) /\
  menu_run (menu_loaded blank_page).1
    (PressKey <$> [lit "Escape"; lit "Enter"]) (menu_loaded blank_page).2 =
    (menu_loaded blank_page).2.
Proof.
  apply (menu_without_toggle blank_page [lit "Escape"; lit "Enter"]).
  reflexivity.
Defined.

Section Header.

Context (n : nat).

Lemma scroll_step_refl k x : scroll_step n k x x.
Proof.
  split; [done |]. exists (el_classes x). split; [by destruct x | done].
Qed.

Lemma scroll_step_trans k x y z :
  scroll_step n k x y -> scroll_step n k y z -> scroll_step n k x z.
Proof.
  intros [N1 (c1 & -> & H1)] [N2 (c2 & -> & H2)]. split.
  - intros H. by rewrite N2, N1.
  - exists c2. split; [done |]. intros c Hc. rewrite H2 by done. by apply H1.
Qed.

Lemma scroll_step_restyled cur last x : scroll_step n n x (restyled cur last x).
Proof.
  split; [done |]. unfold restyled.
  repeat match goal with |- context [if ?b then _ else _] => destruct b end;
    try (eexists; split; [reflexivity |]; intros c Hc; set_solver).
  exists (el_classes x). split; [by destruct x | done].
Qed.

Lemma by_id_alter_ids (g : element -> element) k d id :
  (forall x, el_id (g x) = el_id x) -> by_id (alter g k d) id = by_id d id.
Proof.
  intros Hg. apply by_id_ids. apply list_eq. intros i.
  rewrite !list_lookup_fmap, list_lookup_alter.
  destruct (decide (k = i)) as [<-|]; [| done].
  destruct (d !! k); [| done]. simpl. by rewrite Hg.
Qed.

Lemma el_id_restyled cur last x : el_id (restyled cur last x) = el_id x.
Proof.
  unfold restyled.
  by repeat match goal with |- context [if ?b then _ else _] => destruct b end.
Qed.

Lemma hidden_restyled cur last x :
  bool_decide (lit "header--hidden" ∈ el_classes (restyled cur last x)) =
  hidden_after cur last (bool_decide (lit "header--hidden" ∈ el_classes x)).
Proof.
  unfold restyled, hidden_after.
  repeat match goal with |- context [if ?b then _ else _] => destruct b end;
    try done; cbn [set_classes el_classes].
  - apply bool_decide_eq_false_2. set_solver.
  - apply bool_decide_eq_true_2. set_solver.
  - apply bool_decide_eq_false_2. set_solver.
Qed.

Lemma updateHeaderVisibility_run win s w x :
  header s = Some n -> w_doc w !! n = Some x ->
  updateHeaderVisibility win s w =
    (Ret {| header := Some n; lastScrollY := scrollY win; ticking := false |},
     with_doc (alter (restyled (scrollY win) (lastScrollY s)) n (w_doc w)) w).
Proof.
  intros Hh Hx. unfold updateHeaderVisibility. rewrite bind_run, Hh.
  assert (Hstep :
    (if Qle_bool (scrollY win) 100
     then classList_remove (Some n) (lit "header--hidden")
     else if Qgtb (scrollY win) (lastScrollY s) && Qgtb (scrollY win) 200
          then classList_add (Some n) (lit "header--hidden")
          else if Qltb (scrollY win) (lastScrollY s)
               then classList_remove (Some n) (lit "header--hidden")
               else mret ()) w =
    (Ret (), with_doc (alter (restyled (scrollY win) (lastScrollY s)) n
                         (w_doc w)) w)).
  { unfold restyled, classList_remove, classList_add.
    repeat match goal with |- context [if ?b then _ else _] => destruct b end;
      try by rewrite (update_run w n _ x Hx).
    munfold. rewrite (alter_same _ n _ x Hx) by done. by destruct w. }
  by rewrite Hstep.
Qed.

Lemma header_hidden_restyled d cur last x :
  by_id d (lit "header") = Some n -> d !! n = Some x ->
  header_hidden (alter (restyled cur last) n d) =
    hidden_after cur last (header_hidden d).
Proof.
  intros Hid Hx. unfold header_hidden.
  rewrite by_id_alter_ids by apply el_id_restyled. rewrite Hid. simpl.
  rewrite list_lookup_alter_eq, Hx. simpl. apply hidden_restyled.
Qed.

Lemma scroll_loaded_header d y :
  by_id d (lit "header") = Some n ->
  scroll_loaded d y =
    {| sp_world := World d [Log (lit "Header scroll behavior initialized") []]
                     [] [];
       sp_window := {| scrollY := y; frames := 0 |};
       sp_scroller := Some {| header := Some n; lastScrollY := y;
                              ticking := false |} |}.
Proof.
  intros Hid. unfold scroll_loaded, initHeaderScrollBehavior, getElementById.
  rewrite bind_run. cbn [fresh w_doc]. by rewrite Hid.
Qed.

Lemma scroll_inv_loaded d y :
  by_id d (lit "header") = Some n -> scroll_inv n d (scroll_loaded d y).
Proof.
  intros Hid. rewrite (scroll_loaded_header d y Hid).
  eexists. cbn [sp_scroller sp_world sp_window w_doc header ticking frames
                lastScrollY scrollY].
  split_and!; try done. apply doc_rel_refl, scroll_step_refl.
Qed.

(** A frame with one queued update. *)
Lemma frame_run w s x y :
  header s = Some n -> w_doc w !! n = Some x ->
  scroll_perform Frame
    {| sp_world := w; sp_window := {| scrollY := y; frames := 1 |};
       sp_scroller := Some s |} =
    {| sp_world := with_doc (alter (restyled y (lastScrollY s)) n (w_doc w)) w;
       sp_window := {| scrollY := y; frames := 0 |};
       sp_scroller := Some {| header := Some n; lastScrollY := y;
                              ticking := false |} |}.
Proof.
  intros Hh Hx.
  cbn [scroll_perform sp_scroller sp_window sp_world frames scrollY Nat.iter
       nat_rect].
  unfold update_once. cbn [fst snd].
  by rewrite (updateHeaderVisibility_run _ s w x Hh Hx).
Qed.

Lemma scroll_inv_perform d a p :
  scroll_inv n d p ->
  scroll_inv n d (scroll_perform a p) /\
  w_effects (sp_world (scroll_perform a p)) = w_effects (sp_world p) /\
  w_listeners (sp_world (scroll_perform a p)) = w_listeners (sp_world p).
Proof.
  intros (s & Hs & Hh & Hid & Hfr & Hlast & Hrel).
  destruct p as [w [y fr] sc]. cbn [sp_scroller sp_world sp_window frames
                                    scrollY] in *. subst sc.
  destruct a as [y'|].
  - cbn [scroll_perform sp_scroller sp_window sp_world frames scrollY].
    unfold onScroll. destruct (ticking s) eqn:Ht; cbn [negb fst snd].
    + split; [| done]. exists s.
      cbn [sp_scroller sp_world sp_window frames scrollY].
      rewrite Ht. by split_and!.
    + split; [| done]. eexists.
      cbn [sp_scroller sp_world sp_window frames scrollY header ticking
           lastScrollY].
      split_and!; try done. by rewrite Hfr.
  - destruct (by_id_Some _ _ _ Hid) as (x & Hx & _).
    destruct (ticking s) eqn:Ht.
    + subst fr. rewrite (frame_run w s x y Hh Hx).
      cbn [sp_scroller sp_world sp_window frames scrollY with_doc w_doc
           w_effects w_listeners].
      split; [| done]. eexists.
      cbn [sp_scroller sp_world sp_window frames scrollY with_doc w_doc
           header ticking lastScrollY].
      split_and!; try done.
      * by rewrite by_id_alter_ids by apply el_id_restyled.
      * eapply doc_rel_trans;
          [apply scroll_step_refl | apply scroll_step_trans | exact Hrel |].
        apply doc_rel_alter; [apply scroll_step_refl |].
        intros x' _. apply scroll_step_restyled.
    + subst fr.
      cbn [scroll_perform sp_scroller sp_window sp_world frames scrollY
           Nat.iter nat_rect fst snd].
      split; [| done]. exists s.
      cbn [sp_scroller sp_world sp_window frames scrollY].
      rewrite Ht. by split_and!.
Qed.

Lemma scroll_inv_run d acts : forall p,
  scroll_inv n d p ->
  scroll_inv n d (scroll_run acts p) /\
  w_effects (sp_world (scroll_run acts p)) = w_effects (sp_world p) /\
  w_listeners (sp_world (scroll_run acts p)) = w_listeners (sp_world p).
Proof.
  unfold scroll_run.
  induction acts as [|a acts IH]; intros p Hp; cbn [foldl]; [done |].
  destruct (scroll_inv_perform d a p Hp) as (Hp' & He & Hl).
  destruct (IH _ Hp') as (Hp'' & He' & Hl').
  split_and!; [done | by rewrite He', He | by rewrite Hl', Hl].
Qed.

(** The header is hidden only if the last processed position is beyond
    100. *)
Lemma hidden_inv_perform d a p s s' :
  scroll_inv n d p ->
  sp_scroller p = Some s -> sp_scroller (scroll_perform a p) = Some s' ->
  (header_hidden (w_doc (sp_world p)) = true -> (100 < lastScrollY s)%Q) ->
  header_hidden (w_doc (sp_world (scroll_perform a p))) = true ->
  (100 < lastScrollY s')%Q.
Proof.
  intros (s0 & Hs0 & Hh & Hid & Hfr & Hlast & Hrel) Hs Hs' Hinv.
  assert (s0 = s) as -> by congruence.
  destruct p as [w [y fr] sc]. cbn [sp_scroller sp_world sp_window frames
                                    scrollY] in *. subst sc.
  destruct a as [y'|].
  - cbn [scroll_perform sp_scroller sp_window sp_world frames scrollY] in *.
    unfold onScroll in Hs'.
    destruct (ticking s); cbn [negb fst snd] in Hs'; injection Hs' as <-;
      exact Hinv.
  - destruct (by_id_Some _ _ _ Hid) as (x & Hx & _).
    destruct (ticking s) eqn:Ht.
    + subst fr. pose proof (frame_run w s x y Hh Hx) as E.
      rewrite E in Hs' |- *.
      cbn [sp_scroller sp_world with_doc w_doc] in *. injection Hs' as <-.
      rewrite (header_hidden_restyled _ _ _ x Hid Hx).
      cbn [lastScrollY]. unfold hidden_after.
      destruct (Qle_bool y 100) eqn:Hy; [done |]. intros _.
      apply Qnot_le_lt. intros Hle%Qle_bool_iff. congruence.
    + subst fr.
      cbn [scroll_perform sp_scroller sp_window sp_world frames scrollY
           Nat.iter nat_rect fst snd] in *.
      injection Hs' as <-. exact Hinv.
Qed.

Lemma scroll_none_run acts : forall p,
  sp_scroller p = None -> frames (sp_window p) = 0%nat ->
  sp_scroller (scroll_run acts p) = None /\
  sp_world (scroll_run acts p) = sp_world p /\
  frames (sp_window (scroll_run acts p)) = 0%nat.
Proof.
  unfold scroll_run.
  induction acts as [|a acts IH]; intros p Hs Hf; cbn [foldl]; [done |].
  destruct (IH (scroll_perform a p)) as (H1 & H2 & H3).
  - destruct a; cbn [scroll_perform]; by rewrite Hs.
  - destruct a; cbn [scroll_perform]; by rewrite Hs.
  - split_and!; [done | | done]. rewrite H2.
    destruct a; cbn [scroll_perform]; by rewrite Hs.
Qed.

End Header.

Lemma scroll_loaded_none d y :
  by_id d (lit "header") = None ->
  scroll_loaded d y =
    {| sp_world := World d [Warn (lit "Header element not found")] [] [];
       sp_window := {| scrollY := y; frames := 0 |};
       sp_scroller := None |}.
Proof.
  intros Hid. unfold scroll_loaded, initHeaderScrollBehavior, getElementById.
  rewrite bind_run. cbn [fresh w_doc]. by rewrite Hid.
Qed.

(** X19. Scroll events are throttled to one update per frame, and no
    scroll is lost.  At any time at most one call of
    [updateHeaderVisibility] is queued for the next frame, however many
    scroll events there were; one is queued exactly while [ticking] is
    set; and whenever none is queued, the position the header was last
    updated for is the current scroll position.  Without a header
    nothing is ever queued. *)
Theorem scroll_throttle d y acts :
  let p := scroll_run acts (scroll_loaded d y) in
  (frames (sp_window p) <= 1)%nat /\
  match sp_scroller p with
  | Some s =>
      frames (sp_window p) = (if ticking s then 1 else 0)%nat /\
      (ticking s = false -> lastScrollY s = scrollY (sp_window p))
  | None => frames (sp_window p) = 0%nat
  end.
Proof.
  cbv zeta. destruct (by_id d (lit "header")) as [n|] eqn:Hid.
  - destruct (scroll_inv_run n d acts _ (scroll_inv_loaded n d y Hid))
      as ((s & -> & _ & _ & Hfr & Hlast & _) & _).
    rewrite Hfr. split; [destruct (ticking s); lia | done].
  - destruct (scroll_none_run acts (scroll_loaded d y)) as (-> & _ & ->);
      [by rewrite scroll_loaded_none | by rewrite scroll_loaded_none |].
    split; [lia | done].
Qed.

(** X20. The header is never left hidden at the top of the page.  On a
    page whose header is not hidden when the script loads, whenever the
    header is hidden the position it was last updated for is beyond 100;
    so whenever no update is queued and the page is scrolled to 100 or
    less, the header is shown. *)
Theorem header_shown_at_top d y acts s :
  header_hidden d = false ->
  let p := scroll_run acts (scroll_loaded d y) in
  sp_scroller p = Some s ->
  (header_hidden (w_doc (sp_world p)) = true -> (100 < lastScrollY s)%Q) /\
  (ticking s = false -> (scrollY (sp_window p) <= 100)%Q ->
   header_hidden (w_doc (sp_world p)) = false).
Proof.
  intros Hvis. cbv zeta.
  destruct (by_id d (lit "header")) as [n|] eqn:Hid.
  2:{ destruct (scroll_none_run acts (scroll_loaded d y)) as (-> & _ & _);
        [by rewrite scroll_loaded_none | by rewrite scroll_loaded_none |].
      done. }
  assert (H : forall s, sp_scroller (scroll_run acts (scroll_loaded d y)) = Some s ->
            header_hidden (w_doc (sp_world (scroll_run acts (scroll_loaded d y))))
              = true -> (100 < lastScrollY s)%Q).
  { clear s. induction acts as [|a acts IH] using rev_ind; intros s Hs.
    - unfold scroll_run in *. cbn [foldl] in *.
      rewrite (scroll_loaded_header n d y Hid) in *.
      cbn [sp_world w_doc]. by rewrite Hvis.
    - unfold scroll_run in *. rewrite foldl_app in *. cbn [foldl] in *.
      destruct (scroll_inv_run n d acts _ (scroll_inv_loaded n d y Hid))
        as (Hinv & _).
      unfold scroll_run in Hinv.
      destruct Hinv as (s0 & Hs0 & Hrest).
      apply (hidden_inv_perform n d a _ s0 s); try done.
      + by exists s0.
      + by apply IH. }
  intros Hs. split; [by apply H |].
  intros Ht Hy.
  destruct (scroll_inv_run n d acts _ (scroll_inv_loaded n d y Hid))
    as ((s0 & Hs0 & _ & _ & _ & Hlast & _) & _).
  assert (s0 = s) as -> by congruence.
  apply not_true_is_false. intros E.
  specialize (H s Hs E). rewrite (Hlast Ht) in H. lra.
Qed.

Lemma header_shown_at_top_witness :
  let d := [node 0 (Some (lit "header")) [lit "header"] []] in
  let p := scroll_run [ScrollTo 300; ScrollTo 350; Frame; ScrollTo 40; Frame]
             (scroll_loaded d 0) in
  exists s,
    sp_scroller p = Some s /\
    (header_hidden (w_doc (sp_world p)) = true -> (100 < lastScrollY s)%Q) /\
    (ticking s = false -> (scrollY (sp_window p) <= 100)%Q ->
     header_hidden (w_doc (sp_world p)) = false).
Proof.
  intros d p. eexists. split; [reflexivity |].
  apply (header_shown_at_top d 0
           [ScrollTo 300; ScrollTo 350; Frame; ScrollTo 40; Frame]);
    reflexivity.
Defined.

(** X21. Scrolling changes nothing but the header's class
    "header--hidden": every other class of the header, every other part
    of it and every other element stay as they are, and after loading
    nothing is logged.  Without a header the function warns once and the
    document never changes. *)
Theorem scroll_footprint d y acts :
  let p0 := scroll_loaded d y in
  let p := scroll_run acts p0 in
  w_effects (sp_world p) = w_effects (sp_world p0) /\
  match by_id d (lit "header") with
  | Some n => doc_rel (scroll_step n) d (w_doc (sp_world p))
  | None =>
      w_doc (sp_world p) = d /\
      w_effects (sp_world p0) = [Warn (lit "Header element not found")]
  end.
Proof.
  cbv zeta. destruct (by_id d (lit "header")) as [n|] eqn:Hid.
  - destruct (scroll_inv_run n d acts _ (scroll_inv_loaded n d y Hid))
      as ((s & _ & _ & _ & _ & _ & Hrel) & He & _).
    by split.
  - destruct (scroll_none_run acts (scroll_loaded d y)) as (_ & -> & _);
      [by rewrite scroll_loaded_none | by rewrite scroll_loaded_none |].
    by rewrite scroll_loaded_none.
Qed.

(** X22. What a scroll does to the header.  At any time, scrolling to a
    position and letting one frame pass runs [updateHeaderVisibility]
    exactly once: the header is shown if the new position is 100 or
    less; else hidden if the position is beyond both 200 and the last
    processed position; else shown if it is before the last processed
    position; else left as it was.  Afterwards nothing is queued and the
    last processed position is the new one. *)
Theorem scroll_response d n y acts y' :
  by_id d (lit "header") = Some n ->
  let p := scroll_run acts (scroll_loaded d y) in
  let p' := scroll_run [ScrollTo y'; Frame] p in
  exists s s',
    sp_scroller p = Some s /\ sp_scroller p' = Some s' /\
    lastScrollY s' = y' /\ ticking s' = false /\
    frames (sp_window p') = 0%nat /\
    header_hidden (w_doc (sp_world p')) =
      hidden_after y' (lastScrollY s) (header_hidden (w_doc (sp_world p))).
Proof.
  intros Hid. cbv zeta.
  destruct (scroll_inv_run n d acts _ (scroll_inv_loaded n d y Hid))
    as ((s & Hs & Hh & Hid' & Hfr & Hlast & Hrel) & _).
  destruct (scroll_run acts (scroll_loaded d y)) as [w [y0 fr] sc].
  cbn [sp_scroller sp_world sp_window frames scrollY] in *. subst sc.
  destruct (by_id_Some _ _ _ Hid') as (x & Hx & _).
  exists s. unfold scroll_run. cbn [foldl].
  assert (Hscroll : exists s1,
    scroll_perform (ScrollTo y')
      {| sp_world := w; sp_window := {| scrollY := y0; frames := fr |};
         sp_scroller := Some s |} =
    {| sp_world := w; sp_window := {| scrollY := y'; frames := 1 |};
       sp_scroller := Some s1 |} /\
    header s1 = Some n /\ lastScrollY s1 = lastScrollY s).
  { cbn [scroll_perform sp_scroller sp_window sp_world frames scrollY].
    unfold onScroll. destruct (ticking s) eqn:Ht; cbn [negb fst snd].
    - exists s. by rewrite Hfr.
    - eexists. rewrite Hfr. by split_and!. }
  destruct Hscroll as (s1 & -> & Hh1 & Hl1).
  rewrite (frame_run n w s1 x y' Hh1 Hx).
  eexists. cbn [sp_scroller sp_world sp_window frames with_doc w_doc
                lastScrollY ticking].
  split_and!; try done.
  by rewrite (header_hidden_restyled n _ _ _ x Hid' Hx), Hl1.
Qed.

Lemma scroll_response_witness :
  let d := [node 0 (Some (lit "header")) [lit "header"] []] in
  let p := scroll_run [ScrollTo 150; ScrollTo 120] (scroll_loaded d 0) in
  let p' := scroll_run [ScrollTo 250; Frame] p in
  exists s s',
    sp_scroller p = Some s /\ sp_scroller p' = Some s' /\
    lastScrollY s' = 250%Q /\ ticking s' = false /\
    frames (sp_window p') = 0%nat /\
    header_hidden (w_doc (sp_world p')) =
      hidden_after 250 (lastScrollY s) (header_hidden (w_doc (sp_world p))).
Proof.
  intros d. apply (scroll_response d 0 0 [ScrollTo 150; ScrollTo 120] 250).
  reflexivity.
Defined.
